(** * Deadlock laboratory: wait-for detector, lock manager, simulator, workers

    A shallow embedding of the Python sources
    [fs_deadlock_sim/{models,lock_manager,deadlock_detector,simulator,
    scenarios}.py], [core/worker.py] and parts of [core/scenario.py],
    with the properties of the design document proved about it.

    Conventions.
    - Python [str] is [string]; comparison of strings is the byte-wise
      lexicographic order, which on UTF-8 coincides with Python's order
      on code points.
    - A Python [dict] whose iteration order is observed is an association
      list in insertion order; a [dict] used only through lookups is a
      [gmap].  A Python [set] that is only tested for membership is a
      [gset]; a [set] that is iterated is the list of its elements in
      iteration order (every order is covered, the theorems quantify over
      the list).
    - Mutable objects live in an explicit store that is threaded through
      every call; an exception leaves the store as it was when raised.
    - [print] and logging calls are dropped.
    - The interpreter bounds the depth of the call stack and raises
      [RecursionError] beyond it ([sys.getrecursionlimit()], 1000 unless
      changed, and the sources do not change it).  The one recursive
      function, [dfs] of the detector, takes the number of nested calls
      that the interpreter still allows as its argument [depth], and so
      do its callers. *)

From Stdlib Require Import ZArith QArith Qround String List Relations.
From stdpp Require Import gmap strings list fin_maps sets pretty.

#[local] Set Warnings "-clear-no-such-hyp".

Local Open Scope string_scope.
Local Open Scope list_scope.

(** ** Outcomes of a call *)

Inductive exn : Type :=
| KeyError
| ValueError
| IndexError
| RecursionError
| OtherError.

(** A call returns, raises, or (for the fuel-indexed loops of the
    workers only) runs out of fuel. *)
Inductive outcome (A : Type) : Type :=
| Ret (a : A)
| Exc (e : exn)
| NoFuel.
Arguments Ret {A} a.
Arguments Exc {A} e.
Arguments NoFuel {A}.

(** State-and-exception monad: the store survives an exception. *)
Definition M (S A : Type) : Type := S -> outcome A * S.

Definition ret {S A} (a : A) : M S A := fun s => (Ret a, s).
Definition raise {S A} (e : exn) : M S A := fun s => (Exc e, s).
Definition bind {S A B} (m : M S A) (k : A -> M S B) : M S B :=
  fun s =>
    match m s with
    | (Ret a, s') => k a s'
    | (Exc e, s') => (Exc e, s')
    | (NoFuel, s') => (NoFuel, s')
    end.
Definition get {S} : M S S := fun s => (Ret s, s).
Definition put {S} (s : S) : M S unit := fun _ => (Ret tt, s).
Definition modify {S} (f : S -> S) : M S unit := fun s => (Ret tt, f s).

Notation "'do' x <- m ; k" := (bind m (fun x => k))
  (at level 10, x name, m at level 100, k at level 200).
Notation "'do_' m ; k" := (bind m (fun _ => k))
  (at level 10, m at level 100, k at level 200).

(** [for x in xs: body(x)] *)
Fixpoint for_each {S A} (xs : list A) (body : A -> M S unit) : M S unit :=
  match xs with
  | [] => ret tt
  | x :: xs' => do_ body x; for_each xs' body
  end.

(** Python truthiness of an [Optional[str]]: [None] and [""] are falsy. *)
Definition truthy_str (o : option string) : bool :=
  match o with
  | Some s => negb (String.eqb s "")
  | None => false
  end.

(** Python truthiness of an [Optional[List]]: [None] and [[]] are falsy. *)
Definition truthy_list {A} (o : option (list A)) : bool :=
  match o with
  | Some (_ :: _) => true
  | _ => false
  end.

(** ** models.py *)

Inductive ProcessState : Type := RUNNING | BLOCKED | DEADLOCKED | FINISHED.

Global Instance ProcessState_eq_dec : EqDecision ProcessState.
Proof. solve_decision. Defined.

Record Resource : Type := mkResource {
  rid : string;
  held_by : option string;
}.

Record Process : Type := mkProcess {
  pid : string;
  plan : list string;
  held_resources : gset string;
  current_request : option string;
  state : ProcessState;
  waiting_steps : Z;
}.

Definition set_state (st : ProcessState) (p : Process) : Process :=
  {| pid := pid p; plan := plan p; held_resources := held_resources p;
     current_request := current_request p; state := st;
     waiting_steps := waiting_steps p |}.

Definition set_current_request (r : option string) (p : Process) : Process :=
  {| pid := pid p; plan := plan p; held_resources := held_resources p;
     current_request := r; state := state p;
     waiting_steps := waiting_steps p |}.

Definition set_held_resources (h : gset string) (p : Process) : Process :=
  {| pid := pid p; plan := plan p; held_resources := h;
     current_request := current_request p; state := state p;
     waiting_steps := waiting_steps p |}.

Definition set_held_by (h : option string) (r : Resource) : Resource :=
  {| rid := rid r; held_by := h |}.

(** [sorted(l)] on strings, as the insertion sort of the order [<=?]. *)
Fixpoint sorted_insert (x : string) (l : list string) : list string :=
  match l with
  | [] => [x]
  | y :: l' => if String.leb x y then x :: y :: l'
               else y :: sorted_insert x l'
  end.

Fixpoint sorted (l : list string) : list string :=
  match l with
  | [] => []
  | x :: l' => sorted_insert x (sorted l')
  end.

(** [Process.next_request].  [sorted(remaining)[0]] is taken on a list
    that the guard before it makes non-empty. *)
Definition next_request (self : Process) (ordered_mode : bool)
  : option string :=
  if bool_decide (state self ∈ [BLOCKED; DEADLOCKED; FINISHED]) then None
  else
    let remaining :=
      List.filter (fun r => bool_decide (r ∉ held_resources self))
                  (plan self) in
    match remaining with
    | [] => None
    | _ :: _ =>
        if ordered_mode then head (sorted remaining)
        else List.find (fun resource_id =>
                          bool_decide (resource_id ∉ held_resources self))
                       (plan self)
    end.

(** [Process.has_all_resources] *)
Definition has_all_resources (self : Process) : bool :=
  forallb (fun r => bool_decide (r ∈ held_resources self)) (plan self).

(** [Process.mark_blocked] *)
Definition mark_blocked (resource_id : string) (self : Process) : Process :=
  set_current_request (Some resource_id) (set_state BLOCKED self).

(** [Process.mark_deadlocked] *)
Definition mark_deadlocked (self : Process) : Process :=
  set_state DEADLOCKED self.

(** [Process.reset_blocking] *)
Definition reset_blocking (self : Process) : Process :=
  let p := set_current_request None self in
  if decide (state p = BLOCKED) then set_state RUNNING p else p.

(** ** The store of shared objects

    The simulator, its lock manager and its detector share the process
    objects and the resource dictionary.  A process object is named by
    its position in [Simulator.processes], a resource object by its key
    in [Simulator.resources]. *)

Record Store : Type := mkStore {
  processes : list Process;
  resources : gmap string Resource;
}.

Definition get_process (i : nat) : M Store Process :=
  fun s => match processes s !! i with
           | Some p => (Ret p, s)
           | None => (Exc IndexError, s)
           end.

Definition set_process (i : nat) (p : Process) : M Store unit :=
  modify (fun s => {| processes := <[i := p]> (processes s);
                      resources := resources s |}).

(** [resources[key]] *)
Definition get_resource (key : string) : M Store Resource :=
  fun s => match resources s !! key with
           | Some r => (Ret r, s)
           | None => (Exc KeyError, s)
           end.

Definition set_resource (key : string) (r : Resource) : M Store unit :=
  modify (fun s => {| processes := processes s;
                      resources := <[key := r]> (resources s) |}).

(** The positions of the process objects, for [for process in processes]. *)
Definition process_indices : M Store (list nat) :=
  fun s => (Ret (seq 0 (length (processes s))), s).

(** ** deadlock_detector.py *)

Module Detector.

(** [Dict[str, Set[str]]], keys in insertion order, every successor set
    as the list of its elements in iteration order. *)
Definition graph : Type := list (string * list string).

(** [graph.get(node, set())] *)
Fixpoint graph_get (g : graph) (node : string) : list string :=
  match g with
  | [] => []
  | (k, vs) :: g' => if decide (k = node) then vs else graph_get g' node
  end.

(** [list(graph.keys())] *)
Definition graph_keys (g : graph) : list string := map fst g.

(** The graph has the edge [u -> v]. *)
Definition edge (g : graph) (u v : string) : Prop := v ∈ graph_get g u.

(** The three variables shared by the nested [dfs] closure. *)
Record dfs_state : Type := mkDfs {
  visited : gset string;
  stack : gset string;
  path : list string;
}.

(** [path.index(x)]: position of the first occurrence. *)
Fixpoint list_index (x : string) (l : list string) : option nat :=
  match l with
  | [] => None
  | y :: l' => if decide (y = x) then Some 0%nat
               else option_map S (list_index x l')
  end.

(** The first three statements of [dfs]. *)
Definition dfs_enter (node : string) (s : dfs_state) : dfs_state :=
  {| visited := {[node]} ∪ visited s;
     stack := {[node]} ∪ stack s;
     path := path s ++ [node] |}.

(** [stack.remove(node); path.pop(); return None] *)
Definition dfs_leave (node : string) (s : dfs_state)
  : outcome (option (list string)) * dfs_state :=
  if decide (node ∈ stack s) then
    let s1 := {| visited := visited s; stack := stack s ∖ {[node]};
                 path := path s |} in
    match path s with
    | [] => (Exc IndexError, s1)
    | _ :: _ =>
        (Ret None, {| visited := visited s1; stack := stack s1;
                      path := removelast (path s1) |})
    end
  else (Exc KeyError, s).

(** The [for neighbor in ...] loop of [dfs], the recursive call being
    [rec]. *)
Fixpoint dfs_neighbors
    (rec : string -> dfs_state -> outcome (option (list string)) * dfs_state)
    (node : string) (ns : list string) (s : dfs_state)
  : outcome (option (list string)) * dfs_state :=
  match ns with
  | [] => dfs_leave node s
  | neighbor :: ns' =>
      if decide (neighbor ∉ visited s) then
        match rec neighbor s with
        | (Ret found, s') =>
            if truthy_list found then (Ret found, s')
            else dfs_neighbors rec node ns' s'
        | other => other
        end
      else if decide (neighbor ∈ stack s) then
        match list_index neighbor (path s) with
        | Some idx => (Ret (Some (drop idx (path s) ++ [neighbor])), s)
        | None => (Exc ValueError, s)
        end
      else dfs_neighbors rec node ns' s
  end.

(** [dfs], called when the interpreter allows [depth] more nested
    calls: with none left the call raises [RecursionError] before its
    body runs, and the calls that the body makes have one less. *)
Fixpoint dfs (g : graph) (depth : nat) (node : string) (s : dfs_state)
  : outcome (option (list string)) * dfs_state :=
  match depth with
  | O => (Exc RecursionError, s)
  | S depth' =>
      dfs_neighbors (dfs g depth') node (graph_get g node) (dfs_enter node s)
  end.

(** The final [for node in list(graph.keys())] loop. *)
Fixpoint find_cycle_from (g : graph) (depth : nat) (keys : list string)
    (s : dfs_state) : outcome (option (list string)) * dfs_state :=
  match keys with
  | [] => (Ret None, s)
  | node :: keys' =>
      if decide (node ∉ visited s) then
        match dfs g depth node s with
        | (Ret cycle, s') =>
            if truthy_list cycle then (Ret cycle, s')
            else find_cycle_from g depth keys' s'
        | other => other
        end
      else find_cycle_from g depth keys' s
  end.

(** Every node the search can reach: the keys and their successors. *)
Definition nodes (g : graph) : gset string :=
  list_to_set (graph_keys g) ∪ list_to_set (concat (map snd g)).

(** [_find_cycle], [depth] being the number of nested calls of [dfs]
    that the interpreter allows. *)
Definition _find_cycle (depth : nat) (g : graph)
  : outcome (option (list string)) :=
  fst (find_cycle_from g depth (graph_keys g)
         {| visited := ∅; stack := ∅; path := [] |}).

(** [graph.setdefault(key, set()).add(v)] *)
Definition set_add (v : string) (vs : list string) : list string :=
  if decide (v ∈ vs) then vs else vs ++ [v].

Fixpoint graph_add (g : graph) (key v : string) : graph :=
  match g with
  | [] => [(key, [v])]
  | (k, vs) :: g' =>
      if decide (k = key) then (k, set_add v vs) :: g'
      else (k, vs) :: graph_add g' key v
  end.

(** The body of the loop of [build_wait_for_graph] for the process object
    at position [i]. *)
Definition build_edge (i : nat) (g : graph) : M Store graph :=
  do process <- get_process i;
  if bool_decide (state process = BLOCKED)
     && truthy_str (current_request process) then
    match current_request process with
    | Some request =>
        do resource <- get_resource request;
        match held_by resource with
        | Some holder =>
            if truthy_str (Some holder)
               && negb (String.eqb holder (pid process))
            then ret (graph_add g (pid process) holder)
            else ret g
        | None => ret g
        end
    | None => ret g
    end
  else ret g.

Fixpoint build_loop (idxs : list nat) (g : graph) : M Store graph :=
  match idxs with
  | [] => ret g
  | i :: idxs' => do g' <- build_edge i g; build_loop idxs' g'
  end.

(** [DeadlockDetector.build_wait_for_graph] *)
Definition build_wait_for_graph : M Store graph :=
  do idxs <- process_indices;
  build_loop idxs [].

(** [[(u, v) for u, vs in graph.items() for v in vs]] *)
Definition graph_edges (g : graph) : list (string * string) :=
  flat_map (fun '(u, vs) => map (fun v => (u, v)) vs) g.

(** The outcome of a computation that has no access to the store. *)
Definition lift {S A} (o : outcome A) : M S A := fun s => (o, s).

(** [DeadlockDetector.detect_deadlock] *)
Definition detect_deadlock (depth : nat)
  : M Store (bool * list (string * string) * list string) :=
  do graph <- build_wait_for_graph;
  let edges := graph_edges graph in
  do cycle <- lift (_find_cycle depth graph);
  ret (bool_decide (cycle <> None), edges,
       if truthy_list cycle then default [] cycle else []).

End Detector.

(** ** lock_manager.py *)

Module LockManager.

(** [LockManager.request(process, resource_id, t)], the process object
    being the one at position [i]. *)
Definition request (i : nat) (resource_id : string) : M Store bool :=
  do resource <- get_resource resource_id;
  do process <- get_process i;
  match held_by resource with
  | None =>
      do_ set_resource resource_id (set_held_by (Some (pid process)) resource);
      do_ set_process i
            (set_current_request None
               (set_state RUNNING
                  (set_held_resources
                     ({[resource_id]} ∪ held_resources process) process)));
      ret true
  | Some holder =>
      if decide (holder = pid process) then ret true
      else
        do_ set_process i (mark_blocked resource_id process);
        ret false
  end.

(** The body of the loop of [release_all]. *)
Definition release_one (i : nat) (res_id : string) : M Store unit :=
  do resource <- get_resource res_id;
  do process <- get_process i;
  if decide (held_by resource = Some (pid process))
  then set_resource res_id (set_held_by None resource)
  else ret tt.

(** [LockManager.release_all(process, t)] *)
Definition release_all (i : nat) : M Store unit :=
  do process <- get_process i;
  do_ for_each (elements (held_resources process)) (release_one i);
  do process <- get_process i;
  set_process i
    (set_state FINISHED
       (set_current_request None (set_held_resources ∅ process))).

End LockManager.

(** ** simulator.py *)

Module Simulator.

(** [{r.rid: r for r in resources}]: a later resource replaces an earlier
    one of the same [rid]. *)
Definition resources_dict (rs : list Resource) : gmap string Resource :=
  foldl (fun m r => <[rid r := r]> m) ∅ rs.

(** The store set up by [Simulator.__init__]. *)
Definition init (ps : list Process) (rs : list Resource) : Store :=
  {| processes := ps; resources := resources_dict rs |}.

Section WithMetrics.

(** [MetricsCollector] (module [metrics] of the package) is outside the
    sources at hand; its methods are taken to return.  Its
    [record_completion] and [record_deadlock] take no argument and are
    dropped, as is the final [summary], which is only printed;
    [record_step] receives the list of process objects and is the
    parameter below, acting on them. *)
Variable record_step : list Process -> list Process.

(** [Simulator._complete_process] *)
Definition _complete_process (i : nat) : M Store unit :=
  LockManager.release_all i.

(** The body of the first loop of [step]. *)
Definition step_process (ordered_mode : bool) (i : nat) : M Store unit :=
  do process <- get_process i;
  if bool_decide (state process ∈ [DEADLOCKED; FINISHED]) then ret tt
  else if bool_decide (state process = BLOCKED)
          && truthy_str (current_request process) then
    match current_request process with
    | Some r => do_ LockManager.request i r; ret tt
    | None => ret tt
    end
  else if decide (state process = RUNNING) then
    if has_all_resources process then _complete_process i
    else
      let target := next_request process ordered_mode in
      if truthy_str target then
        match target with
        | Some r => do_ LockManager.request i r; ret tt
        | None => ret tt
        end
      else ret tt
  else ret tt.

(** The body of the second loop of [step]. *)
Definition step_complete (i : nat) : M Store unit :=
  do process <- get_process i;
  if bool_decide (state process = RUNNING) && has_all_resources process
  then _complete_process i
  else ret tt.

(** [Simulator._process_by_id]: the position of the first process object
    with that [pid]. *)
Fixpoint find_pid (p : string) (ps : list Process) : option nat :=
  match ps with
  | [] => None
  | q :: ps' => if decide (pid q = p) then Some 0%nat
                else option_map S (find_pid p ps')
  end.

Definition _process_by_id (p : string) : M Store (option nat) :=
  fun s => (Ret (find_pid p (processes s)), s).

(** [for pid in cycle: proc = self._process_by_id(pid); if proc: ...] *)
Definition mark_cycle (cycle : list string) : M Store unit :=
  for_each cycle (fun p =>
    do proc <- _process_by_id p;
    match proc with
    | Some i => do process <- get_process i;
                set_process i (mark_deadlocked process)
    | None => ret tt
    end).

(** The two loops of [step] that precede the detection. *)
Definition step_sweeps (ordered_mode : bool) : M Store unit :=
  do idxs <- process_indices;
  do_ for_each idxs (step_process ordered_mode);
  do idxs <- process_indices;
  for_each idxs step_complete.

(** [Simulator.step(t)]; [t] is only printed, and [depth] is the depth
    left to the [dfs] of the detector. *)
Definition step (depth : nat) (mode : string) (t : Z) : M Store bool :=
  do_ step_sweeps (String.eqb mode "ordered");
  do det <- Detector.detect_deadlock depth;
  let '(deadlock, edges, cycle) := det in
  if deadlock : bool then
    do_ mark_cycle cycle;
    ret true
  else ret false.

(** [all(p.state == ProcessState.FINISHED for p in self.processes)] *)
Definition all_finished (s : Store) : bool :=
  forallb (fun p => bool_decide (state p = FINISHED)) (processes s).

Definition do_record_step : M Store unit :=
  modify (fun s => {| processes := record_step (processes s);
                      resources := resources s |}).

(** The loop of [run] over the [n] values of [range] that start at [t];
    [k] counts the calls of [step] made so far.  The result is the final
    [deadlock_found] and the number of calls of [step]. *)
Fixpoint run_loop (depth : nat) (mode : string) (n : nat) (t : Z) (k : nat)
    (deadlock_found : bool) : M Store (bool * nat) :=
  match n with
  | O => ret (deadlock_found, k)
  | S n' =>
      fun s =>
        match step depth mode t s with
        | (Ret deadlock_found', s1) =>
            let s2 := snd (do_record_step s1) in
            if deadlock_found' then (Ret (deadlock_found', S k), s2)
            else if all_finished s2 then (Ret (deadlock_found', S k), s2)
            else run_loop depth mode n' (t + 1) (S k) deadlock_found' s2
        | (Exc e, s1) => (Exc e, s1)
        | (NoFuel, s1) => (NoFuel, s1)
        end
  end.

(** [Simulator.run].  [range(max_steps)] has [max(0, max_steps)] values. *)
Definition run (depth : nat) (mode : string) (max_steps : Z)
  : M Store (bool * nat) :=
  run_loop depth mode (Z.to_nat max_steps) 0 0%nat false.

End WithMetrics.

End Simulator.


(** ** core/worker.py *)

Module Worker.

Local Open Scope Q_scope.

(** The dictionary put on the metrics queue by [record_end]. *)
Record Metrics : Type := mkMetrics {
  metric_name : string;
  metric_status : string;
  metric_retries : Z;
  metric_duration : option Q;
  metric_wait_time : Q;
}.

(** Python's [round(x, 3)]: to the nearest multiple of 1/1000, ties to
    the even one.  Time stamps and durations are exact rationals here. *)
Definition round_half_even (x : Q) : Z :=
  let f := Qfloor x in
  match Qcompare (x - inject_Z f) (1 # 2) with
  | Lt => f
  | Gt => (f + 1)%Z
  | Eq => if Z.even f then f else (f + 1)%Z
  end.

Definition round3 (x : Q) : Q := inject_Z (round_half_even (x * 1000)) / 1000.

(** Python's [max(0.0, amount)] *)
Definition max0 (amount : Q) : Q :=
  if Qlt_le_dec 0 amount then amount else 0.

(** The attributes set by [Worker.__init__].  A lock object is named by
    a number. *)
Record Worker : Type := mkWorker {
  name : string;
  locks : list nat;
  lock_labels : list string;
  hold_time : Q;
  metrics_queue : option (list Metrics);
  started_at : option Q;
  retries : Z;
  wait_time : Q;
}.

(** [Worker.__init__] *)
Definition Worker_init (name : string) (locks : list nat)
    (lock_labels : list string) (hold_time : Q)
    (metrics_queue : option (list Metrics)) : Worker :=
  {| name := name; locks := locks; lock_labels := lock_labels;
     hold_time := hold_time; metrics_queue := metrics_queue;
     started_at := None; retries := 0; wait_time := 0 |}.

(** What the worker calls outside itself, in the order of the calls. *)
Inductive event : Type :=
| CallAcquire (lock : nat)
| CallRelease (lock : nat)
| CallSleep (seconds : Q).

(** The answer of a lock to [acquire]. *)
Inductive acquire_answer : Type :=
| Acquired      (* returns [True] *)
| TimedOut      (* with a timeout, returns [False]; without, never returns *)
| AcquireFails. (* raises *)

(** The world around a worker: what the clock and the locks answer to
    the successive calls. *)
Record Env : Type := mkEnv {
  clock : nat -> Q;
  acquire_answers : nat -> acquire_answer;
  release_fails : nat -> bool;
}.

(** The number of calls answered so far, and the calls made. *)
Record Sys : Type := mkSys {
  clock_calls : nat;
  acquire_calls : nat;
  release_calls : nat;
  trace : list event;
}.

Definition Sys_init : Sys :=
  {| clock_calls := 0; acquire_calls := 0; release_calls := 0; trace := [] |}.

(** The state of a running worker: its attributes, those of its
    subclass, the world, and the local list [acquired] of [run]. *)
Record State (Ext : Type) : Type := mkState {
  self : Worker;
  ext : Ext;
  sys : Sys;
  acquired : list nat;
}.
Arguments mkState {Ext}.
Arguments self {Ext}.
Arguments ext {Ext}.
Arguments sys {Ext}.
Arguments acquired {Ext}.

Section Methods.
Context {Ext : Type}.
Variable env : Env.

Definition set_self (w : Worker) (s : State Ext) : State Ext :=
  mkState w (ext s) (sys s) (acquired s).
Definition set_ext (x : Ext) (s : State Ext) : State Ext :=
  mkState (self s) x (sys s) (acquired s).
Definition set_sys (y : Sys) (s : State Ext) : State Ext :=
  mkState (self s) (ext s) y (acquired s).
Definition set_acquired (a : list nat) (s : State Ext) : State Ext :=
  mkState (self s) (ext s) (sys s) a.

Definition log_call (e : event) (s : State Ext) : State Ext :=
  set_sys {| clock_calls := clock_calls (sys s);
             acquire_calls := acquire_calls (sys s);
             release_calls := release_calls (sys s);
             trace := trace (sys s) ++ [e] |} s.

(** [time.time()] *)
Definition time_time : M (State Ext) Q :=
  fun s =>
    (Ret (clock env (clock_calls (sys s))),
     set_sys {| clock_calls := S (clock_calls (sys s));
                acquire_calls := acquire_calls (sys s);
                release_calls := release_calls (sys s);
                trace := trace (sys s) |} s).

(** [time.sleep(seconds)]: raises [ValueError] on a negative length. *)
Definition time_sleep (seconds : Q) : M (State Ext) unit :=
  fun s =>
    let s' := log_call (CallSleep seconds) s in
    if Qlt_le_dec seconds 0 then (Exc ValueError, s') else (Ret tt, s').

Definition next_acquire (lock : nat) (s : State Ext)
  : acquire_answer * State Ext :=
  (acquire_answers env (acquire_calls (sys s)),
   log_call (CallAcquire lock)
     (set_sys {| clock_calls := clock_calls (sys s);
                 acquire_calls := S (acquire_calls (sys s));
                 release_calls := release_calls (sys s);
                 trace := trace (sys s) |} s)).

(** [lock.acquire()] *)
Definition lock_acquire (lock : nat) : M (State Ext) bool :=
  fun s =>
    match next_acquire lock s with
    | (Acquired, s') => (Ret true, s')
    | (TimedOut, s') => (NoFuel, s')
    | (AcquireFails, s') => (Exc OtherError, s')
    end.

(** [lock.acquire(timeout=...)] *)
Definition lock_acquire_timeout (lock : nat) (timeout : Q)
  : M (State Ext) bool :=
  fun s =>
    match next_acquire lock s with
    | (Acquired, s') => (Ret true, s')
    | (TimedOut, s') => (Ret false, s')
    | (AcquireFails, s') => (Exc OtherError, s')
    end.

(** [lock.release()] *)
Definition lock_release (lock : nat) : M (State Ext) unit :=
  fun s =>
    let s' :=
      log_call (CallRelease lock)
        (set_sys {| clock_calls := clock_calls (sys s);
                    acquire_calls := acquire_calls (sys s);
                    release_calls := S (release_calls (sys s));
                    trace := trace (sys s) |} s) in
    if release_fails env (release_calls (sys s))
    then (Exc OtherError, s') else (Ret tt, s').

(** [self.locks[idx]] *)
Definition lock_at (idx : nat) : M (State Ext) nat :=
  fun s => match locks (self s) !! idx with
           | Some lock => (Ret lock, s)
           | None => (Exc IndexError, s)
           end.

(** [try: m except Exception: pass] *)
Definition ignoring_errors (m : M (State Ext) unit) : M (State Ext) unit :=
  fun s => match m s with
           | (Exc _, s') => (Ret tt, s')
           | other => other
           end.

(** [try: body except Exception: handler; raise] *)
Definition try_except {A} (body : M (State Ext) A)
    (handler : M (State Ext) unit) : M (State Ext) A :=
  fun s => match body s with
           | (Exc e, s') =>
               match handler s' with
               | (Ret _, s'') => (Exc e, s'')
               | (Exc e', s'') => (Exc e', s'')
               | (NoFuel, s'') => (NoFuel, s'')
               end
           | other => other
           end.

(** [try: body finally: final] *)
Definition try_finally {A} (body : M (State Ext) A)
    (final : M (State Ext) unit) : M (State Ext) A :=
  fun s => match body s with
           | (NoFuel, s') => (NoFuel, s')
           | (r, s') =>
               match final s' with
               | (Ret _, s'') => (r, s'')
               | (Exc e', s'') => (Exc e', s'')
               | (NoFuel, s'') => (NoFuel, s'')
               end
           end.

(** [Worker.record_start] *)
Definition record_start : M (State Ext) unit :=
  do t <- time_time;
  modify (fun s =>
    set_self {| name := name (self s); locks := locks (self s);
                lock_labels := lock_labels (self s);
                hold_time := hold_time (self s);
                metrics_queue := metrics_queue (self s);
                started_at := Some t;
                retries := retries (self s);
                wait_time := wait_time (self s) |} s).

(** [metrics_queue.put(payload)] *)
Definition queue_put (payload : Metrics) (s : State Ext) : State Ext :=
  set_self {| name := name (self s); locks := locks (self s);
              lock_labels := lock_labels (self s);
              hold_time := hold_time (self s);
              metrics_queue :=
                option_map (fun q => q ++ [payload]) (metrics_queue (self s));
              started_at := started_at (self s);
              retries := retries (self s);
              wait_time := wait_time (self s) |} s.

(** [Worker.record_end].  A time stamp is truthy when it is not [0.0]. *)
Definition record_end (status : string) : M (State Ext) unit :=
  do s <- get;
  match metrics_queue (self s) with
  | None => ret tt
  | Some _ =>
      do ended_at <- time_time;
      let duration :=
        match started_at (self s) with
        | Some t0 => if Qeq_bool t0 0 then None
                     else Some (round3 (ended_at - t0))
        | None => None
        end in
      let payload :=
        {| metric_name := name (self s);
           metric_status := status;
           metric_retries := retries (self s);
           metric_duration := duration;
           metric_wait_time := round3 (wait_time (self s)) |} in
      modify (queue_put payload)
  end.

(** [Worker.increment_retry] *)
Definition increment_retry : M (State Ext) unit :=
  modify (fun s =>
    set_self {| name := name (self s); locks := locks (self s);
                lock_labels := lock_labels (self s);
                hold_time := hold_time (self s);
                metrics_queue := metrics_queue (self s);
                started_at := started_at (self s);
                retries := (retries (self s) + 1)%Z;
                wait_time := wait_time (self s) |} s).

(** [Worker.add_wait_time] *)
Definition add_wait_time (amount : Q) : M (State Ext) unit :=
  modify (fun s =>
    set_self {| name := name (self s); locks := locks (self s);
                lock_labels := lock_labels (self s);
                hold_time := hold_time (self s);
                metrics_queue := metrics_queue (self s);
                started_at := started_at (self s);
                retries := retries (self s);
                wait_time := wait_time (self s) + max0 amount |} s).

(** [enumerate(zip(self.locks, self.lock_labels))], the labels being
    only logged. *)
Definition enumerated_locks (w : Worker) : list (nat * nat) :=
  zip (seq 0 (length (locks w))) (fst <$> zip (locks w) (lock_labels w)).

(** [for idx in reversed(acquired): self.locks[idx].release()] *)
Definition release_acquired : M (State Ext) unit :=
  do s <- get;
  for_each (rev (acquired s)) (fun idx =>
    do lock <- lock_at idx;
    lock_release lock).

(** [for idx in reversed(acquired): try: self.locks[idx].release()
    except Exception: pass] *)
Definition release_acquired_quietly : M (State Ext) unit :=
  do s <- get;
  for_each (rev (acquired s)) (fun idx =>
    ignoring_errors (do lock <- lock_at idx; lock_release lock)).

End Methods.

(** *** NaiveWorker *)

Module NaiveWorker.

Section Run.
Variable env : Env.

(** The body of the first loop of [run]. *)
Definition acquire_one (item : nat * nat) : M (State unit) unit :=
  let '(idx, lock) := item in
  do wait_start <- time_time env;
  do _g <- lock_acquire env lock;
  do t <- time_time env;
  do_ add_wait_time (t - wait_start);
  do_ modify (fun s => set_acquired (acquired s ++ [idx]) s);
  do s <- get;
  time_sleep (hold_time (self s)).

(** [NaiveWorker.run] *)
Definition run : M (State unit) unit :=
  do_ record_start env;
  do_ modify (set_acquired []);
  try_finally
    (try_except
       (do s <- get;
        do_ for_each (enumerated_locks (self s)) acquire_one;
        do_ release_acquired env;
        do_ modify (set_acquired []);
        record_end env "ok")
       (record_end env "erro"))
    (release_acquired_quietly env).

End Run.

End NaiveWorker.

(** *** The pseudo-random generator

    [random.Random] is Python's library class.  Its state, its seeding
    by a string and its two primitive draws are parameters; [uniform],
    [randrange] and [randint] are defined from them as the library does. *)

Record Random : Type := mkRandom {
  rng_state : Type;
  rng_seed : string -> rng_state;
  (** [random()], a number of [[0, 1)] *)
  rng_random : rng_state -> Q * rng_state;
  (** [_randbelow(n)], a number of [[0, n)] for a positive [n] *)
  rng_randbelow : Z -> rng_state -> Z * rng_state;
}.

(** What the library guarantees of the two primitive draws. *)
Definition Random_ok (R : Random) : Prop :=
  (forall r, 0 <= fst (rng_random R r) /\ fst (rng_random R r) < 1)
  /\ (forall n r, (0 < n)%Z ->
        (0 <= fst (rng_randbelow R n r) < n)%Z).

Section Draws.
Variable R : Random.

(** [uniform(a, b)]: [a + (b - a) * self.random()] *)
Definition uniform (a b : Q) (r : rng_state R) : Q * rng_state R :=
  let '(x, r') := rng_random R r in (a + (b - a) * x, r').

(** [randrange(n)] *)
Definition randrange (n : Z) : M (rng_state R) Z :=
  fun r =>
    if (0 <? n)%Z then
      let '(x, r') := rng_randbelow R n r in (Ret x, r')
    else (Exc ValueError, r).

(** [randint(a, b)]: [randrange(a, b + 1)] *)
Definition randint (a b : Z) : M (rng_state R) Z :=
  fun r =>
    let width := (b + 1 - a)%Z in
    if (0 <? width)%Z then
      let '(x, r') := rng_randbelow R width r in (Ret (a + x)%Z, r')
    else (Exc ValueError, r).

End Draws.

(** *** RetryWorker *)

Module RetryWorker.

Section Run.
Variable R : Random.
Variable env : Env.

(** The attributes added by [RetryWorker.__init__]. *)
Record Retry : Type := mkRetry {
  try_timeout : Q;
  _rng : rng_state R;
}.

(** [RetryWorker.__init__], and the world at the start. *)
Definition init (name : string) (locks : list nat)
    (lock_labels : list string) (hold_time try_timeout : Q)
    (metrics_queue : option (list Metrics)) : State Retry :=
  mkState (Worker_init name locks lock_labels hold_time metrics_queue)
          {| try_timeout := try_timeout; _rng := rng_seed R name |}
          Sys_init [].

(** The [for] loop of an iteration of [run]; the result is the final
    value of [failed]. *)
Fixpoint attempt (items : list (nat * nat)) : M (State Retry) bool :=
  match items with
  | [] => ret false
  | (idx, lock) :: items' =>
      do s <- get;
      do wait_start <- time_time env;
      do got <- lock_acquire_timeout env lock (try_timeout (ext s));
      do t <- time_time env;
      do_ add_wait_time (t - wait_start);
      if negb got then
        do_ increment_retry;
        ret true
      else
        do_ modify (fun s => set_acquired (acquired s ++ [idx]) s);
        do_ time_sleep (hold_time (self s));
        attempt items'
  end.

(** The backoff that ends an iteration that did not complete. *)
Definition backoff : M (State Retry) unit :=
  do_ release_acquired_quietly env;
  do s <- get;
  let '(u, r') := uniform R 0 (hold_time (self s) / 2) (_rng (ext s)) in
  do_ modify (set_ext {| try_timeout := try_timeout (ext s); _rng := r' |});
  let sleep_for := hold_time (self s) / 2 + u in
  do start_sleep <- time_time env;
  do_ time_sleep sleep_for;
  do t <- time_time env;
  add_wait_time (t - start_sleep).

(** One iteration of the [while True] loop; the result tells whether the
    loop is left by [break]. *)
Definition iteration : M (State Retry) bool :=
  do_ modify (set_acquired []);
  do s <- get;
  do failed <- attempt (enumerated_locks (self s));
  do s <- get;
  if negb failed && (length (acquired s) =? length (locks (self s)))%nat then
    do_ time_sleep (hold_time (self s));
    do_ release_acquired env;
    do_ record_end env "ok";
    ret true
  else
    do_ backoff;
    ret false.

(** The loop, bounded by [fuel] iterations. *)
Fixpoint loop (fuel : nat) : M (State Retry) unit :=
  match fuel with
  | O => fun s => (NoFuel, s)
  | S fuel' =>
      do done <- iteration;
      if done : bool then ret tt else loop fuel'
  end.

(** [RetryWorker.run] *)
Definition run (fuel : nat) : M (State Retry) unit :=
  do_ record_start env;
  try_except (loop fuel) (record_end env "erro").

End Run.

End RetryWorker.

(** *** BankerWorker *)

Module BankerWorker.

Section BuildRequest.
Variable R : Random.

(** The first loop of [_build_request]. *)
Fixpoint draw_request (remaining : list Z) : M (rng_state R) (list Z) :=
  match remaining with
  | [] => ret []
  | need :: remaining' =>
      if (need <=? 0)%Z then
        do request <- draw_request remaining';
        ret (0%Z :: request)
      else
        do x <- randint R 1 need;
        do request <- draw_request remaining';
        ret (x :: request)
  end.

(** [request[idx] = 1] *)
Definition assign_one (request : list Z) (idx : Z)
  : M (rng_state R) (list Z) :=
  if ((0 <=? idx) && (idx <? Z.of_nat (length request)))%Z
  then ret (<[Z.to_nat idx := 1%Z]> request)
  else raise IndexError.

(** [BankerWorker._build_request], on the state of [self._rng]. *)
Definition _build_request (remaining : list Z) : M (rng_state R) (list Z) :=
  do request <- draw_request remaining;
  if forallb (fun value => (value =? 0)%Z) request then
    do idx <- randrange R (Z.of_nat (length remaining));
    assign_one request idx
  else ret request.

End BuildRequest.

End BankerWorker.

(** A linear congruential generator, to run the definitions above. *)
Definition lcg_next (r : Z) : Z := ((1103515245 * r + 12345) mod 2147483648)%Z.

Definition lcg : Random :=
  {| rng_state := Z;
     rng_seed := fun name => Z.of_nat (String.length name);
     rng_random := fun r => (lcg_next r # 2147483648, lcg_next r);
     rng_randbelow := fun n r => ((lcg_next r mod n)%Z, lcg_next r) |}.

End Worker.

(** ** scenarios.py *)

Module Scenarios.

(** [f"{prefix}{i + 1}"] for a value [i] of a [range]. *)
Definition numbered (prefix : string) (i : nat) : string :=
  prefix +:+ pretty (S i).

(** [make_resources]; the [range] of a negative number is empty. *)
Definition make_resources (num_resources : Z) : list Resource :=
  (fun i => {| rid := numbered "R" i; held_by := None |})
    <$> seq 0 (Z.to_nat num_resources).

(** [Process(pid=..., plan=...)], the other fields at their defaults. *)
Definition new_process (pid : string) (plan : list string) : Process :=
  {| pid := pid; plan := plan; held_resources := ∅;
     current_request := None; state := RUNNING; waiting_steps := 0 |}.

(** [demo_scenario] *)
Definition demo_scenario : list Process * list Resource :=
  ([ new_process "P1" ["R1"; "R2"];
     new_process "P2" ["R2"; "R1"];
     new_process "P3" ["R1"] ],
   make_resources 2).

(** The generator behind the functions of module [random]: its state,
    what [seed] makes of it, and the choice of [sample] for a population
    and a size within it. *)
Record Sampler : Type := mkSampler {
  sam_state : Type;
  sam_seed : option Z -> sam_state;
  sam_choose : list string -> nat -> sam_state -> list string * sam_state;
}.

(** What the library guarantees of [sample]: as many elements as asked
    for, taken from the population at distinct positions. *)
Definition Sampler_ok (G : Sampler) : Prop :=
  forall population k r,
    (k <= length population)%nat ->
    let l := fst (sam_choose G population k r) in
    length l = k
    /\ (forall x, x ∈ l -> x ∈ population)
    /\ (NoDup population -> NoDup l).

Section Build.
Variable G : Sampler.

(** [random.seed(a)] *)
Definition random_seed (a : option Z) : M (sam_state G) unit :=
  put (sam_seed G a).

(** [random.sample(population, k=k)]: [ValueError] when the sample is
    larger than the population or negative. *)
Definition random_sample (population : list string) (k : Z)
  : M (sam_state G) (list string) :=
  fun r =>
    if ((0 <=? k) && (k <=? Z.of_nat (length population)))%Z then
      let '(l, r') := sam_choose G population (Z.to_nat k) r in (Ret l, r')
    else (Exc ValueError, r).

(** [x or default] on an [Optional[int]]: [None] and [0] are falsy. *)
Definition or_int (x : option Z) (default : Z) : Z :=
  match x with
  | Some n => if (n =? 0)%Z then default else n
  | None => default
  end.

(** The loop [for i in range(num_processes)]. *)
Fixpoint build_processes (idxs : list nat) (num_resources : Z)
    (res_ids : list string) (processes : list Process)
  : M (sam_state G) (list Process) :=
  match idxs with
  | [] => ret processes
  | i :: idxs' =>
      let need_count := if (2 <=? num_resources)%Z then 2%Z else 1%Z in
      do plan <- random_sample res_ids
                   (Z.min need_count (Z.of_nat (length res_ids)));
      build_processes idxs' num_resources res_ids
        (processes ++ [new_process (numbered "P" i) plan])
  end.

(** [build_processes_and_resources] *)
Definition build_processes_and_resources
    (num_processes num_resources : option Z) (scenario : option string)
    (demo : bool) (seed : Z)
  : M (sam_state G) (list Process * list Resource) :=
  if demo then
    (do_ random_seed (Some seed); ret demo_scenario)
  else
    let '(num_processes, num_resources) :=
      if decide (scenario = Some "low") then
        (or_int num_processes 3, or_int num_resources 10)
      else if decide (scenario = Some "high") then
        (or_int num_processes 10, or_int num_resources 3)
      else (or_int num_processes 5, or_int num_resources 5) in
    let resources := make_resources num_resources in
    let res_ids := rid <$> resources in
    (do_ random_seed (if truthy_str scenario then Some seed else None);
     do processes <- build_processes (seq 0 (Z.to_nat num_processes))
                       num_resources res_ids [];
     ret (processes, resources)).

End Build.

End Scenarios.

(** ** core/scenario.py *)

Module Scenario.

(** [string.ascii_uppercase] *)
Definition ascii_uppercase : string := "ABCDEFGHIJKLMNOPQRSTUVWXYZ".

(** The label that one turn of the loop of [generate_labels] appends;
    indexing the alphabet out of range would raise [IndexError]. *)
Definition generate_label (idx : nat) : outcome string :=
  let alphabet := ascii_uppercase in
  match String.get (idx mod String.length alphabet) alphabet with
  | Some letter =>
      let suffix := (idx / String.length alphabet)%nat in
      if (suffix =? 0)%nat then Ret ("Recurso " +:+ String letter "")
      else Ret ("Recurso " +:+ String letter (pretty (suffix + 1)%nat))
  | None => Exc IndexError
  end.

Fixpoint labels_loop (idxs : list nat) (labels : list string)
  : outcome (list string) :=
  match idxs with
  | [] => Ret labels
  | idx :: idxs' =>
      match generate_label idx with
      | Ret label => labels_loop idxs' (labels ++ [label])
      | Exc e => Exc e
      | NoFuel => NoFuel
      end
  end.

(** [Scenario.generate_labels] *)
Definition generate_labels (count : Z) : outcome (list string) :=
  labels_loop (seq 0 (Z.to_nat count)) [].

(** The attributes of a [BankerScenario] that [_build_claims] reads, and
    the pool handed to the banker. *)
Record BankerScenario : Type := mkBankerScenario {
  workers : Z;
  resource_count : Z;
  resource_units : Z;
  resource_pool : list Z;
}.

(** [BankerScenario.__init__] *)
Definition BankerScenario_init (workers resource_count resource_units : Z)
  : BankerScenario :=
  let resource_count := Z.max 1 resource_count in
  let resource_units := Z.max 1 resource_units in
  {| workers := workers;
     resource_count := resource_count;
     resource_units := resource_units;
     resource_pool := repeat resource_units (Z.to_nat resource_count) |}.

Section Claims.
Variable R : Worker.Random.

(** [random.Random(self.workers)]: the state of a generator seeded by an
    integer. *)
Variable seed_int : Z -> Worker.rng_state R.

(** The inner loop of [_build_claims], over [n] resource classes. *)
Fixpoint build_claim (n : nat) (resource_units : Z)
  : M (Worker.rng_state R) (list Z) :=
  match n with
  | O => ret []
  | S n' =>
      let max_need := Z.max 1 resource_units in
      do need <- Worker.randint R 1 max_need;
      do claim <- build_claim n' resource_units;
      ret (need :: claim)
  end.

(** The outer loop, over [n] workers. *)
Fixpoint build_claims_loop (n : nat) (self : BankerScenario)
  : M (Worker.rng_state R) (list (list Z)) :=
  match n with
  | O => ret []
  | S n' =>
      do claim <- build_claim (Z.to_nat (resource_count self))
                    (resource_units self);
      do claims <- build_claims_loop n' self;
      ret (claim :: claims)
  end.

(** [BankerScenario._build_claims] *)
Definition _build_claims (self : BankerScenario) : outcome (list (list Z)) :=
  fst (build_claims_loop (Z.to_nat (workers self)) self
         (seed_int (workers self))).

End Claims.

End Scenario.

(** * Inputs of the examples, and the document's wording of two properties *)

(** The graph of the detector's unit test: [A -> B -> C -> A] and
    [D -> B]. *)
Definition unit_test_graph : Detector.graph :=
  [("A", ["B"]); ("B", ["C"]); ("C", ["A"]); ("D", ["B"])].

(** The recursion limit of the interpreter when it is not changed,
    [sys.getrecursionlimit()]; the frames of the callers count against
    it, so the depth left to [dfs] is below it. *)
Definition default_limit : nat := 1000.

(** A ring of [n] nodes, [P0 -> P1 -> ... -> P0]. *)
Definition ring_node (i : nat) : string := "P" +:+ pretty i.

Definition ring (n : nat) : Detector.graph :=
  (fun i => (ring_node i, [ring_node (S i mod n)])) <$> seq 0 n.

(** The edges of the wait-for graph as the design document words them:
    no condition on the identifiers beyond [q <> p]. *)
Definition waits_for_as_worded (st : Store) (p q : string) : Prop :=
  exists i proc r res,
    processes st !! i = Some proc /\ pid proc = p
    /\ state proc = BLOCKED
    /\ current_request proc = Some r
    /\ resources st !! r = Some res
    /\ held_by res = Some q /\ q <> p.

(** A process blocked on a resource that the process of empty [pid]
    holds. *)
Definition empty_holder_store : Store :=
  {| processes :=
       [ {| pid := "P1"; plan := ["R1"]; held_resources := ∅;
            current_request := Some "R1"; state := BLOCKED;
            waiting_steps := 0 |};
         {| pid := ""; plan := ["R1"]; held_resources := {["R1"]};
            current_request := None; state := RUNNING;
            waiting_steps := 0 |} ];
     resources := {["R1" := {| rid := "R1"; held_by := Some "" |}]} |}.

(** A process that holds [R1] and still wants [R3] and [R2]. *)
Definition wants_two : Process :=
  {| pid := "P1"; plan := ["R1"; "R3"; "R2"]; held_resources := {["R1"]};
     current_request := None; state := RUNNING; waiting_steps := 0 |}.

(** Two processes that compete for one free resource. *)
Definition two_for_one : Store :=
  {| processes :=
       [ {| pid := "P1"; plan := ["R1"]; held_resources := ∅;
            current_request := None; state := RUNNING;
            waiting_steps := 0 |};
         {| pid := "P2"; plan := ["R1"]; held_resources := ∅;
            current_request := None; state := RUNNING;
            waiting_steps := 0 |} ];
     resources := {["R1" := {| rid := "R1"; held_by := None |}]} |}.

(** What the design document says of [run]: it returns after at most
    [max_steps] steps, having met a deadlock, or all processes
    [FINISHED], or the bound. *)
Definition run_stops_as_worded (record_step : list Process -> list Process)
    (depth : nat) (mode : string) (max_steps : Z) (st : Store) : Prop :=
  exists deadlock_found steps st',
    Simulator.run record_step depth mode max_steps st
    = (Ret (deadlock_found, steps), st')
    /\ (Z.of_nat steps <= max_steps)%Z
    /\ (deadlock_found = true \/ Simulator.all_finished st' = true
        \/ Z.of_nat steps = max_steps).

(** A process whose plan names a resource that does not exist. *)
Definition unknown_resource_store : Store :=
  {| processes :=
       [ {| pid := "P1"; plan := ["X"]; held_resources := ∅;
            current_request := None; state := RUNNING;
            waiting_steps := 0 |} ];
     resources := ∅ |}.

(** A world whose first lock raises when it is acquired. *)
Definition failing_lock_env : Worker.Env :=
  {| Worker.clock := fun n => inject_Z (Z.of_nat n);
     Worker.acquire_answers := fun _ => Worker.AcquireFails;
     Worker.release_fails := fun _ => false |}.

(** A world where the first lock is free and the second one is busy. *)
Definition second_lock_busy : Worker.Env :=
  {| Worker.clock := fun n => inject_Z (Z.of_nat n);
     Worker.acquire_answers :=
       fun n => match n with
                | O => Worker.Acquired
                | S _ => Worker.TimedOut
                end;
     Worker.release_fails := fun _ => false |}.


(** * Properties of the process model *)

Module ModelsFacts.

Lemma ascii_compare_cases (a b c : Ascii.ascii) :
  match Ascii.compare a b, Ascii.compare b c with
  | Eq, x => Ascii.compare a c = x
  | x, Eq => Ascii.compare a c = x
  | Lt, Lt => Ascii.compare a c = Lt
  | Gt, Gt => Ascii.compare a c = Gt
  | _, _ => True
  end.
Proof.
  unfold Ascii.compare.
  destruct (N.compare_spec (Ascii.N_of_ascii a) (Ascii.N_of_ascii b)) as [H1|H1|H1];
  destruct (N.compare_spec (Ascii.N_of_ascii b) (Ascii.N_of_ascii c)) as [H2|H2|H2];
    try done.
  - by rewrite H1, H2, N.compare_refl.
  - rewrite H1. by apply N.compare_lt_iff.
  - rewrite H1. by apply N.compare_gt_iff.
  - rewrite <- H2. by apply N.compare_lt_iff.
  - apply N.compare_lt_iff. lia.
  - rewrite <- H2. by apply N.compare_gt_iff.
  - apply N.compare_gt_iff. lia.
Qed.

Lemma string_compare_trans (a : string) :
  forall b c,
    String.compare a b <> Gt -> String.compare b c <> Gt ->
    String.compare a c <> Gt.
Proof.
  induction a as [|x a IH]; intros [|y b] [|z c]; simpl; try done.
  pose proof (ascii_compare_cases x y z) as H.
  destruct (Ascii.compare x y) eqn:Hxy, (Ascii.compare y z) eqn:Hyz;
    try done; rewrite H; try done.
  apply IH.
Qed.

Lemma leb_trans a b c :
  String.leb a b = true -> String.leb b c = true -> String.leb a c = true.
Proof.
  unfold String.leb. intros Hab Hbc.
  pose proof (string_compare_trans a b c) as H.
  destruct (String.compare a b), (String.compare b c),
    (String.compare a c); try done; exfalso; by apply H.
Qed.

Lemma leb_refl a : String.leb a a = true.
Proof. by destruct (String.leb_total a a). Qed.

Lemma sorted_insert_elem x l y :
  y ∈ sorted_insert x l <-> y = x \/ y ∈ l.
Proof.
  induction l as [|z l IH]; simpl.
  - rewrite list_elem_of_singleton, elem_of_nil. tauto.
  - destruct (String.leb x z).
    + by rewrite elem_of_cons.
    + rewrite !elem_of_cons, IH. tauto.
Qed.

Lemma sorted_elem l y : y ∈ sorted l <-> y ∈ l.
Proof.
  induction l as [|x l IH]; simpl; [done|].
  by rewrite sorted_insert_elem, elem_of_cons, IH.
Qed.

(** The first element of [l] is below every element of [l]. *)
Definition head_least (l : list string) : Prop :=
  forall m, head l = Some m -> forall y, y ∈ l -> String.leb m y = true.

Lemma sorted_insert_least x l : head_least l -> head_least (sorted_insert x l).
Proof.
  intros Hl m. destruct l as [|z l]; simpl.
  - intros Hm y Hy. inversion Hm; subst m.
    apply list_elem_of_singleton in Hy. subst y. apply leb_refl.
  - destruct (String.leb x z) eqn:Hxz; simpl; intros Hm y Hy;
      inversion Hm; subst m.
    + apply elem_of_cons in Hy as [->|Hy]; [apply leb_refl|].
      eapply leb_trans; [exact Hxz|]. by apply (Hl z).
    + apply elem_of_cons in Hy as [->|Hy]; [apply leb_refl|].
      apply sorted_insert_elem in Hy as [->|Hy].
      * destruct (String.leb_total x z) as [H|H]; [congruence|done].
      * apply (Hl z); [done|by right].
Qed.

Lemma sorted_least l : head_least (sorted l).
Proof.
  induction l as [|x l IH]; simpl; [done|]. by apply sorted_insert_least.
Qed.

Lemma find_first {A} (f : A -> bool) (l : list A) :
  match List.find f l with
  | Some r => exists before after,
                l = before ++ r :: after /\ f r = true
                /\ forall x, x ∈ before -> f x = false
  | None => forall x, x ∈ l -> f x = false
  end.
Proof.
  induction l as [|a l IH]; simpl.
  - intros x Hx. by apply elem_of_nil in Hx.
  - destruct (f a) eqn:Hfa.
    + exists [], l. split_and!; try done. intros x Hx. by apply elem_of_nil in Hx.
    + destruct (List.find f l) as [r|].
      * destruct IH as (before & after & -> & Hr & Hb).
        exists (a :: before), after. split_and!; try done.
        intros x Hx. apply elem_of_cons in Hx as [->|Hx]; auto.
      * intros x Hx. apply elem_of_cons in Hx as [->|Hx]; auto.
Qed.

Lemma remaining_elem (p : Process) r :
  r ∈ List.filter (fun r => bool_decide (r ∉ held_resources p)) (plan p)
  <-> r ∈ plan p /\ r ∉ held_resources p.
Proof.
  rewrite list_elem_of_In, filter_In, <- list_elem_of_In.
  by rewrite bool_decide_eq_true.
Qed.

End ModelsFacts.

(** * Properties of the cycle search *)

Module DetectorFacts.
Import Detector.

Section Search.
Variable g : graph.

(** Consecutive elements of [p] are joined by edges of [g]. *)
Definition chain (p : list string) : Prop :=
  forall (i : nat) (a b : string),
    p !! i = Some a -> p !! S i = Some b -> edge g a b.

(** What the search may report: a closed walk of the graph, written with
    its first node repeated at the end. *)
Definition cycle_ok (c : list string) : Prop :=
  (exists x, head c = Some x /\ last c = Some x)
  /\ (2 <= length c)%nat
  /\ chain c.

(** The graph contains a cycle. *)
Definition has_cycle : Prop := exists x, tc (edge g) x x.

(** No infinite walk starts at [x]. *)
Definition finishes (x : string) : Prop :=
  Acc (fun v u => edge g u v) x.

Definition inv (s : dfs_state) : Prop :=
  stack s ⊆ visited s
  /\ (forall x, x ∈ path s <-> x ∈ stack s)
  /\ NoDup (path s)
  /\ chain (path s)
  /\ visited s ⊆ nodes g
  /\ (forall x, x ∈ visited s -> x ∉ stack s -> finishes x).

Lemma chain_nil : chain [].
Proof. intros i a b H. by rewrite lookup_nil in H. Qed.

Lemma chain_snoc p x :
  chain p -> (forall u, last p = Some u -> edge g u x) -> chain (p ++ [x]).
Proof.
  intros Hp Hx i a b Ha Hb.
  destruct (decide (S i < length p)%nat) as [Hlt|Hge].
  - rewrite lookup_app_l in Ha by lia. rewrite lookup_app_l in Hb by lia.
    eauto.
  - assert (Hi : S i = length p).
    { apply lookup_lt_Some in Hb. rewrite length_app in Hb. simpl in Hb. lia. }
    rewrite lookup_app_l in Ha by lia.
    rewrite lookup_app_r in Hb by lia.
    rewrite Hi, Nat.sub_diag in Hb. simpl in Hb. inversion Hb; subst b.
    apply Hx. rewrite last_lookup. rewrite <- Hi. simpl. exact Ha.
Qed.

Lemma chain_prefix p q : chain (p ++ q) -> chain p.
Proof.
  intros H i a b Ha Hb. apply (H i).
  - rewrite lookup_app_l; [done|]. by apply lookup_lt_Some in Ha.
  - rewrite lookup_app_l; [done|]. by apply lookup_lt_Some in Hb.
Qed.

Lemma chain_drop n p : chain p -> chain (drop n p).
Proof.
  intros H i a b Ha Hb. rewrite lookup_drop in Ha, Hb.
  apply (H (n + i)%nat); [done|]. by rewrite <- Nat.add_succ_r.
Qed.

Lemma last_drop_lt (n : nat) (p : list string) :
  (n < length p)%nat -> last (drop n p) = last p.
Proof.
  intros Hlt. rewrite !last_lookup, lookup_drop, length_drop. f_equal. lia.
Qed.

Lemma list_index_Some x l :
  x ∈ l -> exists i, list_index x l = Some i /\ l !! i = Some x.
Proof.
  induction l as [|y l IH]; intros Hin.
  - by apply elem_of_nil in Hin.
  - simpl. destruct (decide (y = x)) as [->|Hne].
    + by exists 0%nat.
    + apply elem_of_cons in Hin as [->|Hin]; [done|].
      destruct (IH Hin) as (i & -> & Hi). by exists (S i).
Qed.

Lemma edge_nodes u v : edge g u v -> u ∈ nodes g /\ v ∈ nodes g.
Proof.
  unfold edge, nodes, graph_keys. intros H.
  rewrite !elem_of_union, !elem_of_list_to_set.
  induction g as [|[k vs] g' IH]; simpl in *.
  - by apply elem_of_nil in H.
  - rewrite !elem_of_cons, !elem_of_app.
    destruct (decide (k = u)) as [->|Hne]; [tauto|].
    destruct (IH H) as [[H1|H1] [H2|H2]]; tauto.
Qed.

Lemma edge_key u v : edge g u v -> u ∈ graph_keys g.
Proof.
  unfold edge, graph_keys. induction g as [|[k vs] g' IH]; simpl.
  - intros H. by apply elem_of_nil in H.
  - destruct (decide (k = u)) as [->|Hne]; intros H; [left|right; auto].
Qed.

Lemma finishes_no_cycle x : finishes x -> ~ tc (edge g) x x.
Proof.
  induction 1 as [x _ IH]. intros Hc.
  inversion Hc as [? ? Hxx|? y ? Hxy Hyx]; subst.
  - apply (IH x Hxx). exact Hc.
  - apply (IH y Hxy). eapply tc_r; eauto.
Qed.

(** The keys that the search has not visited. *)
Definition room (s : dfs_state) : nat :=
  size (list_to_set (graph_keys g) ∖ visited s).

(** The postcondition shared by [dfs] and the loops around it: a
    reported cycle is a cycle, a search that reports nothing ends in
    the state described by [post], and the only exception is
    [RecursionError], raised when [deep] holds. *)
Definition search_post (deep : Prop) (post : dfs_state -> Prop)
    (r : outcome (option (list string)) * dfs_state) : Prop :=
  match r with
  | (Ret (Some c), _) => cycle_ok c
  | (Ret None, s') => post s'
  | (Exc RecursionError, _) => deep
  | _ => False
  end.

Lemma search_post_weaken (deep deep' : Prop) (post post' : dfs_state -> Prop)
    r :
  (deep -> deep') -> (forall s, post s -> post' s) ->
  search_post deep post r -> search_post deep' post' r.
Proof.
  intros Hd Hp. destruct r as [[[c|]|e|] s]; simpl; [done|apply Hp| |done].
  destruct e; [done..|exact Hd|done].
Qed.

Definition dfs_post (node : string) (s s' : dfs_state) : Prop :=
  inv s' /\ visited s ⊆ visited s' /\ node ∈ visited s'
  /\ stack s' = stack s /\ path s' = path s.

Definition dfs_pre (node : string) (s : dfs_state) : Prop :=
  inv s /\ (node ∉ visited s) /\ node ∈ nodes g
  /\ (forall u, last (path s) = Some u -> edge g u node).

Lemma inv_enter node s :
  inv s -> node ∉ visited s -> node ∈ nodes g ->
  (forall u, last (path s) = Some u -> edge g u node) ->
  inv (dfs_enter node s).
Proof.
  intros (Hsv & Hps & Hnd & Hch & Hvn & Hacc) Hnv Hn Hlast.
  unfold inv, dfs_enter; simpl. split_and!.
  - set_solver.
  - intros x. rewrite elem_of_app, list_elem_of_singleton, Hps. set_solver.
  - apply NoDup_app. split; [done|]. split; [|apply NoDup_singleton].
    intros x Hx Hx'. apply list_elem_of_singleton in Hx'. subst x.
    apply Hps in Hx. set_solver.
  - by apply chain_snoc.
  - set_solver.
  - intros x Hx Hx'. apply Hacc; set_solver.
Qed.

Lemma room_enter node s :
  node ∉ visited s -> node ∈ graph_keys g ->
  (room (dfs_enter node s) < room s)%nat.
Proof.
  intros Hnv Hn. unfold room.
  change (visited (dfs_enter node s)) with ({[node]} ∪ visited s).
  set (K := list_to_set (graph_keys g) : gset string).
  assert (Hk : node ∈ K) by (by apply elem_of_list_to_set).
  assert (Heq : K ∖ visited s = {[node]} ∪ (K ∖ ({[node]} ∪ visited s))).
  { apply set_eq. intros x. rewrite !elem_of_union, !elem_of_difference,
      !elem_of_union, !elem_of_singleton.
    destruct (decide (x = node)) as [->|]; naive_solver. }
  pose proof (size_union (C:=gset string) {[node]}
                (K ∖ ({[node]} ∪ visited s)) ltac:(set_solver)) as Hsz.
  rewrite size_singleton in Hsz. rewrite Heq. lia.
Qed.

Lemma room_mono (s s' : dfs_state) :
  visited s ⊆ visited s' -> (room s' <= room s)%nat.
Proof.
  intros Hsub. unfold room. apply subseteq_size. set_solver.
Qed.

Lemma size_list_to_set_le (l : list string) :
  (size (list_to_set l : gset string) <= length l)%nat.
Proof.
  induction l as [|x l IH]; [by rewrite list_to_set_nil, size_empty|].
  rewrite list_to_set_cons, size_union_alt, size_singleton. simpl.
  pose proof (subseteq_size (list_to_set l ∖ {[x]})
                (list_to_set l : gset string) ltac:(set_solver)).
  lia.
Qed.

Lemma room_keys (s : dfs_state) : (room s <= length (graph_keys g))%nat.
Proof.
  unfold room. etrans; [|apply size_list_to_set_le].
  apply subseteq_size. set_solver.
Qed.

Lemma cycle_found s node neighbor p0 :
  inv s -> path s = p0 ++ [node] -> edge g node neighbor ->
  neighbor ∈ stack s ->
  exists idx, list_index neighbor (path s) = Some idx
              /\ cycle_ok (drop idx (path s) ++ [neighbor]).
Proof.
  intros (Hsv & Hps & Hnd & Hch & Hvn & Hacc) Hpath Hedge Hin.
  apply Hps in Hin. destruct (list_index_Some _ _ Hin) as (idx & Hidx & Hlk).
  exists idx. split; [done|].
  assert (Hlt : (idx < length (path s))%nat) by by apply lookup_lt_Some in Hlk.
  assert (Hdrop : exists rest, drop idx (path s) = neighbor :: rest).
  { exists (drop (S idx) (path s)). by apply drop_S. }
  destruct Hdrop as [rest Hdrop]. rewrite Hdrop. split_and!.
  - exists neighbor. split; [done|]. by rewrite last_snoc.
  - rewrite length_app. simpl. lia.
  - rewrite <- Hdrop. apply chain_snoc; [by apply chain_drop|].
    intros u Hu. rewrite last_drop_lt in Hu by done.
    rewrite Hpath, last_snoc in Hu. by inversion Hu; subst.
Qed.

Lemma inv_leave node s p0 :
  inv s -> path s = p0 ++ [node] ->
  (forall n, edge g node n -> n ∈ visited s /\ n ∉ stack s) ->
  exists s', dfs_leave node s = (Ret None, s')
    /\ inv s' /\ visited s' = visited s
    /\ stack s' = stack s ∖ {[node]} /\ path s' = p0.
Proof.
  intros (Hsv & Hps & Hnd & Hch & Hvn & Hacc) Hpath Hblack.
  assert (Hin : node ∈ stack s).
  { apply Hps. rewrite Hpath. set_solver. }
  unfold dfs_leave. rewrite decide_True by done.
  cbn [path visited stack]. rewrite Hpath, removelast_last.
  assert (Hret : forall (B : Type) (a b : B),
             match p0 ++ [node] with [] => a | _ :: _ => b end = b)
    by (intros; by destruct p0).
  rewrite Hret.
  eexists. split; [reflexivity|]. cbn [path visited stack].
  rewrite Hpath in Hnd, Hch, Hps.
  apply NoDup_app in Hnd as (Hnd0 & Hdisj & _).
  split; [|done]. unfold inv; simpl. split_and!.
  - set_solver.
  - intros x. split.
    + intros Hx. apply elem_of_difference. split.
      * apply Hps. set_solver.
      * intros Hx'. apply elem_of_singleton in Hx'. subst x.
        apply (Hdisj node Hx). set_solver.
    + intros Hx. apply elem_of_difference in Hx as [Hx Hx'].
      apply Hps in Hx. set_solver.
  - done.
  - by eapply chain_prefix.
  - done.
  - intros x Hx Hx'. destruct (decide (x = node)) as [->|Hne].
    + constructor. intros n Hn. destruct (Hblack n Hn). by apply Hacc.
    + apply Hacc; set_solver.
Qed.

Lemma dfs_neighbors_spec depth rec node :
  (forall n s, dfs_pre n s ->
               search_post (depth <= room s)%nat (dfs_post n s) (rec n s)) ->
  forall ns s p0,
    inv s -> path s = p0 ++ [node] ->
    (forall n, n ∈ ns -> edge g node n) ->
    (forall n, edge g node n -> n ∈ ns \/ (n ∈ visited s /\ n ∉ stack s)) ->
    search_post
      (ns <> [] /\ (depth <= room s)%nat)
      (fun s' => inv s' /\ visited s ⊆ visited s'
                 /\ stack s' = stack s ∖ {[node]} /\ path s' = p0)
      (dfs_neighbors rec node ns s).
Proof.
  intros Hrec ns. induction ns as [|n ns IH]; intros s p0 Hinv Hpath Hns Hcov.
  - simpl. destruct (inv_leave node s p0 Hinv Hpath) as (s' & -> & Hi & Hv & Hs & Hp).
    { intros n Hn. destruct (Hcov n Hn) as [Hnil|?]; [|done].
      by apply elem_of_nil in Hnil. }
    simpl. rewrite Hv. done.
  - assert (Hedge : edge g node n) by (apply Hns; left).
    simpl. destruct (decide (n ∉ visited s)) as [Hnv|Hv].
    + assert (Hpre : dfs_pre n s).
      { split_and!; try done.
        - by apply (edge_nodes node n).
        - intros u Hu. rewrite Hpath, last_snoc in Hu. by inversion Hu; subst. }
      specialize (Hrec n s Hpre). unfold search_post in Hrec.
      destruct (rec n s) as [[[c|]|e|] s1]; try contradiction.
      * pose proof (proj1 (proj2 Hrec)) as Hlen.
        destruct c; [simpl in Hlen; lia|]. simpl. exact Hrec.
      * destruct Hrec as (Hinv1 & Hsub & Hn1 & Hst & Hp1). simpl.
        assert (Hstk : stack s ⊆ visited s) by apply Hinv.
        assert (H2 : path s1 = p0 ++ [node]) by (by rewrite Hp1).
        assert (H4 : forall m, m ∈ ns -> edge g node m)
          by (intros m Hm; apply Hns; by right).
        assert (H5 : forall m, edge g node m ->
                       m ∈ ns \/ (m ∈ visited s1 /\ m ∉ stack s1)).
        { intros m Hm. destruct (Hcov m Hm) as [Hm'|[Hm1 Hm2]].
          - apply elem_of_cons in Hm' as [->|Hm']; [|by left].
            right. split; [done|]. rewrite Hst. set_solver.
          - right. split; [set_solver|]. by rewrite Hst. }
        specialize (IH s1 p0 Hinv1 H2 H4 H5).
        pose proof (room_mono s s1 Hsub) as Hroom.
        unfold search_post in *.
        destruct (dfs_neighbors rec node ns s1) as [[[c|]|e|] s2];
          [exact IH| | |exact IH].
        -- destruct IH as (Hi & Hv2 & Hs2 & Hp2). rewrite Hst in Hs2.
           split_and!; [exact Hi|set_solver|exact Hs2|exact Hp2].
        -- destruct e; try exact IH. split; [done|]. destruct IH. lia.
      * simpl. destruct e; try exact Hrec. by split.
    + destruct (decide (n ∈ stack s)) as [Hstk|Hnstk].
      * destruct (cycle_found s node n p0 Hinv Hpath Hedge Hstk)
          as (idx & -> & Hc). exact Hc.
      * eapply search_post_weaken; [| |apply (IH s p0 Hinv Hpath)].
        { intros [_ ?]. by split. }
        { done. }
        { intros m Hm. apply Hns. by right. }
        { intros m Hm. destruct (Hcov m Hm) as [Hm'|Hm']; [|by right].
          apply elem_of_cons in Hm' as [->|Hm']; [|by left].
          right. split; [|done]. by apply dec_stable. }
Qed.

(** [dfs] returns a cycle of the graph, or nothing, having visited the
    node; it raises [RecursionError] only if the depth it was given is
    at most the number of keys not yet visited. *)
Lemma dfs_spec depth :
  forall node s, dfs_pre node s ->
                 search_post (depth <= room s)%nat (dfs_post node s)
                   (dfs g depth node s).
Proof.
  induction depth as [|depth IH]; intros node s (Hinv & Hnv & Hn & Hlast).
  - simpl. lia.
  - simpl.
    pose proof (inv_enter node s Hinv Hnv Hn Hlast) as Hinv1.
    pose proof (dfs_neighbors_spec depth (dfs g depth) node IH
                  (graph_get g node) (dfs_enter node s) (path s)
                  Hinv1 eq_refl) as Hloop.
    unfold search_post in *.
    destruct (dfs_neighbors (dfs g depth) node (graph_get g node)
                (dfs_enter node s)) as [[[c|]|e|] s1].
    + apply Hloop; [done|by left].
    + destruct Hloop as (Hi & Hv & Hs & Hp); [done|by left|].
      simpl in *. assert (Hstk : stack s ⊆ visited s) by apply Hinv.
      split_and!; [exact Hi|set_solver|set_solver|set_solver|exact Hp].
    + specialize (Hloop ltac:(done) ltac:(by left)).
      destruct e; try exact Hloop. destruct Hloop as [Hne Hle].
      assert (Hkey : node ∈ graph_keys g).
      { destruct (graph_get g node) as [|v vs] eqn:Hget; [done|].
        apply (edge_key node v). unfold edge. rewrite Hget. by left. }
      pose proof (room_enter node s Hnv Hkey). lia.
    + apply Hloop; [done|by left].
Qed.

Lemma chain_tc l :
  forall x y, chain l -> head l = Some x -> last l = Some y ->
              (2 <= length l)%nat -> tc (edge g) x y.
Proof.
  induction l as [|a l IH]; intros x y Hch Hhd Hlast Hlen; [done|].
  simpl in Hhd. inversion Hhd; subst a.
  destruct l as [|b l]; [simpl in Hlen; lia|].
  assert (Hxb : edge g x b) by (by apply (Hch 0%nat)).
  destruct l as [|c l].
  - simpl in Hlast. inversion Hlast; subst. by apply tc_once.
  - eapply tc_l; [exact Hxb|]. apply IH.
    + intros i u v Hu Hv. by apply (Hch (S i)).
    + done.
    + by rewrite last_cons_cons in Hlast.
    + simpl. lia.
Qed.

Lemma cycle_ok_has_cycle c : cycle_ok c -> has_cycle.
Proof.
  intros ((x & Hhd & Hlast) & Hlen & Hch). exists x. by eapply chain_tc.
Qed.

Lemma find_cycle_from_spec depth keys :
  forall s,
    inv s -> stack s = ∅ -> path s = [] ->
    (forall k, k ∈ keys -> k ∈ nodes g) ->
    search_post
      (depth <= room s)%nat
      (fun s' => inv s' /\ stack s' = ∅ /\ path s' = []
                 /\ visited s ⊆ visited s'
                 /\ (forall k, k ∈ keys -> k ∈ visited s'))
      (find_cycle_from g depth keys s).
Proof.
  induction keys as [|k keys IH]; intros s Hinv Hst Hp Hkeys.
  - simpl. split_and!; try done. intros k Hk. by apply elem_of_nil in Hk.
  - assert (Hrest : forall k', k' ∈ keys -> k' ∈ nodes g)
      by (intros k' Hk'; apply Hkeys; by right).
    simpl. destruct (decide (k ∉ visited s)) as [Hnv|Hv].
    + assert (Hpre : dfs_pre k s).
      { split_and!; try done.
        - apply Hkeys. by left.
        - intros u. by rewrite Hp. }
      pose proof (dfs_spec depth k s Hpre) as Hdfs. unfold search_post in Hdfs.
      destruct (dfs g depth k s) as [[[c|]|e|] s1]; try contradiction.
      * pose proof (proj1 (proj2 Hdfs)) as Hlen.
        destruct c; [simpl in Hlen; lia|]. simpl. exact Hdfs.
      * destruct Hdfs as (Hinv1 & Hsub & Hk1 & Hst1 & Hp1). simpl.
        rewrite Hst in Hst1. rewrite Hp in Hp1.
        specialize (IH s1 Hinv1 Hst1 Hp1 Hrest).
        pose proof (room_mono s s1 Hsub) as Hroom.
        unfold search_post in *.
        destruct (find_cycle_from g depth keys s1) as [[[c|]|e|] s2];
          [exact IH| | |exact IH].
        -- destruct IH as (Hi & Hs2 & Hp2 & Hv2 & Hall).
           split_and!; [exact Hi|exact Hs2|exact Hp2|set_solver|].
           intros k' Hk'. apply elem_of_cons in Hk' as [->|Hk'];
             [set_solver|by apply Hall].
        -- destruct e; try exact IH. lia.
      * simpl. exact Hdfs.
    + specialize (IH s Hinv Hst Hp Hrest). unfold search_post in *.
      destruct (find_cycle_from g depth keys s) as [[[c|]|e|] s2];
        try exact IH.
      destruct IH as (Hi & Hs2 & Hp2 & Hv2 & Hall).
      split_and!; [exact Hi|exact Hs2|exact Hp2|exact Hv2|].
      intros k' Hk'. apply elem_of_cons in Hk' as [->|Hk'];
        [|by apply Hall].
      apply dec_stable in Hv. set_solver.
Qed.

Lemma inv_init : inv {| visited := ∅; stack := ∅; path := [] |}.
Proof.
  unfold inv; simpl. split_and!; try set_solver.
  - apply NoDup_nil_2.
  - apply chain_nil.
Qed.

Lemma keys_nodes k : k ∈ graph_keys g -> k ∈ nodes g.
Proof. intros Hk. unfold nodes. set_solver. Qed.

(** The possible results of the search: a cycle of the graph, or
    nothing on a graph without cycle, or [RecursionError], and this
    only when the depth allowed is at most the number of keys of the
    graph. *)
Lemma find_cycle_cases depth :
  match _find_cycle depth g with
  | Ret (Some c) => cycle_ok c
  | Ret None => ~ has_cycle
  | Exc e => e = RecursionError /\ (depth <= length (graph_keys g))%nat
  | NoFuel => False
  end.
Proof.
  unfold _find_cycle.
  pose proof (find_cycle_from_spec depth (graph_keys g)
                {| visited := ∅; stack := ∅; path := [] |}
                inv_init eq_refl eq_refl keys_nodes) as H.
  unfold search_post in H.
  destruct (find_cycle_from g depth (graph_keys g)
              {| visited := ∅; stack := ∅; path := [] |})
    as [[[c|]|e|] s1]; cbn [fst]; [exact H| | |exact H].
  - destruct H as (Hinv & Hst & _ & _ & Hall).
    intros [x Hx]. apply (finishes_no_cycle x); [|exact Hx].
    destruct Hinv as (_ & _ & _ & _ & _ & Hacc). apply Hacc.
    + apply Hall.
      inversion Hx as [? ? Hxy|? y ? Hxy _]; subst; eapply edge_key; eauto.
    + rewrite Hst. set_solver.
  - destruct e; try contradiction. split; [done|].
    etrans; [exact H|]. apply room_keys.
Qed.

(** A search that reports nothing has shown that no infinite walk
    starts anywhere. *)
Lemma find_cycle_none_finishes depth :
  _find_cycle depth g = Ret None -> forall x, finishes x.
Proof.
  unfold _find_cycle. intros Hnone x.
  pose proof (find_cycle_from_spec depth (graph_keys g)
                {| visited := ∅; stack := ∅; path := [] |}
                inv_init eq_refl eq_refl keys_nodes) as H.
  unfold search_post in H.
  destruct (find_cycle_from g depth (graph_keys g)
              {| visited := ∅; stack := ∅; path := [] |})
    as [[[c|]|e|] s1]; cbn [fst] in Hnone; try discriminate Hnone.
  destruct H as (Hinv & Hst & _ & _ & Hall).
  destruct Hinv as (_ & _ & _ & _ & _ & Hacc).
  destruct (decide (x ∈ graph_keys g)) as [Hx|Hx].
  - apply Hacc; [by apply Hall|]. rewrite Hst. set_solver.
  - constructor. intros y Hxy. destruct Hx. by eapply edge_key.
Qed.

End Search.

(** *** Rings *)

Lemma ring_node_inj i j : ring_node i = ring_node j -> i = j.
Proof.
  unfold ring_node. intros H. apply (inj (String.app "P")) in H.
  by apply (inj pretty) in H.
Qed.

Lemma ring_get_from (f : nat -> list string) m :
  forall a k,
    (a <= k < a + m)%nat ->
    graph_get ((fun i => (ring_node i, f i)) <$> seq a m) (ring_node k) = f k.
Proof.
  induction m as [|m IH]; intros a k Hk; [lia|].
  simpl. destruct (decide (ring_node a = ring_node k)) as [He|Hne].
  - apply ring_node_inj in He. by subst.
  - apply IH. assert (a <> k) by (intros ->; done). lia.
Qed.

Lemma ring_get n k :
  (k < n)%nat -> graph_get (ring n) (ring_node k) = [ring_node (S k mod n)].
Proof.
  intros Hk. unfold ring.
  apply (ring_get_from (fun i => [ring_node (S i mod n)])). lia.
Qed.

(** With less depth than the ring has nodes, the search that enters the
    ring at its node [k], the nodes before it visited, raises. *)
Lemma ring_deep n :
  forall depth k s,
    (k + depth < n)%nat ->
    (forall j, ring_node j ∈ visited s -> (j < k)%nat) ->
    fst (dfs (ring n) depth (ring_node k) s) = Exc RecursionError.
Proof.
  induction depth as [|depth IH]; intros k s Hk Hvis; [done|].
  cbn [dfs]. rewrite ring_get by lia.
  rewrite Nat.mod_small by lia. cbn [dfs_neighbors].
  rewrite decide_True.
  - assert (H : fst (dfs (ring n) depth (ring_node (S k))
                       (dfs_enter (ring_node k) s)) = Exc RecursionError).
    { apply IH; [lia|]. simpl. intros j Hj.
      apply elem_of_union in Hj as [Hj|Hj].
      - apply elem_of_singleton, ring_node_inj in Hj. lia.
      - specialize (Hvis j Hj). lia. }
    by destruct (dfs (ring n) depth (ring_node (S k))
                   (dfs_enter (ring_node k) s)) as [[r|e|] s1].
  - simpl. intros Hj. apply elem_of_union in Hj as [Hj|Hj].
    + apply elem_of_singleton, ring_node_inj in Hj. lia.
    + specialize (Hvis _ Hj). lia.
Qed.

Lemma ring_find_cycle n depth :
  (depth < n)%nat -> _find_cycle depth (ring n) = Exc RecursionError.
Proof.
  intros Hd. unfold _find_cycle.
  destruct n as [|n]; [lia|].
  change (graph_keys (ring (S n)))
    with (ring_node 0 :: graph_keys
            ((fun i => (ring_node i, [ring_node (S i mod S n)]))
               <$> seq 1 n)).
  cbn [find_cycle_from]. rewrite decide_True by set_solver.
  assert (H : fst (dfs (ring (S n)) depth (ring_node 0)
                     {| visited := ∅; stack := ∅; path := [] |})
              = Exc RecursionError).
  { apply ring_deep; [lia|]. simpl. set_solver. }
  by destruct (dfs (ring (S n)) depth (ring_node 0)
                 {| visited := ∅; stack := ∅; path := [] |})
    as [[r|e|] s1].
Qed.

Lemma ring_has_cycle n : (0 < n)%nat -> has_cycle (ring n).
Proof.
  intros Hn. exists (ring_node 0).
  assert (H : forall m k, (k + m = n - 1)%nat ->
                          tc (edge (ring n)) (ring_node k) (ring_node 0)).
  { induction m as [|m IH]; intros k Hk.
    - apply tc_once. unfold edge. rewrite ring_get by lia.
      replace (S k) with n by lia. rewrite Nat.Div0.mod_same. by left.
    - eapply tc_l; [|apply (IH (S k)); lia].
      unfold edge. rewrite ring_get by lia.
      rewrite Nat.mod_small by lia. by left. }
  apply (H (n - 1)%nat 0%nat). lia.
Qed.

(** *** The wait-for graph *)

(** Process object [i] of the store contributes the edge [a -> b]. *)
Definition waits_at (st : Store) (i : nat) (a b : string) : Prop :=
  exists proc r res,
    processes st !! i = Some proc /\ pid proc = a
    /\ state proc = BLOCKED
    /\ current_request proc = Some r /\ r <> ""
    /\ resources st !! r = Some res
    /\ held_by res = Some b /\ b <> "" /\ b <> a.

(** Process object [i] is blocked on a resource id that is not a key of
    the resource dictionary. *)
Definition bad_request (st : Store) (i : nat) : Prop :=
  exists proc r,
    processes st !! i = Some proc /\ state proc = BLOCKED
    /\ current_request proc = Some r /\ r <> ""
    /\ resources st !! r = None.

Lemma set_add_elem v vs x : x ∈ set_add v vs <-> x ∈ vs \/ x = v.
Proof.
  unfold set_add. destruct (decide (v ∈ vs)) as [Hin|Hnin].
  - split; [by left|]. intros [?| ->]; done.
  - rewrite elem_of_app, list_elem_of_singleton. done.
Qed.

Lemma graph_add_edge g k v a b :
  edge (graph_add g k v) a b <-> edge g a b \/ (a = k /\ b = v).
Proof.
  unfold edge. induction g as [|[k' vs] g IH]; simpl.
  - destruct (decide (k = a)) as [->|Hne].
    + rewrite list_elem_of_singleton. split; [by right|].
      intros [H|[_ ->]]; [by apply elem_of_nil in H|done].
    + split; [intros H; by apply elem_of_nil in H|].
      intros [H|[-> _]]; [by apply elem_of_nil in H|done].
  - destruct (decide (k' = k)) as [->|Hne]; simpl.
    + destruct (decide (k = a)) as [->|Hne'].
      * rewrite set_add_elem. naive_solver.
      * naive_solver.
    + destruct (decide (k' = a)) as [->|Hne'].
      * naive_solver.
      * exact IH.
Qed.

Lemma eqb_empty_false (r : string) : String.eqb r "" = false <-> r <> "".
Proof. apply String.eqb_neq. Qed.

Lemma build_edge_spec i g st :
  (i < length (processes st))%nat ->
  match build_edge i g st with
  | (Ret g', st') =>
      st' = st /\ forall a b, edge g' a b <-> edge g a b \/ waits_at st i a b
  | (Exc e, st') => st' = st /\ e = KeyError /\ bad_request st i
  | (NoFuel, _) => False
  end.
Proof.
  intros Hi. unfold build_edge, bind, get_process, get_resource, ret.
  destruct (processes st !! i) as [proc|] eqn:Hp;
    [|apply lookup_ge_None in Hp; lia].
  destruct (bool_decide (state proc = BLOCKED)) eqn:Hb; simpl.
  2:{ apply bool_decide_eq_false in Hb. split; [done|]. intros a b.
      split; [by left|]. intros [?|(p' & r & res & Hp' & _ & Hs & _)]; [done|].
      congruence. }
  apply bool_decide_eq_true in Hb.
  destruct (current_request proc) as [r|] eqn:Hr; simpl.
  2:{ split; [done|]. intros a b.
      split; [by left|]. intros [?|(p' & r & res & Hp' & _ & _ & Hr' & _)];
        [done|]. congruence. }
  destruct (String.eqb r "") eqn:Hre; simpl.
  { apply String.eqb_eq in Hre. split; [done|]. intros a b.
    split; [by left|].
    intros [?|(p' & r' & res & Hp' & _ & _ & Hr' & Hne & _)]; [done|].
    congruence. }
  apply String.eqb_neq in Hre.
  destruct (resources st !! r) as [res|] eqn:Hres.
  2:{ split; [done|]. split; [done|]. by exists proc, r. }
  destruct (held_by res) as [holder|] eqn:Hh.
  2:{ split; [done|]. intros a b. split; [by left|].
      intros [?|(p' & r' & res' & Hp' & _ & _ & Hr' & _ & Hres' & Hh' & _)];
        [done|]. congruence. }
  destruct (String.eqb holder "") eqn:Hhe; simpl.
  { apply String.eqb_eq in Hhe. split; [done|]. intros a b.
    split; [by left|].
    intros [?|(p' & r' & res' & Hp' & _ & _ & Hr' & _ & Hres' & Hh' & Hne & _)];
      [done|]. congruence. }
  apply String.eqb_neq in Hhe.
  destruct (String.eqb holder (pid proc)) eqn:Hhp; simpl.
  { apply String.eqb_eq in Hhp. split; [done|]. intros a b.
    split; [by left|].
    intros [?|(p' & r' & res' & Hp' & Hpid & _ & Hr' & _ & Hres' & Hh'
               & _ & Hne)]; [done|]. congruence. }
  apply String.eqb_neq in Hhp.
  split; [done|]. intros a b. rewrite graph_add_edge.
  split.
  - intros [?|[-> ->]]; [by left|]. right. by exists proc, r, res.
  - intros [?|(p' & r' & res' & Hp' & Hpid & _ & Hr' & _ & Hres' & Hh' & _)];
      [by left|]. right. split; congruence.
Qed.

Lemma build_loop_spec idxs :
  forall g st,
    (forall i, i ∈ idxs -> (i < length (processes st))%nat) ->
    match build_loop idxs g st with
    | (Ret g', st') =>
        st' = st
        /\ forall a b, edge g' a b <->
                       edge g a b \/ exists i, i ∈ idxs /\ waits_at st i a b
    | (Exc e, st') =>
        st' = st /\ e = KeyError /\ exists i, i ∈ idxs /\ bad_request st i
    | (NoFuel, _) => False
    end.
Proof.
  induction idxs as [|i idxs IH]; intros g st Hidx.
  - simpl. unfold ret. split; [done|]. intros a b. split; [by left|].
    intros [?|(i & Hi & _)]; [done|]. by apply elem_of_nil in Hi.
  - simpl. unfold bind.
    pose proof (build_edge_spec i g st (Hidx i ltac:(by left))) as He.
    destruct (build_edge i g st) as [[g1|e|] st1]; [|..|done].
    + destruct He as [-> He].
      specialize (IH g1 st (fun j Hj => Hidx j ltac:(by right))).
      destruct (build_loop idxs g1 st) as [[g2|e|] st2]; [|..|done].
      * destruct IH as [-> IH]. split; [done|]. intros a b.
        rewrite IH, He. split.
        -- intros [[?|?]|(j & Hj & ?)]; [by left|right..].
           ++ exists i. split; [by left|done].
           ++ exists j. split; [by right|done].
        -- intros [?|(j & Hj & ?)]; [by left; left|].
           apply elem_of_cons in Hj as [->|Hj]; [by left; right|].
           right. by exists j.
      * destruct IH as (-> & -> & j & Hj & Hbad). split_and!; try done.
        exists j. split; [by right|done].
    + destruct He as (-> & -> & Hbad). split_and!; try done.
      exists i. split; [by left|done].
Qed.

(** The processes of the store that wait for one another. *)
Definition waits_for (st : Store) (a b : string) : Prop :=
  exists i, waits_at st i a b.

Lemma build_wait_for_graph_spec st :
  match build_wait_for_graph st with
  | (Ret g, st') => st' = st /\ forall a b, edge g a b <-> waits_for st a b
  | (Exc e, st') => st' = st /\ e = KeyError /\ exists i, bad_request st i
  | (NoFuel, _) => False
  end.
Proof.
  unfold build_wait_for_graph, bind, process_indices.
  pose proof (build_loop_spec (seq 0 (length (processes st))) [] st) as H.
  destruct (build_loop (seq 0 (length (processes st))) [] st)
    as [[g|e|] st1].
  - destruct H as [-> H].
    { intros i Hi. apply elem_of_seq in Hi. lia. }
    split; [done|]. intros a b. rewrite H. split.
    + intros [Hnil|(i & _ & Hw)]; [by apply elem_of_nil in Hnil|by exists i].
    + intros [i Hw]. right. exists i. split; [|done].
      destruct Hw as (proc & _ & _ & Hp & _). apply lookup_lt_Some in Hp.
      apply elem_of_seq. lia.
  - destruct H as (-> & -> & i & _ & Hbad).
    { intros i Hi. apply elem_of_seq in Hi. lia. }
    split_and!; try done. by exists i.
  - apply H. intros i Hi. apply elem_of_seq in Hi. lia.
Qed.

Lemma graph_add_keys_length g k v :
  (length (graph_keys (graph_add g k v)) <= S (length (graph_keys g)))%nat.
Proof.
  unfold graph_keys. induction g as [|[k' vs] g IH]; simpl; [lia|].
  destruct (decide (k' = k)); simpl in *; lia.
Qed.

Lemma build_edge_keys i g st :
  match build_edge i g st with
  | (Ret g', _) =>
      (length (graph_keys g') <= S (length (graph_keys g)))%nat
  | _ => True
  end.
Proof.
  unfold build_edge, bind, get_process, get_resource, ret.
  destruct (processes st !! i) as [p|]; [|done].
  destruct (bool_decide (state p = BLOCKED) && truthy_str (current_request p));
    [|lia].
  destruct (current_request p) as [r|]; [|lia].
  destruct (resources st !! r) as [res|]; [|done].
  destruct (held_by res) as [h|]; [|lia].
  destruct (truthy_str (Some h) && negb (String.eqb h (pid p))); [|lia].
  apply graph_add_keys_length.
Qed.

Lemma build_loop_keys idxs :
  forall g st,
    match build_loop idxs g st with
    | (Ret g', _) =>
        (length (graph_keys g') <= length (graph_keys g) + length idxs)%nat
    | _ => True
    end.
Proof.
  induction idxs as [|i idxs IH]; intros g st; simpl.
  - unfold ret. lia.
  - unfold bind. pose proof (build_edge_keys i g st) as H.
    destruct (build_edge i g st) as [[g1|e|] st1]; [|done..].
    specialize (IH g1 st1).
    destruct (build_loop idxs g1 st1) as [[g2|e|] st2]; [|done..]. lia.
Qed.

(** The graph has at most one key for each process object. *)
Lemma build_wait_for_graph_keys st g st' :
  build_wait_for_graph st = (Ret g, st') ->
  (length (graph_keys g) <= length (processes st))%nat.
Proof.
  unfold build_wait_for_graph, bind, process_indices. intros H.
  pose proof (build_loop_keys (seq 0 (length (processes st))) [] st) as Hk.
  rewrite H in Hk. rewrite length_seq in Hk. simpl in Hk. lia.
Qed.

(** [detect_deadlock] returns the flag, the edges and the cycle of the
    wait-for graph, or raises: [KeyError] from the construction of the
    graph, or [RecursionError] from the search, the latter only when the
    depth allowed is at most the number of process objects. *)
Lemma detect_deadlock_spec depth st :
  match detect_deadlock depth st with
  | (Ret (deadlock, edges, cycle), st') =>
      st' = st
      /\ exists g, build_wait_for_graph st = (Ret g, st)
           /\ edges = graph_edges g
           /\ ((deadlock = true /\ _find_cycle depth g = Ret (Some cycle)
                /\ cycle_ok g cycle /\ has_cycle g)
               \/ (deadlock = false /\ _find_cycle depth g = Ret None
                   /\ cycle = [] /\ ~ has_cycle g))
  | (Exc e, st') =>
      st' = st
      /\ ((e = KeyError /\ exists i, bad_request st i)
          \/ (e = RecursionError
              /\ (depth <= length (processes st))%nat
              /\ exists g, build_wait_for_graph st = (Ret g, st)
                   /\ _find_cycle depth g = Exc RecursionError))
  | (NoFuel, _) => False
  end.
Proof.
  unfold detect_deadlock, bind, lift, ret.
  pose proof (build_wait_for_graph_spec st) as Hb.
  pose proof (build_wait_for_graph_keys st) as Hk.
  destruct (build_wait_for_graph st) as [[g|e|] st1]; [| |done].
  - destruct Hb as [-> Hb]. specialize (Hk g st eq_refl).
    pose proof (find_cycle_cases g depth) as Hc.
    destruct (_find_cycle depth g) as [[c|]|e|] eqn:Hfc; [| | |done].
    + split; [done|]. exists g. split_and!; try done. left.
      destruct c as [|x c];
        [destruct Hc as (_ & Hlen & _); simpl in Hlen; lia|].
      simpl. split_and!; try done. by eapply cycle_ok_has_cycle.
    + split; [done|]. exists g. split_and!; try done. by right.
    + destruct Hc as [-> Hle]. split; [done|]. right.
      split_and!; [done|lia|]. by exists g.
  - destruct Hb as (-> & -> & Hbad). split; [done|]. by left.
Qed.

End DetectorFacts.

(** * Properties of the lock manager *)

Module LockManagerFacts.
Import LockManager.

(** An operation of the lock manager on the process object at a given
    position. *)
Inductive op : Type :=
| OpRequest (i : nat) (resource_id : string)
| OpReleaseAll (i : nat).

(** The store after the operation, whether it returned or raised. *)
Definition apply_op (o : op) (st : Store) : Store :=
  match o with
  | OpRequest i resource_id => snd (request i resource_id st)
  | OpReleaseAll i => snd (release_all i st)
  end.

Definition apply_ops (ops : list op) (st : Store) : Store :=
  foldl (fun s o => apply_op o s) st ops.

(** The simulator's initial store: [resources] maps every [rid] to its
    resource, nothing is held. *)
Definition initial (st : Store) : Prop :=
  NoDup (pid <$> processes st)
  /\ (forall k r, resources st !! k = Some r -> rid r = k /\ held_by r = None)
  /\ (forall i p, processes st !! i = Some p -> held_resources p = ∅).

Definition lock_inv (st : Store) : Prop :=
  NoDup (pid <$> processes st)
  /\ (forall k r, resources st !! k = Some r -> rid r = k)
  /\ (forall i p k, processes st !! i = Some p -> k ∈ held_resources p ->
        exists r, resources st !! k = Some r /\ held_by r = Some (pid p))
  /\ (forall k r q, resources st !! k = Some r -> held_by r = Some q ->
        exists i p, processes st !! i = Some p /\ pid p = q
                    /\ k ∈ held_resources p).

Lemma initial_inv st : initial st -> lock_inv st.
Proof.
  intros (Hnd & Hres & Hheld). split_and!; [done|..].
  - intros k r Hk. by apply Hres.
  - intros i p k Hp Hk. rewrite (Hheld i p Hp) in Hk. set_solver.
  - intros k r q Hk Hq. destruct (Hres k r Hk) as [_ Hn]. congruence.
Qed.

Lemma resources_dict_lookup rs k r :
  Simulator.resources_dict rs !! k = Some r -> rid r = k /\ r ∈ rs.
Proof.
  unfold Simulator.resources_dict.
  assert (H : forall (m : gmap string Resource),
             (forall k r, m !! k = Some r -> rid r = k /\ r ∈ rs) ->
             forall l, (forall r, r ∈ l -> r ∈ rs) ->
             forall k r, foldl (fun m r => <[rid r := r]> m) m l !! k = Some r ->
             rid r = k /\ r ∈ rs).
  { intros m Hm l. revert m Hm. induction l as [|x l IH]; intros m Hm Hl;
      [exact Hm|].
    simpl. apply IH.
    - intros k' r'. destruct (decide (rid x = k')) as [<-|Hne].
      + rewrite lookup_insert_eq. intros Heq. inversion Heq; subst r'.
        split; [done|]. apply Hl. by left.
      + rewrite lookup_insert_ne by done. apply Hm.
    - intros r' Hr'. apply Hl. by right. }
  apply (H ∅); [|done]. intros k' r'. by rewrite lookup_empty.
Qed.

(** The store of a simulator built from unheld resources and processes
    of distinct pids that hold nothing is an initial store. *)
Lemma init_initial ps rs :
  NoDup (pid <$> ps) ->
  (forall r, r ∈ rs -> held_by r = None) ->
  (forall p, p ∈ ps -> held_resources p = ∅) ->
  initial (Simulator.init ps rs).
Proof.
  intros Hnd Hrs Hps. split_and!; [done|..]; simpl.
  - intros k r Hk. apply resources_dict_lookup in Hk as [? ?]. auto.
  - intros i p Hp. apply Hps. by eapply list_elem_of_lookup_2.
Qed.

Lemma pid_index_inj (ps : list Process) i j p q :
  NoDup (pid <$> ps) -> ps !! i = Some p -> ps !! j = Some q ->
  pid p = pid q -> i = j.
Proof.
  intros Hnd Hi Hj Heq.
  eapply NoDup_lookup; [exact Hnd| |].
  - rewrite list_lookup_fmap, Hi. reflexivity.
  - rewrite list_lookup_fmap, Hj. simpl. by rewrite Heq.
Qed.

Lemma pids_insert (ps : list Process) i p p' :
  ps !! i = Some p -> pid p' = pid p ->
  pid <$> <[i := p']> ps = pid <$> ps.
Proof.
  intros Hi Hpid. rewrite list_fmap_insert, Hpid.
  apply list_insert_id. by rewrite list_lookup_fmap, Hi.
Qed.

Lemma request_inv i k st : lock_inv st -> lock_inv (snd (request i k st)).
Proof.
  intros (Hnd & Hrid & Hheld & Hholder).
  unfold request, bind, get_resource, get_process.
  destruct (resources st !! k) as [r|] eqn:Hr; [|done].
  destruct (processes st !! i) as [p|] eqn:Hp; [|done].
  destruct (held_by r) as [holder|] eqn:Hh.
  - destruct (decide (holder = pid p)) as [->|Hne]; [done|].
    simpl. split_and!; simpl.
    + by erewrite pids_insert.
    + done.
    + intros j q k' Hq Hk'. destruct (decide (i = j)) as [->|Hij].
      * rewrite list_lookup_insert_eq in Hq by (by eapply lookup_lt_Some).
        inversion Hq; subst q. simpl in *. by eapply Hheld.
      * rewrite list_lookup_insert_ne in Hq by done. by eapply Hheld.
    + intros k' r' q Hk' Hq.
      destruct (Hholder k' r' q Hk' Hq) as (j & pj & Hj & Hpj & Hin).
      destruct (decide (i = j)) as [->|Hij].
      * exists j, (mark_blocked k p). rewrite Hp in Hj. inversion Hj; subst pj.
        rewrite list_lookup_insert_eq by (by eapply lookup_lt_Some). done.
      * exists j, pj. by rewrite list_lookup_insert_ne.
  - simpl. split_and!; simpl.
    + by erewrite pids_insert.
    + intros k' r' Hk'. destruct (decide (k = k')) as [->|Hkk].
      * rewrite lookup_insert_eq in Hk'. inversion Hk'; subst r'. simpl.
        by eapply Hrid.
      * rewrite lookup_insert_ne in Hk' by done. by eapply Hrid.
    + intros j q k' Hq Hk'.
      assert (Hold : forall q0, processes st !! j = Some q0 ->
                k' ∈ held_resources q0 -> k' <> k).
      { intros q0 Hq0 Hin ->. destruct (Hheld j q0 k Hq0 Hin) as (r0 & Hr0 & Hh0).
        congruence. }
      destruct (decide (i = j)) as [->|Hij].
      * rewrite list_lookup_insert_eq in Hq by (by eapply lookup_lt_Some).
        inversion Hq; subst q. simpl in *.
        apply elem_of_union in Hk' as [Hk'|Hk'].
        -- apply elem_of_singleton in Hk'. subst k'.
           rewrite lookup_insert_eq. by eexists.
        -- rewrite lookup_insert_ne by (intros ->; by eapply Hold).
           by eapply Hheld.
      * rewrite list_lookup_insert_ne in Hq by done.
        rewrite lookup_insert_ne by (intros ->; by eapply Hold).
        by eapply Hheld.
    + intros k' r' q Hk' Hq. destruct (decide (k = k')) as [->|Hkk].
      * rewrite lookup_insert_eq in Hk'. inversion Hk'; subst r'. simpl in Hq.
        inversion Hq; subst q. eexists i, _.
        rewrite list_lookup_insert_eq by (by eapply lookup_lt_Some).
        split_and!; [reflexivity|done|simpl; set_solver].
      * rewrite lookup_insert_ne in Hk' by done.
        destruct (Hholder k' r' q Hk' Hq) as (j & pj & Hj & Hpj & Hin).
        destruct (decide (i = j)) as [->|Hij].
        -- rewrite Hp in Hj. inversion Hj; subst pj. eexists j, _.
           rewrite list_lookup_insert_eq by (by eapply lookup_lt_Some).
           split_and!; [reflexivity|done|simpl; set_solver].
        -- exists j, pj. by rewrite list_lookup_insert_ne.
Qed.

(** The resource dictionary after the loop of [release_all] over the
    ids [l]: the resources among [l] that the process holds are freed. *)
Definition freed (who : string) (l : list string) (res : gmap string Resource)
    (k : string) : option Resource :=
  match res !! k with
  | Some r =>
      if decide (k ∈ l /\ held_by r = Some who)
      then Some (set_held_by None r) else Some r
  | None => None
  end.

Lemma release_loop i l :
  forall st p,
    processes st !! i = Some p ->
    (forall k, k ∈ l -> is_Some (resources st !! k)) ->
    exists res',
      for_each l (release_one i) st
      = (Ret tt, {| processes := processes st; resources := res' |})
      /\ forall k, res' !! k = freed (pid p) l (resources st) k.
Proof.
  induction l as [|k l IH]; intros st p Hp Hkeys.
  - exists (resources st). split; [by destruct st|].
    intros k. unfold freed. destruct (resources st !! k); [|done].
    rewrite decide_False; [done|]. intros [H _]. by apply elem_of_nil in H.
  - destruct (Hkeys k ltac:(by left)) as [r Hr].
    simpl. unfold bind at 1. unfold release_one at 1.
    unfold bind, get_resource, get_process. rewrite Hr, Hp.
    destruct (decide (held_by r = Some (pid p))) as [Hh|Hh].
    + simpl.
      destruct (IH {| processes := processes st;
                      resources := <[k := set_held_by None r]> (resources st) |}
                  p Hp) as (res' & Hrun & Hres').
      { intros k' Hk'. simpl. destruct (decide (k = k')) as [->|Hne].
        - rewrite lookup_insert_eq. by eexists.
        - rewrite lookup_insert_ne by done. apply Hkeys. by right. }
      exists res'. split; [exact Hrun|]. intros k'. rewrite Hres'.
      unfold freed. simpl. destruct (decide (k = k')) as [->|Hne].
      * rewrite lookup_insert_eq, Hr. simpl.
        rewrite decide_False by (intros [_ ?]; done).
        rewrite decide_True; [done|]. split; [by left|done].
      * rewrite lookup_insert_ne by done.
        destruct (resources st !! k') as [r'|]; [|done].
        destruct (decide (k' ∈ l /\ held_by r' = Some (pid p))) as [[? ?]|Hn].
        -- rewrite decide_True; [done|]. split; [by right|done].
        -- rewrite decide_False; [done|]. intros [Hin ?]. apply Hn.
           apply elem_of_cons in Hin as [->|Hin]; done.
    + unfold ret.
      destruct (IH st p Hp) as (res' & Hrun & Hres').
      { intros k' Hk'. apply Hkeys. by right. }
      exists res'. split; [exact Hrun|]. intros k'. rewrite Hres'.
      unfold freed. destruct (resources st !! k') as [r'|] eqn:Hr'; [|done].
      destruct (decide (k' ∈ l /\ held_by r' = Some (pid p))) as [[? ?]|Hn].
      * rewrite decide_True; [done|]. split; [by right|done].
      * rewrite decide_False; [done|]. intros [Hin Hh']. apply Hn.
        apply elem_of_cons in Hin as [->|Hin]; [|done].
        rewrite Hr in Hr'. inversion Hr'; subst r'. done.
Qed.

Lemma release_all_inv i st : lock_inv st -> lock_inv (snd (release_all i st)).
Proof.
  intros Hinv. pose proof Hinv as (Hnd & Hrid & Hheld & Hholder).
  unfold release_all. unfold bind at 1. unfold get_process at 1.
  destruct (processes st !! i) as [p|] eqn:Hp; [|done].
  destruct (release_loop i (elements (held_resources p)) st p Hp)
    as (res' & Hrun & Hres').
  { intros k Hk. apply elem_of_elements in Hk.
    destruct (Hheld i p k Hp Hk) as (r & -> & _). by eexists. }
  unfold bind at 1. rewrite Hrun. unfold bind, get_process. simpl.
  rewrite Hp. simpl.
  assert (Hlk : forall k, res' !! k
            = match resources st !! k with
              | Some r => if decide (k ∈ held_resources p)
                          then Some (set_held_by None r) else Some r
              | None => None
              end).
  { intros k. rewrite Hres'. unfold freed.
    destruct (resources st !! k) as [r|] eqn:Hr; [|done].
    destruct (decide (k ∈ held_resources p)) as [Hin|Hnin].
    - destruct (Hheld i p k Hp Hin) as (r0 & Hr0 & Hh0).
      rewrite Hr in Hr0. inversion Hr0; subst r0.
      rewrite decide_True; [done|]. split; [|done]. by apply elem_of_elements.
    - rewrite decide_False; [done|]. intros [Hin _]. apply Hnin.
      by apply elem_of_elements. }
  split_and!; simpl.
  - by erewrite pids_insert.
  - intros k r Hk. rewrite Hlk in Hk.
    destruct (resources st !! k) as [r0|] eqn:Hr0; [|done].
    destruct (decide (k ∈ held_resources p)); inversion Hk; subst r;
      simpl; by eapply Hrid.
  - intros j q k Hq Hk. destruct (decide (i = j)) as [->|Hij].
    + rewrite list_lookup_insert_eq in Hq by (by eapply lookup_lt_Some).
      inversion Hq; subst q. simpl in Hk. set_solver.
    + rewrite list_lookup_insert_ne in Hq by done.
      destruct (Hheld j q k Hq Hk) as (r & Hr & Hh).
      exists r. split; [|done]. rewrite Hlk, Hr.
      rewrite decide_False; [done|]. intros Hin.
      destruct (Hheld i p k Hp Hin) as (r' & Hr' & Hh').
      rewrite Hr in Hr'. inversion Hr'; subst r'.
      apply Hij. eapply pid_index_inj; eauto. congruence.
  - intros k r q Hk Hq. rewrite Hlk in Hk.
    destruct (resources st !! k) as [r0|] eqn:Hr0; [|done].
    destruct (decide (k ∈ held_resources p)) as [Hin|Hnin];
      inversion Hk; subst r; [done|].
    destruct (Hholder k r0 q Hr0 Hq) as (j & pj & Hj & Hpj & Hkj).
    exists j, pj. split; [|done].
    rewrite list_lookup_insert_ne; [done|]. intros ->.
    rewrite Hp in Hj. inversion Hj; subst pj. done.
Qed.

Lemma apply_ops_inv ops : forall st, lock_inv st -> lock_inv (apply_ops ops st).
Proof.
  induction ops as [|o ops IH]; intros st Hinv; [done|].
  simpl. apply IH. destruct o; simpl.
  - by apply request_inv.
  - by apply release_all_inv.
Qed.

End LockManagerFacts.

(** * Properties of the simulator *)

Module SimulatorFacts.
Import Simulator.

Section WithMetrics.
Variable record_step : list Process -> list Process.
Variable depth : nat.

(** A computation on a store of [n] process objects keeps their number
    and raises nothing but [KeyError] or, when the depth allowed is at
    most [n], [RecursionError]. *)
Definition good (n : nat) {A} (m : M Store A) : Prop :=
  forall s, length (processes s) = n ->
    match m s with
    | (Ret _, s') => length (processes s') = n
    | (Exc e, s') =>
        (e = KeyError \/ (e = RecursionError /\ (depth <= n)%nat))
        /\ length (processes s') = n
    | (NoFuel, _) => False
    end.

Lemma good_ret n {A} (a : A) : good n (ret a).
Proof. by intros s Hs. Qed.

Lemma good_bind n {A B} (m : M Store A) (k : A -> M Store B) :
  good n m -> (forall a, good n (k a)) -> good n (bind m k).
Proof.
  intros Hm Hk s Hs. unfold bind. specialize (Hm s Hs).
  destruct (m s) as [[a|e|] s1]; [|done..]. by apply Hk.
Qed.

Lemma good_for_each n {A} (l : list A) (f : A -> M Store unit) :
  (forall x, x ∈ l -> good n (f x)) -> good n (for_each l f).
Proof.
  induction l as [|x l IH]; intros Hf; simpl.
  - apply good_ret.
  - apply good_bind; [apply Hf; by left|]. intros _. apply IH.
    intros y Hy. apply Hf. by right.
Qed.

Lemma good_get_process n i : (i < n)%nat -> good n (get_process i).
Proof.
  intros Hi s Hs. unfold get_process.
  destruct (processes s !! i) eqn:Hp; [done|].
  apply lookup_ge_None in Hp. lia.
Qed.

Lemma good_set_process n i p : good n (set_process i p).
Proof. intros s Hs. simpl. by rewrite length_insert. Qed.

Lemma good_get_resource n k : good n (get_resource k).
Proof.
  intros s Hs. unfold get_resource.
  destruct (resources s !! k); [done|]. split; [by left|done].
Qed.

Lemma good_set_resource n k r : good n (set_resource k r).
Proof. by intros s Hs. Qed.

Lemma good_request n i k : (i < n)%nat -> good n (LockManager.request i k).
Proof.
  intros Hi. unfold LockManager.request.
  apply good_bind; [apply good_get_resource|]. intros r.
  apply good_bind; [by apply good_get_process|]. intros p.
  destruct (held_by r) as [holder|].
  - destruct (decide (holder = pid p)); [apply good_ret|].
    apply good_bind; [apply good_set_process|]. intros _. apply good_ret.
  - apply good_bind; [apply good_set_resource|]. intros _.
    apply good_bind; [apply good_set_process|]. intros _. apply good_ret.
Qed.

Lemma good_release_all n i : (i < n)%nat -> good n (LockManager.release_all i).
Proof.
  intros Hi. unfold LockManager.release_all.
  apply good_bind; [by apply good_get_process|]. intros p.
  apply good_bind.
  - apply good_for_each. intros k _. unfold LockManager.release_one.
    apply good_bind; [apply good_get_resource|]. intros r.
    apply good_bind; [by apply good_get_process|]. intros p'.
    destruct (decide (held_by r = Some (pid p')));
      [apply good_set_resource|apply good_ret].
  - intros _. apply good_bind; [by apply good_get_process|]. intros p'.
    apply good_set_process.
Qed.

Lemma good_indices n {A} (k : list nat -> M Store A) :
  good n (k (seq 0 n)) -> good n (bind process_indices k).
Proof.
  intros Hk s Hs. unfold bind, process_indices. rewrite Hs. by apply Hk.
Qed.

Lemma good_detect n : good n (Detector.detect_deadlock depth).
Proof.
  intros s Hs. pose proof (DetectorFacts.detect_deadlock_spec depth s) as H.
  destruct (Detector.detect_deadlock depth s) as [[[[d es] c]|e|] s1].
  - by destruct H as [-> _].
  - destruct H as (-> & [(-> & _)|(-> & Hle & _)]).
    + split; [by left|done].
    + split; [right; split; [done|lia]|done].
  - done.
Qed.

Lemma find_pid_lt p ps i : find_pid p ps = Some i -> (i < length ps)%nat.
Proof.
  revert i. induction ps as [|q ps IH]; intros i; simpl; [done|].
  destruct (decide (pid q = p)).
  - intros H. inversion H. lia.
  - destruct (find_pid p ps) as [j|]; simpl; [|done].
    intros H. inversion H. specialize (IH j eq_refl). lia.
Qed.

Lemma good_mark_cycle n c : good n (mark_cycle c).
Proof.
  unfold mark_cycle. apply good_for_each. intros p _ s Hs.
  unfold bind, _process_by_id.
  destruct (find_pid p (processes s)) as [i|] eqn:Hf; [|done].
  apply find_pid_lt in Hf.
  apply (good_bind n (get_process i)
           (fun process => set_process i (mark_deadlocked process)));
    [apply good_get_process; lia| |done].
  intros q. apply good_set_process.
Qed.

(** What [mark_cycle] may do to a store: the resources are kept, and a
    process object is kept or marked [DEADLOCKED], the latter only if its
    [pid] is in the cycle. *)
Definition marked (cycle : list string) (s s' : Store) : Prop :=
  resources s' = resources s
  /\ length (processes s') = length (processes s)
  /\ forall i p', processes s' !! i = Some p' ->
       exists p, processes s !! i = Some p
                 /\ (p' = p \/ (p' = mark_deadlocked p /\ pid p ∈ cycle)).

Lemma find_pid_Some x ps i :
  find_pid x ps = Some i -> exists p, ps !! i = Some p /\ pid p = x.
Proof.
  revert i. induction ps as [|q ps IH]; intros i; simpl; [done|].
  destruct (decide (pid q = x)) as [Hq|Hq].
  - intros H. inversion H; subst. by exists q.
  - destruct (find_pid x ps) as [j|]; simpl; [|done].
    intros H. inversion H; subst. by apply IH.
Qed.

Lemma mark_cycle_marked cycle :
  forall s, exists s', mark_cycle cycle s = (Ret tt, s') /\ marked cycle s s'.
Proof.
  induction cycle as [|x cycle IH]; intros s.
  - exists s. split; [done|]. split_and!; try done.
    intros i p' Hp'. exists p'. split; [done|by left].
  - unfold mark_cycle. simpl. unfold bind at 1. unfold bind at 1.
    unfold _process_by_id at 1.
    destruct (find_pid x (processes s)) as [i|] eqn:Hfind.
    + destruct (find_pid_Some _ _ _ Hfind) as (p & Hp & Hpid).
      unfold bind at 1. unfold get_process at 1. rewrite Hp.
      unfold set_process, modify.
      match goal with
      | |- context [for_each cycle _ ?s1] =>
          destruct (IH s1) as (s' & Hrun & Hres & Hlen & Hmark)
      end.
      exists s'. split; [exact Hrun|]. simpl in *.
      split_and!; [done|by rewrite Hlen, length_insert|].
      intros j p' Hp'. destruct (Hmark j p' Hp') as (p1 & Hp1 & Hcase).
      destruct (decide (i = j)) as [->|Hij].
      * rewrite list_lookup_insert_eq in Hp1 by (by eapply lookup_lt_Some).
        inversion Hp1; subst p1. exists p. split; [done|]. right.
        destruct Hcase as [->|[-> _]];
          (split; [done|rewrite <- Hpid; by left]).
      * rewrite list_lookup_insert_ne in Hp1 by done.
        exists p1. split; [done|].
        destruct Hcase as [->|[-> Hin]]; [by left|right].
        split; [done|by right].
    + destruct (IH s) as (s' & Hrun & Hres & Hlen & Hmark).
      exists s'. split; [exact Hrun|]. split_and!; try done.
      intros j p' Hp'. destruct (Hmark j p' Hp') as (p1 & Hp1 & Hcase).
      exists p1. split; [done|].
      destruct Hcase as [->|[-> Hin]]; [by left|right].
      split; [done|by right].
Qed.

Lemma good_sweeps n ordered_mode : good n (step_sweeps ordered_mode).
Proof.
  unfold step_sweeps. apply good_indices.
  apply good_bind.
  - apply good_for_each. intros i Hi. apply elem_of_seq in Hi.
    unfold step_process.
    apply good_bind; [apply good_get_process; lia|]. intros p.
    destruct (bool_decide (state p ∈ [DEADLOCKED; FINISHED]));
      [apply good_ret|].
    destruct (bool_decide (state p = BLOCKED) && truthy_str (current_request p)).
    { destruct (current_request p); [|apply good_ret].
      apply good_bind; [apply good_request; lia|]. intros _. apply good_ret. }
    destruct (decide (state p = RUNNING)); [|apply good_ret].
    destruct (has_all_resources p); [apply good_release_all; lia|].
    destruct (truthy_str (next_request p ordered_mode)); [|apply good_ret].
    destruct (next_request p ordered_mode); [|apply good_ret].
    apply good_bind; [apply good_request; lia|]. intros _. apply good_ret.
  - intros _. apply good_indices. apply good_for_each.
    intros i Hi. apply elem_of_seq in Hi. unfold step_complete.
    apply good_bind; [apply good_get_process; lia|]. intros p.
    destruct (bool_decide (state p = RUNNING) && has_all_resources p);
      [apply good_release_all; lia|apply good_ret].
Qed.

Lemma good_step n mode t : good n (step depth mode t).
Proof.
  unfold step. apply good_bind; [apply good_sweeps|]. intros _.
  apply good_bind; [apply good_detect|]. intros [[d es] c].
  destruct d; [|apply good_ret].
  apply good_bind; [apply good_mark_cycle|]. intros _. apply good_ret.
Qed.

(** [step] returns, or raises [KeyError], or raises [RecursionError],
    the latter only when the depth allowed is at most the number of
    process objects. *)
Lemma step_outcome mode t s :
  match fst (step depth mode t s) with
  | Ret _ => True
  | Exc e =>
      e = KeyError
      \/ (e = RecursionError /\ (depth <= length (processes s))%nat)
  | NoFuel => False
  end.
Proof.
  pose proof (good_step (length (processes s)) mode t s eq_refl) as H.
  destruct (step depth mode t s) as [[b|e|] s1]; simpl;
    [done|by destruct H|done].
Qed.

(** The store after one iteration of the loop of [run] that does not
    leave the loop. *)
Definition advance (mode : string) (t : Z) (s : Store) : Store :=
  snd (do_record_step record_step (snd (step depth mode t s))).

(** The store after [j] such iterations, the first at time [t]. *)
Fixpoint store_after (mode : string) (j : nat) (t : Z) (s : Store) : Store :=
  match j with
  | O => s
  | S j' => store_after mode j' (t + 1) (advance mode t s)
  end.

(** The iteration at time [t] from store [s] leaves the loop: [step]
    reports a deadlock, or every process is [FINISHED] after it, or it
    raises. *)
Definition halts (mode : string) (t : Z) (s : Store) : Prop :=
  match fst (step depth mode t s) with
  | Ret true => True
  | Ret false => all_finished (advance mode t s) = true
  | _ => True
  end.

Lemma run_loop_spec mode n :
  forall t k d s,
  exists j : nat,
    (j <= n)%nat
    /\ (forall i : nat, (S i < j)%nat ->
          ~ halts mode (t + Z.of_nat i) (store_after mode i t s))
    /\ match run_loop record_step depth mode n t k d s with
       | (Ret (d', k'), s') =>
           k' = (k + j)%nat
           /\ s' = store_after mode j t s
           /\ ((j = 0%nat /\ n = 0%nat /\ d' = d)
               \/ (exists j', j = S j'
                    /\ fst (step depth mode (t + Z.of_nat j')
                               (store_after mode j' t s)) = Ret d'
                    /\ (d' = true \/ all_finished s' = true \/ j = n)))
       | (Exc e, s') =>
           exists j', j = S j'
             /\ step depth mode (t + Z.of_nat j') (store_after mode j' t s)
                = (Exc e, s')
             /\ (e = KeyError
                 \/ (e = RecursionError
                     /\ (depth <= length (processes
                                            (store_after mode j' t s)))%nat))
       | (NoFuel, _) => False
       end.
Proof.
  induction n as [|n IH]; intros t k d s.
  - exists 0%nat. split; [lia|]. split; [intros i Hi; lia|].
    simpl. unfold ret. split_and!; [lia|done|]. by left.
  - cbn [run_loop]. pose proof (step_outcome mode t s) as Hout.
    destruct (step depth mode t s) as [[d1|e|] s1] eqn:Hstep; simpl in Hout;
      [| |done].
    + assert (Hadv : advance mode t s = snd (do_record_step record_step s1))
        by (unfold advance; by rewrite Hstep).
      destruct d1.
      * exists 1%nat. split; [lia|]. split; [intros i Hi; lia|].
        split_and!; [lia|simpl; by rewrite Hadv|].
        right. exists 0%nat. simpl. rewrite Z.add_0_r, Hstep.
        split_and!; try done. by left.
      * destruct (all_finished (snd (do_record_step record_step s1))) eqn:Hfin.
        -- exists 1%nat. split; [lia|]. split; [intros i Hi; lia|].
           split_and!; [lia|simpl; by rewrite Hadv|].
           right. exists 0%nat. simpl. rewrite Z.add_0_r, Hstep.
           split_and!; try done. right. by left.
        -- destruct (IH (t + 1)%Z (S k) false
                        (snd (do_record_step record_step s1)))
             as (j & Hj & Hbefore & Hres).
           rewrite <- Hadv in *.
           exists (S j). split; [lia|]. split.
           { intros [|i] Hi.
             - simpl. rewrite Z.add_0_r. unfold halts. rewrite Hstep. simpl.
               rewrite Hfin. done.
             - simpl store_after.
               replace (t + Z.of_nat (S i))%Z with (t + 1 + Z.of_nat i)%Z
                 by lia.
               apply Hbefore. lia. }
           destruct (run_loop record_step depth mode n (t + 1) (S k) false
                       (advance mode t s)) as [[[d' k']|e|] s'];
             [|..|done].
           ++ destruct Hres as (-> & -> & Hcase). split_and!; [lia|done|].
              right. destruct Hcase as [(-> & -> & ->)|(j' & -> & Hs & Hc)].
              ** exists 0%nat. simpl. rewrite Z.add_0_r, Hstep.
                 split_and!; try done. by right; right.
              ** exists (S j'). simpl store_after.
                 replace (t + Z.of_nat (S j'))%Z with (t + 1 + Z.of_nat j')%Z
                   by lia.
                 split_and!; try done.
                 destruct Hc as [?|[?|?]]; [by left|by right; left|].
                 right; right. lia.
           ++ destruct Hres as (j' & -> & Hs & He).
              exists (S j'). simpl store_after.
              replace (t + Z.of_nat (S j'))%Z with (t + 1 + Z.of_nat j')%Z
                by lia.
              done.
    + exists 1%nat. split; [lia|]. split; [intros i Hi; lia|].
      exists 0%nat. simpl. by rewrite Z.add_0_r.
Qed.

End WithMetrics.

End SimulatorFacts.

(** * Properties of the workers *)

Module BankerWorkerFacts.
Import Worker Worker.BankerWorker.

Section BuildRequest.
Variable R : Random.
Hypothesis R_ok : Random_ok R.

Lemma randint_spec a b r :
  (a <= b)%Z ->
  exists x r', randint R a b r = (Ret x, r') /\ (a <= x <= b)%Z.
Proof.
  intros Hab. unfold randint.
  assert (Hw : (0 < b + 1 - a)%Z) by lia.
  rewrite (proj2 (Z.ltb_lt _ _) Hw).
  destruct R_ok as [_ Hbelow]. specialize (Hbelow _ r Hw).
  destruct (rng_randbelow R (b + 1 - a) r) as [x r']. simpl in Hbelow.
  exists (a + x)%Z, r'. split; [done|lia].
Qed.

Lemma randrange_spec n r :
  (0 < n)%Z ->
  exists x r', randrange R n r = (Ret x, r') /\ (0 <= x < n)%Z.
Proof.
  intros Hn. unfold randrange. rewrite (proj2 (Z.ltb_lt _ _) Hn).
  destruct R_ok as [_ Hbelow]. specialize (Hbelow _ r Hn).
  destruct (rng_randbelow R n r) as [x r']. by exists x, r'.
Qed.

(** What the first loop draws for a class of remaining need [need]. *)
Definition drawn (need q : Z) : Prop :=
  (need <= 0 /\ q = 0)%Z \/ (0 < need /\ 1 <= q <= need)%Z.

Lemma draw_request_spec remaining :
  forall r, exists request r',
    draw_request R remaining r = (Ret request, r')
    /\ Forall2 drawn remaining request.
Proof.
  induction remaining as [|need remaining IH]; intros r.
  - exists [], r. split; [done|constructor].
  - simpl. destruct (need <=? 0)%Z eqn:Hneed.
    + apply Z.leb_le in Hneed. destruct (IH r) as (request & r' & Hrun & Hall).
      exists (0%Z :: request), r'. unfold bind, ret. rewrite Hrun.
      split; [done|]. constructor; [by left|done].
    + apply Z.leb_gt in Hneed.
      destruct (randint_spec 1 need r) as (x & r1 & Hx & Hrange); [lia|].
      destruct (IH r1) as (request & r' & Hrun & Hall).
      exists (x :: request), r'. unfold bind, ret. rewrite Hx, Hrun.
      split; [done|]. constructor; [right; lia|done].
Qed.

Lemma drawn_all_zero remaining request :
  Forall2 drawn remaining request ->
  forallb (fun value => (value =? 0)%Z) request = true
  <-> Forall (fun need => (need <= 0)%Z) remaining.
Proof.
  induction 1 as [|need q remaining request Hd _ IH]; simpl.
  - split; [constructor|done].
  - rewrite andb_true_iff, IH, Forall_cons, Z.eqb_eq.
    destruct Hd as [[? ->]|[? ?]]; split; intros [? ?]; split; try done; lia.
Qed.

Lemma drawn_zero remaining request :
  Forall2 drawn remaining request ->
  Forall (fun need => (need <= 0)%Z) remaining ->
  request = replicate (length remaining) 0%Z.
Proof.
  induction 1 as [|need q remaining request Hd _ IH]; simpl; [done|].
  intros Hall. apply Forall_cons in Hall as [Hneed Hall].
  rewrite IH by done. destruct Hd as [[_ ->]|[? _]]; [done|lia].
Qed.

(** The three behaviours of [_build_request]. *)
Lemma build_request_cases remaining r :
  match remaining with
  | [] => _build_request R remaining r = (Exc ValueError, r)
  | _ :: _ =>
      exists request r',
        _build_request R remaining r = (Ret request, r')
        /\ length request = length remaining
        /\ ((Exists (fun need => (0 < need)%Z) remaining
             /\ Forall2 drawn remaining request)
            \/ (Forall (fun need => (need <= 0)%Z) remaining
                /\ exists idx, (idx < length remaining)%nat
                     /\ request
                        = <[idx := 1%Z]> (replicate (length remaining) 0%Z)))
  end.
Proof.
  destruct remaining as [|need0 rest]; [done|].
  set (remaining := need0 :: rest).
  unfold _build_request, bind.
  destruct (draw_request_spec remaining r) as (request & r1 & Hrun & Hall).
  rewrite Hrun.
  pose proof (Forall2_length _ _ _ Hall) as Hlen.
  destruct (forallb (fun value => (value =? 0)%Z) request) eqn:Hzero.
  - apply (drawn_all_zero _ _ Hall) in Hzero.
    destruct (randrange_spec (Z.of_nat (length remaining)) r1)
      as (idx & r' & Hidx & Hrange); [simpl; lia|].
    rewrite Hidx. unfold assign_one.
    assert (Hin : ((0 <=? idx) && (idx <? Z.of_nat (length request)))%Z = true).
    { apply andb_true_iff. split; [apply Z.leb_le|apply Z.ltb_lt]; lia. }
    rewrite Hin. exists (<[Z.to_nat idx := 1%Z]> request), r'.
    split; [done|]. split; [by rewrite length_insert|].
    right. split; [done|]. exists (Z.to_nat idx). split; [lia|].
    by rewrite (drawn_zero _ _ Hall Hzero).
  - exists request, r1. split; [done|]. split; [done|]. left. split; [|done].
    assert (Hn : ~ Forall (fun need => (need <= 0)%Z) remaining).
    { intros Hn. apply (drawn_all_zero _ _ Hall) in Hn. congruence. }
    apply not_Forall_Exists in Hn; [|intros x; apply _].
    eapply Exists_impl; [exact Hn|]. simpl. intros x Hx. lia.
Qed.

End BuildRequest.

End BankerWorkerFacts.

Module WorkerFacts.
Import Worker.

Local Open Scope Q_scope.

Lemma max0_nonneg amount : 0 <= max0 amount.
Proof.
  unfold max0. destruct (Qlt_le_dec 0 amount) as [H|H].
  - by apply Qlt_le_weak.
  - apply Qle_refl.
Qed.

Lemma Qplus_nonneg a b : 0 <= a -> 0 <= b -> 0 <= a + b.
Proof. intros Ha Hb. apply (Qplus_le_compat 0 a 0 b Ha Hb). Qed.

Lemma round_half_even_nonneg x : 0 <= x -> (0 <= round_half_even x)%Z.
Proof.
  intros Hx. apply Qfloor_resp_le in Hx. change (Qfloor 0) with 0%Z in Hx.
  unfold round_half_even.
  destruct (Qcompare (x - inject_Z (Qfloor x)) (1 # 2)); [|lia..].
  destruct (Z.even (Qfloor x)); lia.
Qed.

Lemma round3_nonneg x : 0 <= x -> 0 <= round3 x.
Proof.
  intros Hx. unfold round3. apply Qle_shift_div_l; [done|].
  change (0 * 1000) with (inject_Z 0). rewrite <- Zle_Qle.
  apply round_half_even_nonneg.
  apply Qmult_le_0_compat; [done|discriminate].
Qed.

Section Frames.
Context {Ext : Type}.
Variable env : Env.

(** The counters a worker reports are not negative. *)
Definition wf (s : State Ext) : Prop :=
  (0 <= retries (self s))%Z /\ 0 <= wait_time (self s).

(** Nothing was put on the queue between [s] and [s']. *)
Definition same (s s' : State Ext) : Prop :=
  metrics_queue (self s') = metrics_queue (self s)
  /\ name (self s') = name (self s)
  /\ (wf s -> wf s').

Definition quiet {A} (m : M (State Ext) A) : Prop :=
  forall s, same s (snd (m s)).

Lemma same_refl s : same s s.
Proof. by split_and!. Qed.

Lemma same_trans s1 s2 s3 : same s1 s2 -> same s2 s3 -> same s1 s3.
Proof.
  intros (Hq1 & Hn1 & Hw1) (Hq2 & Hn2 & Hw2).
  split_and!; [congruence|congruence|auto].
Qed.

Lemma quiet_ret {A} (a : A) : quiet (ret a).
Proof. intros s. apply same_refl. Qed.

Lemma quiet_raise {A} e : quiet (raise (A := A) e).
Proof. intros s. apply same_refl. Qed.

Lemma quiet_get : quiet get.
Proof. intros s. apply same_refl. Qed.

Lemma quiet_bind {A B} (m : M (State Ext) A) (k : A -> M (State Ext) B) :
  quiet m -> (forall a, quiet (k a)) -> quiet (bind m k).
Proof.
  intros Hm Hk s. unfold bind. specialize (Hm s).
  destruct (m s) as [[a|e|] s1]; simpl in *; [|done..].
  eapply same_trans; [exact Hm|]. apply Hk.
Qed.

Lemma quiet_for_each {A} (l : list A) (f : A -> M (State Ext) unit) :
  (forall x, quiet (f x)) -> quiet (for_each l f).
Proof.
  intros Hf. induction l as [|x l IH]; simpl.
  - apply quiet_ret.
  - apply quiet_bind; [apply Hf|]. intros _. apply IH.
Qed.

Lemma quiet_set_sys y : quiet (modify (set_sys y)).
Proof. intros s. by split_and!. Qed.

Lemma quiet_set_acquired (f : State Ext -> list nat) :
  quiet (modify (fun s => set_acquired (f s) s)).
Proof. intros s. by split_and!. Qed.

Lemma quiet_set_ext (f : State Ext -> Ext) :
  quiet (modify (fun s => set_ext (f s) s)).
Proof. intros s. by split_and!. Qed.

Lemma quiet_time_time : quiet (time_time env).
Proof. intros s. by split_and!. Qed.

Lemma quiet_time_sleep d : quiet (time_sleep d).
Proof.
  intros s. unfold time_sleep. destruct (Qlt_le_dec d 0); by split_and!.
Qed.

Lemma quiet_lock_acquire lock : quiet (lock_acquire env lock).
Proof.
  intros s. unfold lock_acquire, next_acquire.
  destruct (acquire_answers env (acquire_calls (sys s))); by split_and!.
Qed.

Lemma quiet_lock_acquire_timeout lock t :
  quiet (lock_acquire_timeout env lock t).
Proof.
  intros s. unfold lock_acquire_timeout, next_acquire.
  destruct (acquire_answers env (acquire_calls (sys s))); by split_and!.
Qed.

Lemma quiet_lock_release lock : quiet (lock_release env lock).
Proof.
  intros s. unfold lock_release.
  destruct (release_fails env (release_calls (sys s))); by split_and!.
Qed.

Lemma quiet_lock_at idx : quiet (lock_at idx).
Proof.
  intros s. unfold lock_at. destruct (locks (self s) !! idx); apply same_refl.
Qed.

Lemma quiet_ignoring_errors m : quiet m -> quiet (ignoring_errors m).
Proof.
  intros Hm s. unfold ignoring_errors. specialize (Hm s).
  by destruct (m s) as [[a|e|] s1].
Qed.

Lemma quiet_add_wait_time amount : quiet (add_wait_time amount).
Proof.
  intros s. split_and!; [done..|]. intros [Hr Hw]. split; [done|]. simpl.
  apply Qplus_nonneg; [done|apply max0_nonneg].
Qed.

Lemma quiet_increment_retry : quiet increment_retry.
Proof.
  intros s. split_and!; [done..|]. intros [Hr Hw]. split; [simpl; lia|done].
Qed.

Lemma quiet_record_start : quiet (record_start env).
Proof.
  unfold record_start. apply quiet_bind; [apply quiet_time_time|].
  intros t s. by split_and!.
Qed.

Lemma quiet_release_acquired : quiet (release_acquired env).
Proof.
  unfold release_acquired. apply quiet_bind; [apply quiet_get|]. intros s.
  apply quiet_for_each. intros idx.
  apply quiet_bind; [apply quiet_lock_at|]. intros lock.
  apply quiet_lock_release.
Qed.

Lemma quiet_release_acquired_quietly : quiet (release_acquired_quietly env).
Proof.
  unfold release_acquired_quietly. apply quiet_bind; [apply quiet_get|].
  intros s. apply quiet_for_each. intros idx. apply quiet_ignoring_errors.
  apply quiet_bind; [apply quiet_lock_at|]. intros lock.
  apply quiet_lock_release.
Qed.

Lemma for_each_ignoring_returns {A} (l : list A)
    (f : A -> M (State Ext) unit) :
  (forall x s, fst (f x s) <> NoFuel) ->
  forall s, fst (for_each l (fun x => ignoring_errors (f x)) s) = Ret tt.
Proof.
  intros Hf. induction l as [|x l IH]; intros s; [done|].
  simpl. unfold bind. unfold ignoring_errors at 1.
  specialize (Hf x s). destruct (f x s) as [[[]|e|] s1]; simpl in *;
    [apply IH..|done].
Qed.

Lemma release_at_ends idx (s : State Ext) :
  fst ((do lock <- lock_at idx; lock_release env lock) s) <> NoFuel.
Proof.
  unfold bind, lock_at. destruct (locks (self s) !! idx); [|done].
  unfold lock_release. by destruct (release_fails env (release_calls (sys s))).
Qed.

(** The release in a [finally] or before a backoff always returns. *)
Lemma release_acquired_quietly_returns (s : State Ext) :
  fst (release_acquired_quietly env s) = Ret tt.
Proof.
  unfold release_acquired_quietly. unfold bind at 1. unfold get.
  apply for_each_ignoring_returns. intros idx s0. apply release_at_ends.
Qed.

(** One record was put on the queue [q], with the given status, the
    worker's name and counters that are not negative. *)
Definition emits (q : list Metrics) (who status : string) (s' : State Ext)
  : Prop :=
  exists r,
    metrics_queue (self s') = Some (q ++ [r])
    /\ metric_status r = status
    /\ metric_name r = who
    /\ (0 <= metric_retries r)%Z
    /\ 0 <= metric_wait_time r.

Lemma record_end_emits status (s : State Ext) q :
  metrics_queue (self s) = Some q -> wf s ->
  exists s', record_end env status s = (Ret tt, s')
             /\ emits q (name (self s)) status s'.
Proof.
  intros Hq [Hr Hw]. unfold record_end, bind, get. rewrite Hq.
  eexists. split; [reflexivity|]. eexists. simpl. rewrite Hq. simpl.
  split_and!; try reflexivity; [done|]. by apply round3_nonneg.
Qed.

Lemma record_end_no_queue status (s : State Ext) :
  metrics_queue (self s) = None -> record_end env status s = (Ret tt, s).
Proof. intros Hq. unfold record_end, bind, get. by rewrite Hq. Qed.

(** What a [run] has put on the queue when it is over: one record, ["ok"]
    if it returned and ["erro"] if it raised; nothing if it never ends. *)
Definition reported {A} (q : list Metrics) (who : string)
    (r : outcome A * State Ext) : Prop :=
  match r with
  | (Ret _, s') => emits q who "ok" s'
  | (Exc _, s') => emits q who "erro" s'
  | (NoFuel, s') => metrics_queue (self s') = Some q
  end.

Lemma try_except_reported {A} (body : M (State Ext) A) q (s : State Ext) :
  metrics_queue (self s) = Some q -> wf s ->
  match body s with
  | (Ret _, s') => emits q (name (self s)) "ok" s'
  | (_, s') => same s s'
  end ->
  reported q (name (self s)) (try_except body (record_end env "erro") s).
Proof.
  intros Hq Hwf Hbody. unfold try_except.
  destruct (body s) as [[a|e|] s1]; simpl; [done| |].
  - destruct Hbody as (Hq1 & Hn1 & Hw1).
    destruct (record_end_emits "erro" s1 q) as (s2 & -> & Hem);
      [congruence|auto|]. simpl. by rewrite <- Hn1.
  - destruct Hbody as (Hq1 & _). congruence.
Qed.

Lemma then_record_end_ok {A} (pre : M (State Ext) A) q (s : State Ext) :
  metrics_queue (self s) = Some q -> wf s -> quiet pre ->
  match (do_ pre; record_end env "ok") s with
  | (Ret _, s') => emits q (name (self s)) "ok" s'
  | (_, s') => same s s'
  end.
Proof.
  intros Hq Hwf Hpre. unfold bind. specialize (Hpre s).
  destruct (pre s) as [[a|e|] s1]; simpl in *; [|done..].
  destruct Hpre as (Hq1 & Hn1 & Hw1).
  destruct (record_end_emits "ok" s1 q) as (s2 & -> & Hem);
    [congruence|auto|]. by rewrite <- Hn1.
Qed.

Lemma try_finally_reported {A} (body : M (State Ext) A) q who (s : State Ext) :
  reported q who (body s) ->
  reported q who (try_finally body (release_acquired_quietly env) s).
Proof.
  intros Hbody. unfold try_finally.
  destruct (body s) as [[a|e|] s1]; simpl in *; [| |done].
  - pose proof (release_acquired_quietly_returns s1) as Hret.
    pose proof (quiet_release_acquired_quietly s1) as (Hq & _).
    destruct (release_acquired_quietly env s1) as [[[]|e|] s2];
      simpl in *; try done.
    destruct Hbody as (r & Hr & ?). exists r. by rewrite Hq.
  - pose proof (release_acquired_quietly_returns s1) as Hret.
    pose proof (quiet_release_acquired_quietly s1) as (Hq & _).
    destruct (release_acquired_quietly env s1) as [[[]|e'|] s2];
      simpl in *; try done.
    destruct Hbody as (r & Hr & ?). exists r. by rewrite Hq.
Qed.

Lemma record_start_returns (s : State Ext) :
  exists s1, record_start env s = (Ret tt, s1) /\ same s s1.
Proof.
  eexists. split; [reflexivity|]. apply (quiet_record_start s).
Qed.

(** A worker without a queue stays without one. *)
Definition stays_none {A} (m : M (State Ext) A) : Prop :=
  forall s, metrics_queue (self s) = None ->
            metrics_queue (self (snd (m s))) = None.

Lemma quiet_stays_none {A} (m : M (State Ext) A) : quiet m -> stays_none m.
Proof. intros Hm s Hs. destruct (Hm s) as (Hq & _). congruence. Qed.

Lemma stays_none_bind {A B} (m : M (State Ext) A) (k : A -> M (State Ext) B) :
  stays_none m -> (forall a, stays_none (k a)) -> stays_none (bind m k).
Proof.
  intros Hm Hk s Hs. unfold bind. specialize (Hm s Hs).
  destruct (m s) as [[a|e|] s1]; simpl in *; [|done..]. by apply Hk.
Qed.

Lemma stays_none_record_end status : stays_none (record_end env status).
Proof. intros s Hs. by rewrite record_end_no_queue. Qed.

Lemma stays_none_try_except {A} (body : M (State Ext) A) handler :
  stays_none body -> stays_none handler ->
  stays_none (try_except body handler).
Proof.
  intros Hb Hh s Hs. unfold try_except. specialize (Hb s Hs).
  destruct (body s) as [[a|e|] s1]; simpl in *; [done| |done].
  specialize (Hh s1 Hb). by destruct (handler s1) as [[a|e'|] s2].
Qed.

Lemma stays_none_try_finally {A} (body : M (State Ext) A) final :
  stays_none body -> stays_none final ->
  stays_none (try_finally body final).
Proof.
  intros Hb Hf s Hs. unfold try_finally. specialize (Hb s Hs).
  destruct (body s) as [[a|e|] s1]; simpl in *; [| |done].
  - specialize (Hf s1 Hb). by destruct (final s1) as [[a'|e'|] s2].
  - specialize (Hf s1 Hb). by destruct (final s1) as [[a'|e'|] s2].
Qed.

End Frames.

(** *** NaiveWorker.run *)

Section NaiveRun.
Variable env : Env.

Lemma quiet_acquire_one item : quiet (NaiveWorker.acquire_one env item).
Proof.
  destruct item as [idx lock]. unfold NaiveWorker.acquire_one.
  apply quiet_bind; [apply quiet_time_time|]. intros wait_start.
  apply quiet_bind; [apply quiet_lock_acquire|]. intros _.
  apply quiet_bind; [apply quiet_time_time|]. intros t.
  apply quiet_bind; [apply quiet_add_wait_time|]. intros _.
  apply quiet_bind; [apply quiet_set_acquired|]. intros _.
  apply quiet_bind; [apply quiet_get|]. intros s.
  apply quiet_time_sleep.
Qed.

Lemma quiet_naive_body :
  quiet (do s <- get;
         do_ for_each (enumerated_locks (self s))
               (NaiveWorker.acquire_one env);
         do_ release_acquired env;
         modify (set_acquired [])).
Proof.
  apply quiet_bind; [apply quiet_get|]. intros s.
  apply quiet_bind; [apply quiet_for_each, quiet_acquire_one|]. intros _.
  apply quiet_bind; [apply quiet_release_acquired|]. intros _.
  apply (quiet_set_acquired (fun _ => [])).
Qed.

Lemma naive_body_assoc (s : State unit) :
  (do s <- get;
   do_ for_each (enumerated_locks (self s)) (NaiveWorker.acquire_one env);
   do_ release_acquired env;
   do_ modify (set_acquired []);
   record_end env "ok") s
  = (do_ (do s <- get;
          do_ for_each (enumerated_locks (self s))
                (NaiveWorker.acquire_one env);
          do_ release_acquired env;
          modify (set_acquired []));
     record_end env "ok") s.
Proof.
  unfold bind, get.
  destruct (for_each (enumerated_locks (self s))
              (NaiveWorker.acquire_one env) s) as [[[]|e|] s1]; [|done..].
  destruct (release_acquired env s1) as [[[]|e|] s2]; done.
Qed.

Lemma naive_run_reported (s : State unit) q :
  metrics_queue (self s) = Some q -> wf s ->
  reported q (name (self s)) (NaiveWorker.run env s).
Proof.
  intros Hq Hwf. unfold NaiveWorker.run.
  destruct (record_start_returns env s) as (s1 & Hstart & Hq1 & Hn1 & Hw1).
  unfold bind at 1. rewrite Hstart. unfold bind at 1.
  unfold modify at 1. cbv beta iota.
  set (s0 := set_acquired [] s1).
  assert (Hq0 : metrics_queue (self s0) = Some q) by (simpl; congruence).
  assert (Hw0 : wf s0) by (by apply Hw1).
  replace (name (self s)) with (name (self s0)) by done.
  apply try_finally_reported.
  apply try_except_reported; [done..|].
  rewrite naive_body_assoc.
  apply then_record_end_ok; [done..|apply quiet_naive_body].
Qed.

Lemma naive_run_no_queue : stays_none (NaiveWorker.run env).
Proof.
  unfold NaiveWorker.run.
  apply stays_none_bind; [apply quiet_stays_none, quiet_record_start|].
  intros _. apply stays_none_bind;
    [apply quiet_stays_none, (quiet_set_acquired (fun _ => []))|].
  intros _. apply stays_none_try_finally;
    [|apply quiet_stays_none, quiet_release_acquired_quietly].
  apply stays_none_try_except; [|apply stays_none_record_end].
  apply stays_none_bind; [apply quiet_stays_none, quiet_get|]. intros s.
  apply stays_none_bind;
    [apply quiet_stays_none, quiet_for_each, quiet_acquire_one|]. intros _.
  apply stays_none_bind;
    [apply quiet_stays_none, quiet_release_acquired|]. intros _.
  apply stays_none_bind;
    [apply quiet_stays_none, (quiet_set_acquired (fun _ => []))|]. intros _.
  apply stays_none_record_end.
Qed.

End NaiveRun.

(** *** The locks in the order of their acquisition *)

Lemma enumerated_lookup (w : Worker) k it :
  enumerated_locks w !! k = Some it ->
  it.1 = k /\ locks w !! k = Some it.2.
Proof.
  unfold enumerated_locks. intros H.
  apply lookup_zip_with_Some in H as (i & lock & -> & Hi & Hl).
  apply lookup_seq in Hi as [-> _]. split; [done|]. simpl.
  rewrite list_lookup_fmap in Hl.
  destruct (zip (locks w) (lock_labels w) !! k) as [[a b]|] eqn:Hz;
    [|done].
  apply lookup_zip_with_Some in Hz as (a' & b' & Heq & Ha & _).
  inversion Heq; subst. simpl in Hl. by inversion Hl; subst.
Qed.

Lemma enumerated_fst (w : Worker) k :
  (k <= length (enumerated_locks w))%nat ->
  (take k (enumerated_locks w)).*1 = seq 0 k.
Proof.
  intros Hk. apply list_eq. intros i.
  rewrite list_lookup_fmap.
  destruct (decide (i < k)%nat) as [Hi|Hi].
  - rewrite lookup_take_lt by done.
    destruct (enumerated_locks w !! i) as [it|] eqn:Hit.
    + apply enumerated_lookup in Hit as [Hfst _]. simpl.
      symmetry. apply lookup_seq. by split.
    + apply lookup_ge_None in Hit. lia.
  - rewrite lookup_take_ge by lia. simpl. symmetry.
    apply lookup_ge_None. rewrite length_seq. lia.
Qed.

Lemma enumerated_snd (w : Worker) k :
  (k <= length (enumerated_locks w))%nat ->
  (take k (enumerated_locks w)).*2 = take k (locks w).
Proof.
  intros Hk. apply list_eq. intros i.
  rewrite list_lookup_fmap.
  destruct (decide (i < k)%nat) as [Hi|Hi].
  - rewrite !lookup_take_lt by done.
    destruct (enumerated_locks w !! i) as [it|] eqn:Hit.
    + apply enumerated_lookup in Hit as [_ Hsnd]. simpl. by rewrite Hsnd.
    + apply lookup_ge_None in Hit. lia.
  - by rewrite !lookup_take_ge by lia.
Qed.

Lemma locks_of_seq (l : list nat) k :
  (k <= length l)%nat -> omap (fun i => l !! i) (seq 0 k) = take k l.
Proof.
  induction k as [|k IH]; intros Hk; [done|].
  rewrite seq_S, omap_app, IH by lia. simpl.
  destruct (l !! k) as [x|] eqn:Hx.
  - by rewrite (take_S_r _ _ x).
  - apply lookup_ge_None in Hx. lia.
Qed.

(** *** RetryWorker.run *)

Section RetryRun.
Variable R : Random.
Variable env : Env.

Local Abbreviation RState := (State (RetryWorker.Retry R)).

Lemma quiet_attempt items : quiet (RetryWorker.attempt R env items).
Proof.
  induction items as [|[idx lock] items IH]; simpl.
  - apply quiet_ret.
  - apply quiet_bind; [apply quiet_get|]. intros s.
    apply quiet_bind; [apply quiet_time_time|]. intros wait_start.
    apply quiet_bind; [apply quiet_lock_acquire_timeout|]. intros got.
    apply quiet_bind; [apply quiet_time_time|]. intros t.
    apply quiet_bind; [apply quiet_add_wait_time|]. intros _.
    destruct got; simpl.
    + apply quiet_bind; [apply quiet_set_acquired|]. intros _.
      apply quiet_bind; [apply quiet_time_sleep|]. intros _. apply IH.
    + apply quiet_bind; [apply quiet_increment_retry|]. intros _.
      apply quiet_ret.
Qed.

Lemma quiet_backoff : quiet (RetryWorker.backoff R env).
Proof.
  unfold RetryWorker.backoff.
  apply quiet_bind; [apply quiet_release_acquired_quietly|]. intros _.
  apply quiet_bind; [apply quiet_get|]. intros s.
  destruct (uniform R 0 (hold_time (self s) / 2)
              (RetryWorker._rng R (ext s))) as [u r'].
  apply quiet_bind; [apply (quiet_set_ext (fun _ => _))|]. intros _.
  apply quiet_bind; [apply quiet_time_time|]. intros start_sleep.
  apply quiet_bind; [apply quiet_time_sleep|]. intros _.
  apply quiet_bind; [apply quiet_time_time|]. intros t.
  apply quiet_add_wait_time.
Qed.

(** An iteration either leaves the loop after the record ["ok"], or puts
    nothing on the queue. *)
Definition iteration_post (q : list Metrics) (s : RState)
    (r : outcome bool * RState) : Prop :=
  match r with
  | (Ret true, s') => emits q (name (self s)) "ok" s'
  | (_, s') => same s s'
  end.

Lemma bind_iteration_post {A} q (s s0 : RState) (m : M RState A)
    (k : A -> M RState bool) :
  quiet m -> same s s0 ->
  (forall a s1, same s s1 -> iteration_post q s (k a s1)) ->
  iteration_post q s (bind m k s0).
Proof.
  intros Hm Hs Hk. unfold bind. specialize (Hm s0).
  destruct (m s0) as [[a|e|] s1]; simpl in *.
  - apply Hk. by eapply same_trans.
  - by eapply same_trans.
  - by eapply same_trans.
Qed.

Lemma iteration_cases q (s : RState) :
  metrics_queue (self s) = Some q -> wf s ->
  iteration_post q s (RetryWorker.iteration R env s).
Proof.
  intros Hq Hwf. unfold RetryWorker.iteration.
  apply bind_iteration_post;
    [apply (quiet_set_acquired (fun _ => []))|apply same_refl|].
  intros _ s1 Hs1.
  apply bind_iteration_post; [apply quiet_get|done|]. intros s1' s2 Hs2.
  apply bind_iteration_post; [apply quiet_attempt|done|]. intros failed s3 Hs3.
  apply bind_iteration_post; [apply quiet_get|done|]. intros s3' s4 Hs4.
  destruct (negb failed
            && (length (acquired s3') =? length (locks (self s3')))%nat).
  - apply bind_iteration_post; [apply quiet_time_sleep|done|].
    intros _ s5 Hs5.
    apply bind_iteration_post; [apply quiet_release_acquired|done|].
    intros _ s6 (Hq6 & Hn6 & Hw6).
    destruct (record_end_emits env "ok" s6 q) as (s7 & Hrun & Hem);
      [congruence|auto|].
    unfold bind. rewrite Hrun. simpl. by rewrite <- Hn6.
  - apply bind_iteration_post; [apply quiet_backoff|done|].
    intros _ s5 Hs5. done.
Qed.

Lemma loop_cases q fuel :
  forall s : RState,
    metrics_queue (self s) = Some q -> wf s ->
    match RetryWorker.loop R env fuel s with
    | (Ret _, s') => emits q (name (self s)) "ok" s'
    | (_, s') => same s s'
    end.
Proof.
  induction fuel as [|fuel IH]; intros s Hq Hwf; simpl.
  - apply same_refl.
  - pose proof (iteration_cases q s Hq Hwf) as Hit. unfold bind.
    destruct (RetryWorker.iteration R env s) as [[[|]|e|] s1];
      simpl in Hit; [done| |done..].
    destruct Hit as (Hq1 & Hn1 & Hw1).
    specialize (IH s1 ltac:(congruence) ltac:(auto)).
    destruct (RetryWorker.loop R env fuel s1) as [[[]|e|] s2].
    + by rewrite <- Hn1.
    + eapply same_trans; [|exact IH]. by split_and!.
    + eapply same_trans; [|exact IH]. by split_and!.
Qed.

Lemma retry_run_reported fuel (s : RState) q :
  metrics_queue (self s) = Some q -> wf s ->
  reported q (name (self s)) (RetryWorker.run R env fuel s).
Proof.
  intros Hq Hwf. unfold RetryWorker.run.
  destruct (record_start_returns env s) as (s1 & Hstart & Hq1 & Hn1 & Hw1).
  unfold bind. rewrite Hstart. rewrite <- Hn1.
  apply try_except_reported; [congruence|auto|].
  apply loop_cases; [congruence|auto].
Qed.

Lemma stays_none_loop fuel : stays_none (RetryWorker.loop R env fuel).
Proof.
  induction fuel as [|fuel IH]; simpl; [by intros s Hs|].
  apply stays_none_bind.
  - unfold RetryWorker.iteration.
    apply stays_none_bind;
      [apply quiet_stays_none, (quiet_set_acquired (fun _ => []))|].
    intros _. apply stays_none_bind; [apply quiet_stays_none, quiet_get|].
    intros s1. apply stays_none_bind;
      [apply quiet_stays_none, quiet_attempt|].
    intros failed. apply stays_none_bind;
      [apply quiet_stays_none, quiet_get|].
    intros s2.
    destruct (negb failed
              && (length (acquired s2) =? length (locks (self s2)))%nat).
    + apply stays_none_bind; [apply quiet_stays_none, quiet_time_sleep|].
      intros _. apply stays_none_bind;
        [apply quiet_stays_none, quiet_release_acquired|].
      intros _. apply stays_none_bind; [apply stays_none_record_end|].
      intros _. apply quiet_stays_none, quiet_ret.
    + apply stays_none_bind; [apply quiet_stays_none, quiet_backoff|].
      intros _. apply quiet_stays_none, quiet_ret.
  - intros [|]; [apply quiet_stays_none, quiet_ret|apply IH].
Qed.

Lemma retry_run_no_queue fuel : stays_none (RetryWorker.run R env fuel).
Proof.
  unfold RetryWorker.run.
  apply stays_none_bind; [apply quiet_stays_none, quiet_record_start|].
  intros _. apply stays_none_try_except;
    [apply stays_none_loop|apply stays_none_record_end].
Qed.

(** *** A timeout *)

(** The calls of an iteration up to the attempt that times out. *)
Definition acquiring (hold : Q) (acquired_locks : list nat) : list event :=
  flat_map (fun lock => [CallAcquire lock; CallSleep hold]) acquired_locks.



Lemma omap_rev {A B} (f : A -> option B) (l : list A) :
  omap f (rev l) = rev (omap f l).
Proof.
  induction l as [|x l IH]; [done|]. simpl. rewrite omap_app, IH. simpl.
  destruct (f x); simpl; [done|]. by rewrite app_nil_r.
Qed.

Hypothesis R_ok : Random_ok R.






End RetryRun.

End WorkerFacts.

(** * The properties of the design document *)

(** C1.  Soundness of the cycle search: a list [c] returned by
    [_find_cycle] has the same first and last element, and every two
    consecutive elements of [c] are joined by an edge of the graph. *)
Theorem find_cycle_sound (depth : nat) (g : Detector.graph)
    (c : list string) :
  Detector._find_cycle depth g = Ret (Some c) ->
  (exists x, head c = Some x /\ last c = Some x)
  /\ (forall (i : nat) (a b : string),
        c !! i = Some a -> c !! S i = Some b -> Detector.edge g a b).
Proof.
  intros H. pose proof (DetectorFacts.find_cycle_cases g depth) as Hc.
  rewrite H in Hc. destruct Hc as (Hends & _ & Hchain). by split.
Qed.

Lemma find_cycle_sound_witness :
  Detector._find_cycle default_limit unit_test_graph
  = Ret (Some ["A"; "B"; "C"; "A"])
  /\ ((exists x, head ["A"; "B"; "C"; "A"] = Some x
                 /\ last ["A"; "B"; "C"; "A"] = Some x)
      /\ (forall (i : nat) (a b : string),
            ["A"; "B"; "C"; "A"] !! i = Some a ->
            ["A"; "B"; "C"; "A"] !! S i = Some b ->
            Detector.edge unit_test_graph a b)).
Proof.
  split; [vm_compute; reflexivity|].
  apply (find_cycle_sound default_limit unit_test_graph).
  vm_compute. reflexivity.
Defined.

(** C2, as worded, fails: on a ring of 1100 nodes the recursion of
    [dfs] goes deeper than the interpreter allows, and [_find_cycle]
    raises [RecursionError] where a cycle was to be returned. *)
Lemma find_cycle_counterexample :
  DetectorFacts.has_cycle (ring 1100)
  /\ Detector._find_cycle default_limit (ring 1100) = Exc RecursionError
  /\ ~ (exists c,
          Detector._find_cycle default_limit (ring 1100) = Ret (Some c)).
Proof.
  assert (H : Detector._find_cycle default_limit (ring 1100)
              = Exc RecursionError)
    by (apply DetectorFacts.ring_find_cycle; unfold default_limit; lia).
  split_and!; [apply DetectorFacts.ring_has_cycle; lia|exact H|].
  intros [c Hc]. rewrite H in Hc. discriminate.
Qed.

(** C2, amended.  On a graph that contains a cycle [_find_cycle] never
    returns [None]: it returns a cycle of the graph, or it raises
    [RecursionError], and this only when the depth allowed to [dfs] is
    at most the number of keys of the graph.  With more depth than keys
    it returns a cycle, and [detect_deadlock] reports
    [has_deadlock = True] with that cycle whenever the graph built from
    the store is that graph. *)
Theorem find_cycle_complete (depth : nat) (g : Detector.graph) :
  DetectorFacts.has_cycle g ->
  ((exists c, Detector._find_cycle depth g = Ret (Some c)
              /\ DetectorFacts.cycle_ok g c)
   \/ (Detector._find_cycle depth g = Exc RecursionError
       /\ (depth <= length (Detector.graph_keys g))%nat))
  /\ ((length (Detector.graph_keys g) < depth)%nat ->
      (exists c, Detector._find_cycle depth g = Ret (Some c)
                 /\ DetectorFacts.cycle_ok g c)
      /\ (forall st : Store,
            fst (Detector.build_wait_for_graph st) = Ret g ->
            exists edges cycle,
              Detector.detect_deadlock depth st
              = (Ret (true, edges, cycle), st)
              /\ DetectorFacts.cycle_ok g cycle)).
Proof.
  intros Hcyc.
  assert (Hcases : (exists c, Detector._find_cycle depth g = Ret (Some c)
                              /\ DetectorFacts.cycle_ok g c)
                   \/ (Detector._find_cycle depth g = Exc RecursionError
                       /\ (depth <= length (Detector.graph_keys g))%nat)).
  { pose proof (DetectorFacts.find_cycle_cases g depth) as Hc.
    destruct (Detector._find_cycle depth g) as [[c|]|e|]; try done.
    - left. by exists c.
    - right. by destruct Hc as [-> ?]. }
  split; [exact Hcases|]. intros Hdepth.
  destruct Hcases as [(c & Hfind & Hok)|[_ Hle]]; [|lia].
  split; [by exists c|].
  intros st Hg. unfold Detector.detect_deadlock, bind, Detector.lift, ret.
  pose proof (DetectorFacts.build_wait_for_graph_spec st) as Hb.
  destruct (Detector.build_wait_for_graph st) as [[g'|e|] st1];
    simpl in Hg; try done.
  inversion Hg; subst g'. destruct Hb as [-> _]. rewrite Hfind.
  destruct c as [|x c]; [destruct Hok as (_ & Hlen & _); simpl in Hlen; lia|].
  simpl. by eexists _, _.
Qed.

Lemma find_cycle_complete_witness :
  DetectorFacts.has_cycle unit_test_graph
  /\ (length (Detector.graph_keys unit_test_graph) < default_limit)%nat
  /\ exists c,
       Detector._find_cycle default_limit unit_test_graph = Ret (Some c)
       /\ DetectorFacts.cycle_ok unit_test_graph c.
Proof.
  assert (H : DetectorFacts.has_cycle unit_test_graph).
  { exists "A".
    apply (tc_l _ "A" "B" "A"); [|apply (tc_l _ "B" "C" "A"); [|apply tc_once]];
      unfold Detector.edge; simpl; apply list_elem_of_singleton; reflexivity. }
  assert (Hd : (length (Detector.graph_keys unit_test_graph)
                < default_limit)%nat)
    by (unfold default_limit; simpl; lia).
  split; [exact H|]. split; [exact Hd|].
  exact (proj1 (proj2 (find_cycle_complete default_limit unit_test_graph H)
                  Hd)).
Defined.

(** C3, as worded, fails: the holder [""] is tested by truthiness, so the
    edge [P1 -> ""] is not in the graph. *)
Lemma wait_for_graph_counterexample :
  exists g,
    Detector.build_wait_for_graph empty_holder_store
    = (Ret g, empty_holder_store)
    /\ waits_for_as_worded empty_holder_store "P1" ""
    /\ ~ Detector.edge g "P1" "".
Proof.
  exists []. split; [vm_compute; reflexivity|]. split.
  - exists 0%nat. eexists _, "R1", _. simpl.
    split_and!; try reflexivity. done.
  - unfold Detector.edge. simpl. apply not_elem_of_nil.
Qed.

(** C3, amended.  [build_wait_for_graph] raises [KeyError] when a blocked
    process requests an id that is not a key of the resources; otherwise
    the graph it returns has the edge [p -> q] exactly when a process of
    pid [p] is [BLOCKED] with a non-empty [current_request] whose
    resource is held by a non-empty [q <> p].  Self-loops never appear,
    and the store is left as it was. *)
Theorem wait_for_graph_edges (st : Store) :
  match Detector.build_wait_for_graph st with
  | (Ret g, st') =>
      st' = st
      /\ (forall p q, Detector.edge g p q <-> DetectorFacts.waits_for st p q)
      /\ (forall p, ~ Detector.edge g p p)
  | (Exc e, st') =>
      st' = st /\ e = KeyError /\ exists i, DetectorFacts.bad_request st i
  | (NoFuel, _) => False
  end.
Proof.
  pose proof (DetectorFacts.build_wait_for_graph_spec st) as H.
  destruct (Detector.build_wait_for_graph st) as [[g|e|] st']; [|done..].
  destruct H as [-> H]. split_and!; [done|done|].
  intros p Hp. apply H in Hp as (i & proc & r & res & _ & _ & _ & _ & _ & _ & _
                                   & _ & Hne). done.
Qed.

(** C5.  For a [RUNNING] process with an unheld plan resource,
    [next_request] in ordered mode returns the smallest unheld plan
    resource in lexicographic order, and in naive mode the first unheld
    resource of the plan; it returns [None] when the plan is fully held
    or the state is [BLOCKED], [DEADLOCKED] or [FINISHED]. *)
Theorem next_request_selection (p : Process) :
  (state p = RUNNING ->
   (exists r, r ∈ plan p /\ r ∉ held_resources p) ->
   (exists r, next_request p true = Some r
              /\ r ∈ plan p /\ (r ∉ held_resources p)
              /\ forall r', r' ∈ plan p -> r' ∉ held_resources p ->
                            String.leb r r' = true)
   /\ (exists before r after,
         next_request p false = Some r
         /\ plan p = before ++ r :: after
         /\ (r ∉ held_resources p)
         /\ forall x, x ∈ before -> x ∈ held_resources p))
  /\ (forall ordered_mode,
        (forall r, r ∈ plan p -> r ∈ held_resources p)
        \/ state p ∈ [BLOCKED; DEADLOCKED; FINISHED] ->
        next_request p ordered_mode = None).
Proof.
  split.
  - intros Hrun (r0 & Hr0 & Hr0').
    unfold next_request. rewrite Hrun.
    rewrite bool_decide_eq_false_2 by (rewrite !elem_of_cons, elem_of_nil;
                                       intuition discriminate).
    remember (List.filter (fun r => bool_decide (r ∉ held_resources p))
                (plan p)) as remaining eqn:Heq.
    assert (Hin : forall x, x ∈ remaining
                            <-> x ∈ plan p /\ x ∉ held_resources p)
      by (intros x; subst remaining; apply ModelsFacts.remaining_elem).
    assert (Hrem : r0 ∈ remaining) by (by apply Hin).
    clear Heq. destruct remaining as [|x rest];
      [by apply elem_of_nil in Hrem|].
    split.
    + destruct (sorted (x :: rest)) as [|m l] eqn:Hsorted.
      { apply ModelsFacts.sorted_elem in Hrem. rewrite Hsorted in Hrem.
        by apply elem_of_nil in Hrem. }
      assert (Hm : m ∈ x :: rest).
      { apply ModelsFacts.sorted_elem. rewrite Hsorted. by left. }
      apply Hin in Hm as [Hm1 Hm2].
      exists m. split_and!; try done.
      intros r' Hr1 Hr2.
      apply (ModelsFacts.sorted_least (x :: rest) m);
        [by rewrite Hsorted|].
      apply ModelsFacts.sorted_elem. by apply Hin.
    + pose proof (ModelsFacts.find_first
                    (fun r => bool_decide (r ∉ held_resources p)) (plan p))
        as Hfind.
      destruct (List.find _ (plan p)) as [r|].
      * destruct Hfind as (before & after & Hplan & Hr & Hbefore).
        exists before, r, after. split_and!; try done.
        -- by apply bool_decide_eq_true in Hr.
        -- intros y Hy. specialize (Hbefore y Hy).
           apply bool_decide_eq_false in Hbefore. by apply dec_stable.
      * specialize (Hfind r0 Hr0). apply bool_decide_eq_false in Hfind. done.
  - intros ordered_mode [Hall|Hstate]; unfold next_request.
    + destruct (bool_decide (state p ∈ [BLOCKED; DEADLOCKED; FINISHED]));
        [done|].
      destruct (List.filter _ (plan p)) as [|x rest] eqn:Heq; [done|].
      assert (Hx : x ∈ List.filter
                (fun r => bool_decide (r ∉ held_resources p)) (plan p))
        by (rewrite Heq; by left).
      apply ModelsFacts.remaining_elem in Hx as [Hx1 Hx2].
      destruct (Hx2 (Hall x Hx1)).
    + by rewrite bool_decide_eq_true_2.
Qed.

Lemma next_request_selection_witness :
  next_request wants_two true = Some "R2"
  /\ next_request wants_two false = Some "R3"
  /\ (exists r, next_request wants_two true = Some r
                /\ r ∈ plan wants_two /\ (r ∉ held_resources wants_two)
                /\ forall r', r' ∈ plan wants_two ->
                              r' ∉ held_resources wants_two ->
                              String.leb r r' = true).
Proof.
  split; [vm_compute; reflexivity|]. split; [vm_compute; reflexivity|].
  destruct (next_request_selection wants_two) as [H _].
  destruct H as [H _]; [reflexivity| |exact H].
  exists "R3". split; [simpl; set_solver|]. simpl. set_solver.
Defined.

(** C7.  From a store where no resource is held and the processes have
    distinct pids, after any sequence of [request] and [release_all]
    every resource is held by nobody or by the pid of exactly one
    process, and [held_by] is the pid of a process exactly when the id of
    the resource is among the [held_resources] of that process. *)
Theorem lock_manager_invariant (st : Store)
    (ops : list LockManagerFacts.op) :
  LockManagerFacts.initial st ->
  let st' := LockManagerFacts.apply_ops ops st in
  (forall k r, resources st' !! k = Some r ->
     held_by r = None
     \/ exists i p,
          processes st' !! i = Some p /\ held_by r = Some (pid p)
          /\ forall j p', processes st' !! j = Some p' ->
                          held_by r = Some (pid p') -> j = i)
  /\ (forall i p k r,
        processes st' !! i = Some p -> resources st' !! k = Some r ->
        (held_by r = Some (pid p) <-> rid r ∈ held_resources p)).
Proof.
  intros Hinit st'.
  pose proof (LockManagerFacts.apply_ops_inv ops st
                (LockManagerFacts.initial_inv st Hinit))
    as (Hnd & Hrid & Hheld & Hholder).
  fold st' in Hnd, Hrid, Hheld, Hholder. split.
  - intros k r Hr. destruct (held_by r) as [q|] eqn:Hq; [right|by left].
    destruct (Hholder k r q Hr Hq) as (i & p & Hp & Hpid & _).
    exists i, p. split_and!; [done|by rewrite Hpid|].
    intros j p' Hp' Heq. inversion Heq; subst q.
    eapply LockManagerFacts.pid_index_inj; eauto.
  - intros i p k r Hp Hr. rewrite (Hrid k r Hr). split.
    + intros Hq. destruct (Hholder k r (pid p) Hr Hq) as (j & pj & Hj & Hpid & Hin).
      assert (j = i) by (eapply LockManagerFacts.pid_index_inj; eauto).
      subst j. rewrite Hp in Hj. by inversion Hj; subst pj.
    + intros Hin. destruct (Hheld i p k Hp Hin) as (r' & Hr' & Hq).
      rewrite Hr in Hr'. by inversion Hr'; subst r'.
Qed.

Lemma two_for_one_initial : LockManagerFacts.initial two_for_one.
Proof.
  split_and!.
  - simpl. apply NoDup_cons. split; [|apply NoDup_singleton].
    rewrite list_elem_of_singleton. discriminate.
  - intros k r H. simpl in H. apply lookup_singleton_Some in H as [<- <-].
    done.
  - intros [|[|i]] p H; simpl in H; inversion H; done.
Qed.

Lemma lock_manager_invariant_witness :
  LockManagerFacts.initial two_for_one /\
  let st' := LockManagerFacts.apply_ops
               [LockManagerFacts.OpRequest 0 "R1";
                LockManagerFacts.OpRequest 1 "R1";
                LockManagerFacts.OpReleaseAll 0;
                LockManagerFacts.OpRequest 1 "R1"] two_for_one in
  (forall k r, resources st' !! k = Some r ->
     held_by r = None
     \/ exists i p,
          processes st' !! i = Some p /\ held_by r = Some (pid p)
          /\ forall j p', processes st' !! j = Some p' ->
                          held_by r = Some (pid p') -> j = i)
  /\ (forall i p k r,
        processes st' !! i = Some p -> resources st' !! k = Some r ->
        (held_by r = Some (pid p) <-> rid r ∈ held_resources p)).
Proof.
  split; [exact two_for_one_initial|].
  exact (lock_manager_invariant two_for_one _ two_for_one_initial).
Defined.

(** C10.  The detector is pure: [build_wait_for_graph] and
    [detect_deadlock] leave the store as it was, whether they return or
    raise ([_find_cycle] receives the graph only).  The store that [step]
    leaves is the store after its two sweeps, in which [mark_cycle] has
    marked [DEADLOCKED] process objects whose pid is in the reported
    cycle and changed nothing else. *)
Theorem detector_pure (depth : nat) (st : Store) :
  snd (Detector.build_wait_for_graph st) = st
  /\ snd (Detector.detect_deadlock depth st) = st
  /\ (forall mode t,
        Simulator.step depth mode t st
        = match Simulator.step_sweeps (String.eqb mode "ordered") st with
          | (Ret _, st1) =>
              match fst (Detector.detect_deadlock depth st1) with
              | Ret (true, _, cycle) =>
                  (Ret true, snd (Simulator.mark_cycle cycle st1))
              | Ret (false, _, _) => (Ret false, st1)
              | Exc e => (Exc e, st1)
              | NoFuel => (NoFuel, st1)
              end
          | (Exc e, st1) => (Exc e, st1)
          | (NoFuel, st1) => (NoFuel, st1)
          end)
  /\ (forall cycle,
        fst (Simulator.mark_cycle cycle st) = Ret tt
        /\ SimulatorFacts.marked cycle st (snd (Simulator.mark_cycle cycle st))).
Proof.
  assert (Hdet : forall s, snd (Detector.detect_deadlock depth s) = s).
  { intros s. pose proof (DetectorFacts.detect_deadlock_spec depth s) as H.
    destruct (Detector.detect_deadlock depth s) as [[[[d es] c]|e|] s'];
      simpl; [by destruct H|by destruct H|done]. }
  split_and!.
  - pose proof (DetectorFacts.build_wait_for_graph_spec st) as H.
    destruct (Detector.build_wait_for_graph st) as [[g|e|] st'];
      simpl; [by destruct H|by destruct H|done].
  - apply Hdet.
  - intros mode t. unfold Simulator.step. unfold bind at 1.
    destruct (Simulator.step_sweeps (String.eqb mode "ordered") st)
      as [[[]|e|] st1]; [|done..].
    unfold bind at 1. specialize (Hdet st1).
    destruct (Detector.detect_deadlock depth st1) as [[[[d es] c]|e|] st2];
      simpl in *; subst st2; [|done..].
    destruct d; [|done]. unfold bind, ret.
    destruct (SimulatorFacts.mark_cycle_marked c st1) as (s' & -> & _). done.
  - intros cycle.
    destruct (SimulatorFacts.mark_cycle_marked cycle st) as (s' & -> & H).
    done.
Qed.

(** C8, as worded, fails: the first step raises [KeyError] in the lock
    manager, and [run] ends by none of the three conditions. *)
Lemma run_counterexample :
  Simulator.run (fun ps => ps) default_limit "naive" 5 unknown_resource_store
  = (Exc KeyError, unknown_resource_store)
  /\ ~ run_stops_as_worded (fun ps => ps) default_limit "naive" 5
        unknown_resource_store.
Proof.
  assert (H : Simulator.run (fun ps => ps) default_limit "naive" 5
                unknown_resource_store
              = (Exc KeyError, unknown_resource_store))
    by (vm_compute; reflexivity).
  split; [exact H|]. intros (d & k & st' & Hrun & _). rewrite H in Hrun.
  discriminate.
Qed.

(** C8, amended.  [run] always ends, after a number [j] of steps that is
    at most [max_steps]: no step before the last met a stopping
    condition, and the last one reported a deadlock, or left every
    process [FINISHED], or was step number [max_steps], or raised, which
    ends [run] as well: [KeyError] (a resource id that is not a key of
    the resources) or [RecursionError] (from the search of the detector,
    and only when the depth allowed to it is at most the number of
    process objects). *)
Theorem run_terminates (record_step : list Process -> list Process)
    (depth : nat) (mode : string) (max_steps : Z) (st : Store) :
  exists j : nat,
    (Z.of_nat j <= Z.max 0 max_steps)%Z
    /\ (forall i : nat, (S i < j)%nat ->
          ~ SimulatorFacts.halts record_step depth mode (Z.of_nat i)
              (SimulatorFacts.store_after record_step depth mode i 0 st))
    /\ match Simulator.run record_step depth mode max_steps st with
       | (Ret (deadlock_found, steps), st') =>
           steps = j
           /\ st' = SimulatorFacts.store_after record_step depth mode j 0 st
           /\ ((j = 0%nat /\ (max_steps <= 0)%Z /\ deadlock_found = false)
               \/ (exists j', j = S j'
                    /\ fst (Simulator.step depth mode (Z.of_nat j')
                               (SimulatorFacts.store_after record_step depth
                                  mode j' 0 st))
                       = Ret deadlock_found
                    /\ (deadlock_found = true
                        \/ Simulator.all_finished st' = true
                        \/ Z.of_nat j = max_steps)))
       | (Exc e, st') =>
           exists j', j = S j'
             /\ Simulator.step depth mode (Z.of_nat j')
                  (SimulatorFacts.store_after record_step depth mode j' 0 st)
                = (Exc e, st')
             /\ (e = KeyError
                 \/ (e = RecursionError
                     /\ (depth
                         <= length (processes
                                      (SimulatorFacts.store_after record_step
                                         depth mode j' 0 st)))%nat))
       | (NoFuel, _) => False
       end.
Proof.
  unfold Simulator.run.
  destruct (SimulatorFacts.run_loop_spec record_step depth mode
              (Z.to_nat max_steps) 0 0%nat false st)
    as (j & Hj & Hbefore & Hres).
  exists j. split; [lia|]. split; [exact Hbefore|].
  destruct (Simulator.run_loop record_step depth mode (Z.to_nat max_steps)
              0 0 false st) as [[[d k]|e|] st']; [| |done].
  - destruct Hres as (-> & -> & Hcase). split_and!; try done.
    destruct Hcase as [(-> & Hn & ->)|(j' & -> & Hstep & Hc)].
    + left. split_and!; try done. lia.
    + right. exists j'. split_and!; try done.
      destruct Hc as [?|[?|?]]; [by left|by right; left|right; right]. lia.
  - exact Hres.
Qed.

Lemma lcg_ok : Worker.Random_ok Worker.lcg.
Proof.
  assert (Hnext : forall r, (0 <= Worker.lcg_next r < 2147483648)%Z)
    by (intros r; apply Z.mod_pos_bound; lia).
  split.
  - intros r. specialize (Hnext r). simpl. unfold Qle, Qlt. simpl. lia.
  - intros n r Hn. simpl. by apply Z.mod_pos_bound.
Qed.

(** C6, as worded, fails: on the remaining need [[0]] the draw is all
    zeros, a component is forced to [1], and [1] is above the need. *)
Lemma build_request_counterexample :
  Worker.Random_ok Worker.lcg
  /\ (forall need, need ∈ [0%Z] -> (0 <= need)%Z)
  /\ exists r',
       Worker.BankerWorker._build_request Worker.lcg [0%Z] 1%Z
       = (Ret [1%Z], r')
       /\ ~ (forall (i : nat) (need q : Z),
               [0%Z] !! i = Some need -> [1%Z] !! i = Some q ->
               (0 <= q <= need)%Z).
Proof.
  split; [exact lcg_ok|]. split.
  - intros need H. apply list_elem_of_singleton in H. lia.
  - eexists. split; [vm_compute; reflexivity|].
    intros H. specialize (H 0%nat 0%Z 1%Z eq_refl eq_refl). lia.
Qed.

(** C6, amended.  For a generator that keeps its ranges and a non-empty
    vector of non-negative remaining needs, [_build_request] returns a
    vector of the same length.  If some need is positive, every component
    is within [[0, remaining[r]]], and at least [1] where the need is
    positive.  If all needs are zero, the draw is all zeros and exactly
    one component is set to [1], above its need.  On the empty vector
    [randrange] raises [ValueError]. *)
Theorem build_request_bounds (R : Worker.Random) (remaining : list Z)
    (r : Worker.rng_state R) :
  Worker.Random_ok R ->
  (forall need, need ∈ remaining -> (0 <= need)%Z) ->
  match remaining with
  | [] => Worker.BankerWorker._build_request R remaining r
          = (Exc ValueError, r)
  | _ :: _ =>
      exists request r',
        Worker.BankerWorker._build_request R remaining r = (Ret request, r')
        /\ length request = length remaining
        /\ ((exists need, need ∈ remaining /\ (0 < need)%Z) ->
            forall (i : nat) (need q : Z),
              remaining !! i = Some need -> request !! i = Some q ->
              (0 <= q <= need)%Z /\ ((0 < need)%Z -> (1 <= q)%Z))
        /\ ((forall need, need ∈ remaining -> need = 0%Z) ->
            exists idx : nat,
              (idx < length remaining)%nat
              /\ request
                 = <[idx := 1%Z]> (replicate (length remaining) 0%Z))
  end.
Proof.
  intros HR Hnonneg.
  pose proof (BankerWorkerFacts.build_request_cases R HR remaining r) as H.
  destruct remaining as [|need0 rest]; [exact H|].
  destruct H as (request & r' & Hrun & Hlen & Hcase).
  exists request, r'. split_and!; [done..| |].
  - intros (need & Hin & Hpos) i needi q Hi Hq.
    destruct Hcase as [[_ Hall]|[Hzero _]].
    + destruct (Forall2_lookup_lr _ _ _ _ _ _ Hall Hi Hq) as [[? ->]|[? ?]].
      * assert (0 <= needi)%Z
          by (apply Hnonneg; eapply list_elem_of_lookup_2; eauto).
        lia.
      * lia.
    + rewrite Forall_forall in Hzero. specialize (Hzero need Hin). lia.
  - intros Hzero. destruct Hcase as [[Hex _]|[_ Hidx]]; [|exact Hidx].
    apply Exists_exists in Hex as (need & Hin & Hpos).
    specialize (Hzero need Hin). lia.
Qed.

Lemma build_request_bounds_witness :
  Worker.Random_ok Worker.lcg
  /\ (forall need, need ∈ [2%Z; 0%Z; 3%Z] -> (0 <= need)%Z)
  /\ exists request r',
       Worker.BankerWorker._build_request Worker.lcg [2%Z; 0%Z; 3%Z] 1%Z
       = (Ret request, r')
       /\ length request = 3%nat
       /\ ((exists need, need ∈ [2%Z; 0%Z; 3%Z] /\ (0 < need)%Z) ->
           forall (i : nat) (need q : Z),
             [2%Z; 0%Z; 3%Z] !! i = Some need -> request !! i = Some q ->
             (0 <= q <= need)%Z /\ ((0 < need)%Z -> (1 <= q)%Z))
       /\ ((forall need, need ∈ [2%Z; 0%Z; 3%Z] -> need = 0%Z) ->
           exists idx : nat,
             (idx < 3)%nat
             /\ request = <[idx := 1%Z]> (replicate 3 0%Z)).
Proof.
  assert (Hnonneg : forall need, need ∈ [2%Z; 0%Z; 3%Z] -> (0 <= need)%Z).
  { intros need H. rewrite !elem_of_cons, elem_of_nil in H. lia. }
  split; [exact lcg_ok|]. split; [exact Hnonneg|].
  exact (build_request_bounds Worker.lcg [2%Z; 0%Z; 3%Z] 1%Z lcg_ok Hnonneg).
Defined.

(** C4, as worded, fails: the record of a run that raised has the status
    ["erro"], which is neither ["ok"] nor ["error"]. *)
Lemma metric_status_counterexample :
  exists e s' r,
    Worker.NaiveWorker.run failing_lock_env
      (Worker.mkState
         (Worker.Worker_init "P1" [0%nat] ["Recurso A"] (1 # 2) (Some []))
         tt Worker.Sys_init [])
    = (Exc e, s')
    /\ Worker.metrics_queue (Worker.self s') = Some [r]
    /\ Worker.metric_status r = "erro"
    /\ ~ (Worker.metric_status r = "ok" \/ Worker.metric_status r = "error").
Proof.
  eexists _, _, _. split; [vm_compute; reflexivity|]. simpl.
  split; [reflexivity|]. split; [reflexivity|].
  intros [H|H]; discriminate.
Qed.

(** C4, amended.  A [NaiveWorker] or a [RetryWorker] that was given a
    queue puts exactly one record on it when its [run] is over: of status
    ["ok"] if [run] returned, of status ["erro"] if [run] raised; [run]
    puts nothing while it has not ended.  The record bears the worker's
    name, its [retries] and [wait_time] are not negative.  A worker
    without a queue emits nothing. *)
Theorem metric_record_wellformed (R : Worker.Random) (env : Worker.Env)
    (name : string) (locks : list nat) (lock_labels : list string)
    (hold_time try_timeout : Q) (fuel : nat)
    (metrics_queue : option (list Worker.Metrics)) :
  let naive :=
    Worker.NaiveWorker.run env
      (Worker.mkState
         (Worker.Worker_init name locks lock_labels hold_time metrics_queue)
         tt Worker.Sys_init []) in
  let retry :=
    Worker.RetryWorker.run R env fuel
      (Worker.RetryWorker.init R name locks lock_labels hold_time
         try_timeout metrics_queue) in
  match metrics_queue with
  | Some q =>
      WorkerFacts.reported q name naive /\ WorkerFacts.reported q name retry
  | None =>
      Worker.metrics_queue (Worker.self (snd naive)) = None
      /\ Worker.metrics_queue (Worker.self (snd retry)) = None
  end.
Proof.
  intros naive retry. subst naive retry. destruct metrics_queue as [q|].
  - split.
    + refine (WorkerFacts.naive_run_reported env
                (Worker.mkState
                   (Worker.Worker_init name locks lock_labels hold_time
                      (Some q)) tt Worker.Sys_init []) q eq_refl _).
      split; simpl; [lia|apply Qle_refl].
    + refine (WorkerFacts.retry_run_reported R env fuel
                (Worker.RetryWorker.init R name locks lock_labels hold_time
                   try_timeout (Some q)) q eq_refl _).
      split; simpl; [lia|apply Qle_refl].
  - split.
    + by apply WorkerFacts.naive_run_no_queue.
    + by apply WorkerFacts.retry_run_no_queue.
Qed.



(** * Further properties of the code *)

(** ** The lock manager *)

(** X1.  [request] touches the requesting process and the requested
    resource only.  It returns [True] exactly when the resource is then
    held by the requester; a refused request changes no resource and
    leaves the requester [BLOCKED] on the resource; a request that raises
    changes nothing. *)
Theorem request_effect (i : nat) (k : string) (st : Store) :
  let st' := snd (LockManager.request i k st) in
  (forall j, j <> i -> processes st' !! j = processes st !! j)
  /\ (forall k', k' <> k -> resources st' !! k' = resources st !! k')
  /\ match fst (LockManager.request i k st) with
     | Ret granted =>
         exists p p' r r',
           processes st !! i = Some p /\ processes st' !! i = Some p'
           /\ resources st !! k = Some r /\ resources st' !! k = Some r'
           /\ pid p' = pid p /\ plan p' = plan p /\ rid r' = rid r
           /\ (granted = true <-> held_by r' = Some (pid p))
           /\ (granted = true ->
               (held_by r = None \/ held_by r = Some (pid p))
               /\ (held_by r = None ->
                   held_resources p' = {[k]} ∪ held_resources p
                   /\ state p' = RUNNING /\ current_request p' = None)
               /\ (held_by r = Some (pid p) -> p' = p))
           /\ (granted = false ->
               r' = r /\ held_resources p' = held_resources p
               /\ state p' = BLOCKED /\ current_request p' = Some k)
     | Exc e =>
         st' = st
         /\ ((e = KeyError /\ resources st !! k = None)
             \/ (e = IndexError /\ processes st !! i = None))
     | NoFuel => False
     end.
Proof.
  unfold LockManager.request, bind, get_resource, get_process.
  destruct (resources st !! k) as [r|] eqn:Hr; simpl;
    [|split_and!; try done; by left].
  destruct (processes st !! i) as [p|] eqn:Hp; simpl;
    [|split_and!; try done; by right].
  assert (Hi : (i < length (processes st))%nat) by (by eapply lookup_lt_Some).
  destruct (held_by r) as [holder|] eqn:Hh.
  - destruct (decide (holder = pid p)) as [->|Hne]; simpl.
    + split_and!; try done. exists p, p, r, r. rewrite Hh.
      split_and!; try done. intros _. split_and!; try done. by right.
    + split_and!.
      * intros j Hj. by rewrite list_lookup_insert_ne.
      * done.
      * exists p, (mark_blocked k p), r, r.
        rewrite list_lookup_insert_eq by done. rewrite Hh.
        split_and!; try done. split; [done|]. intros Heq.
        inversion Heq; subst. done.
  - simpl. split_and!.
    + intros j Hj. by rewrite list_lookup_insert_ne.
    + intros k' Hk'. by rewrite lookup_insert_ne.
    + eexists p, _, r, _. rewrite list_lookup_insert_eq by done.
      rewrite lookup_insert_eq. split_and!; try done.
      intros _. split_and!; try done; [by left|]. rewrite Hh. discriminate.
Qed.

(** X2.  [request] is idempotent: repeating a request at once gives the
    same answer and changes nothing more. *)
Theorem request_idempotent (i : nat) (k : string) (st : Store) :
  LockManager.request i k (snd (LockManager.request i k st))
  = LockManager.request i k st.
Proof.
  unfold LockManager.request, bind, get_resource, get_process.
  destruct (resources st !! k) as [r|] eqn:Hr; simpl; [|by rewrite Hr].
  destruct (processes st !! i) as [p|] eqn:Hp; simpl;
    [|by rewrite Hr, Hp].
  assert (Hi : (i < length (processes st))%nat) by (by eapply lookup_lt_Some).
  destruct (held_by r) as [holder|] eqn:Hh.
  - destruct (decide (holder = pid p)) as [->|Hne]; simpl.
    + rewrite Hr, Hp, Hh. simpl. by rewrite decide_True.
    + rewrite Hr. cbn. rewrite list_lookup_insert_eq by done. cbn.
      rewrite Hh. rewrite decide_False by done. cbn.
      by rewrite list_insert_insert_eq.
  - cbn. rewrite lookup_insert_eq. cbn.
    rewrite list_lookup_insert_eq by done. cbn.
    by rewrite decide_True.
Qed.

Lemma release_all_spec (i : nat) (st : Store) (p : Process) :
  LockManagerFacts.lock_inv st -> processes st !! i = Some p ->
  exists res',
    LockManager.release_all i st
    = (Ret tt,
       {| processes :=
            <[i := set_state FINISHED
                     (set_current_request None (set_held_resources ∅ p))]>
              (processes st);
          resources := res' |})
    /\ forall k,
         res' !! k
         = match resources st !! k with
           | Some r => if decide (held_by r = Some (pid p))
                       then Some (set_held_by None r) else Some r
           | None => None
           end.
Proof.
  intros (Hnd & Hrid & Hheld & Hholder) Hp.
  unfold LockManager.release_all. unfold bind at 1. unfold get_process at 1.
  rewrite Hp.
  destruct (LockManagerFacts.release_loop i (elements (held_resources p))
              st p Hp) as (res' & Hrun & Hres').
  { intros k Hk. apply elem_of_elements in Hk.
    destruct (Hheld i p k Hp Hk) as (r & -> & _). by eexists. }
  unfold bind at 1. rewrite Hrun. unfold bind, get_process. simpl.
  rewrite Hp. simpl. exists res'. split; [done|].
  intros k. rewrite Hres'. unfold LockManagerFacts.freed.
  destruct (resources st !! k) as [r|] eqn:Hr; [|done].
  destruct (decide (held_by r = Some (pid p))) as [Hh|Hh].
  - rewrite decide_True; [done|]. split; [|done]. apply elem_of_elements.
    destruct (Hholder k r (pid p) Hr Hh) as (j & pj & Hj & Hpid & Hin).
    assert (j = i) by (eapply LockManagerFacts.pid_index_inj; eauto).
    subst j. rewrite Hp in Hj. by inversion Hj; subst pj.
  - rewrite decide_False; [done|]. by intros [_ ?].
Qed.

(** X3.  On a store that keeps the holding invariant, [release_all]
    returns; the process is then [FINISHED], holds nothing and requests
    nothing, every resource it held is free and no other resource or
    process has changed. *)
Theorem release_all_effect (i : nat) (st : Store) (p : Process) :
  LockManagerFacts.lock_inv st -> processes st !! i = Some p ->
  let st' := snd (LockManager.release_all i st) in
  fst (LockManager.release_all i st) = Ret tt
  /\ processes st'
     = <[i := set_state FINISHED
                (set_current_request None (set_held_resources ∅ p))]>
         (processes st)
  /\ (forall k r, resources st !! k = Some r ->
        resources st' !! k
        = Some (if decide (k ∈ held_resources p)
                then set_held_by None r else r))
  /\ (forall k, resources st !! k = None -> resources st' !! k = None).
Proof.
  intros Hinv Hp.
  destruct (release_all_spec i st p Hinv Hp) as (res' & Hrun & Hres').
  rewrite Hrun. simpl. split_and!; try done.
  - intros k r Hr. rewrite Hres', Hr.
    destruct Hinv as (Hnd & Hrid & Hheld & Hholder).
    destruct (decide (k ∈ held_resources p)) as [Hin|Hnin].
    + destruct (Hheld i p k Hp Hin) as (r' & Hr' & Hh).
      rewrite Hr in Hr'. inversion Hr'; subst r'. by rewrite decide_True.
    + rewrite decide_False; [done|]. intros Hh.
      destruct (Hholder k r (pid p) Hr Hh) as (j & pj & Hj & Hpid & Hin).
      assert (j = i) by (eapply LockManagerFacts.pid_index_inj; eauto).
      subst j. rewrite Hp in Hj. inversion Hj; subst pj. done.
  - intros k Hk. by rewrite Hres', Hk.
Qed.

(** Process 0 holds the only resource and process 1 is blocked on it. *)
Definition held_and_wanted : Store :=
  {| processes :=
       [ {| pid := "P1"; plan := ["R1"]; held_resources := {["R1"]};
            current_request := None; state := RUNNING;
            waiting_steps := 0 |};
         {| pid := "P2"; plan := ["R1"]; held_resources := ∅;
            current_request := Some "R1"; state := BLOCKED;
            waiting_steps := 0 |} ];
     resources := {["R1" := {| rid := "R1"; held_by := Some "P1" |}]} |}.

Lemma held_and_wanted_inv : LockManagerFacts.lock_inv held_and_wanted.
Proof.
  pose proof (LockManagerFacts.apply_ops_inv
                [LockManagerFacts.OpRequest 0 "R1";
                 LockManagerFacts.OpRequest 1 "R1"] two_for_one
                (LockManagerFacts.initial_inv _ two_for_one_initial)) as H.
  assert (Heq : LockManagerFacts.apply_ops
                  [LockManagerFacts.OpRequest 0 "R1";
                   LockManagerFacts.OpRequest 1 "R1"] two_for_one
                = held_and_wanted).
  { vm_compute. reflexivity. }
  by rewrite <- Heq.
Qed.

Lemma release_all_effect_witness :
  LockManagerFacts.lock_inv held_and_wanted
  /\ processes held_and_wanted !! 0%nat
     = Some {| pid := "P1"; plan := ["R1"]; held_resources := {["R1"]};
               current_request := None; state := RUNNING;
               waiting_steps := 0 |}
  /\ fst (LockManager.release_all 0 held_and_wanted) = Ret tt
  /\ resources (snd (LockManager.release_all 0 held_and_wanted)) !! "R1"
     = Some {| rid := "R1"; held_by := None |}.
Proof.
  split; [exact held_and_wanted_inv|]. split; [reflexivity|].
  destruct (release_all_effect 0 held_and_wanted _ held_and_wanted_inv
              eq_refl) as (Hret & _ & Hres & _).
  split; [exact Hret|].
  rewrite (Hres "R1" {| rid := "R1"; held_by := Some "P1" |});
    [|reflexivity].
  reflexivity.
Defined.

(** X4.  Hand-over: once a process has released everything, a request
    of another process for a resource that the first one held is
    granted, and the requester runs holding it. *)
Theorem release_then_request (i j : nat) (k : string) (st : Store)
    (p q : Process) :
  LockManagerFacts.lock_inv st ->
  processes st !! i = Some p -> processes st !! j = Some q -> j <> i ->
  k ∈ held_resources p ->
  exists st' q' r',
    LockManager.request j k (snd (LockManager.release_all i st))
    = (Ret true, st')
    /\ processes st' !! j = Some q' /\ resources st' !! k = Some r'
    /\ held_by r' = Some (pid q)
    /\ held_resources q' = {[k]} ∪ held_resources q
    /\ state q' = RUNNING /\ current_request q' = None.
Proof.
  intros Hinv Hp Hq Hji Hk.
  destruct (release_all_spec i st p Hinv Hp) as (res' & Hrun & Hres').
  destruct Hinv as (_ & _ & Hheld & _).
  destruct (Hheld i p k Hp Hk) as (r & Hr & Hh).
  assert (Hj : (j < length (processes st))%nat) by (by eapply lookup_lt_Some).
  rewrite Hrun. cbn [snd].
  unfold LockManager.request, bind, get_resource, get_process.
  cbn [resources processes]. rewrite Hres', Hr, decide_True by done.
  cbn. rewrite list_lookup_insert_ne by done. rewrite Hq. cbn.
  eexists _, _, _. split; [reflexivity|]. cbn.
  rewrite list_lookup_insert_eq by (by rewrite length_insert).
  rewrite lookup_insert_eq. split_and!; reflexivity.
Qed.

Lemma release_then_request_witness :
  exists st',
    LockManager.request 1 "R1"
      (snd (LockManager.release_all 0 held_and_wanted))
    = (Ret true, st').
Proof.
  destruct (release_then_request 0 1 "R1" held_and_wanted _ _
              held_and_wanted_inv eq_refl eq_refl)
    as (st' & _ & _ & Hrun & _).
  - lia.
  - vm_compute. reflexivity.
  - exists st'. exact Hrun.
Defined.

(** ** The simulator: what a step keeps *)

Module StepFacts.
Import Simulator.

(** From a store that satisfies [P], the computation returns a value and
    a store that satisfy [Q], or raises in a store that satisfies [E]. *)
Definition triple {A} (P : Store -> Prop) (m : M Store A)
    (Q : A -> Store -> Prop) (E : Store -> Prop) : Prop :=
  forall s, P s ->
    match m s with
    | (Ret a, s') => Q a s'
    | (Exc _, s') => E s'
    | (NoFuel, _) => False
    end.

Lemma triple_ret {A} (P : Store -> Prop) (a : A) Q E :
  (forall s, P s -> Q a s) -> triple P (ret a) Q E.
Proof. intros H s Hs. simpl. auto. Qed.

Lemma triple_bind {A B} P (m : M Store A) (k : A -> M Store B) Q Q' E :
  triple P m Q E -> (forall a, triple (Q a) (k a) Q' E) ->
  triple P (bind m k) Q' E.
Proof.
  intros Hm Hk s Hs. unfold bind. specialize (Hm s Hs).
  destruct (m s) as [[a|e|] s1]; [|done..]. by apply Hk.
Qed.

Lemma triple_for_each {A} P E (l : list A) (f : A -> M Store unit) :
  (forall x, x ∈ l -> triple P (f x) (fun _ => P) E) ->
  triple P (for_each l f) (fun _ => P) E.
Proof.
  induction l as [|x l IH]; intros Hf; simpl.
  - by apply triple_ret.
  - eapply triple_bind; [apply Hf; by left|]. intros u. apply IH.
    intros y Hy. apply Hf. by right.
Qed.

Lemma triple_weaken {A} (P P' : Store -> Prop) (m : M Store A) Q E :
  (forall s, P' s -> P s) -> triple P m Q E -> triple P' m Q E.
Proof. intros HP Hm s Hs. apply Hm. by apply HP. Qed.

Section Step.
Variables P E : Store -> Prop.
Variable ordered_mode : bool.
Variable depth : nat.

(** The three calls that the sweeps of [step] make on the lock manager,
    each from a store that satisfies [P]. *)
Hypothesis retry_blocked :
  forall s i p r,
    P s -> processes s !! i = Some p -> state p = BLOCKED ->
    current_request p = Some r -> r <> "" ->
    match LockManager.request i r s with
    | (Ret _, s') => P s'
    | (Exc _, s') => E s'
    | (NoFuel, _) => False
    end.

Hypothesis request_next :
  forall s i p r,
    P s -> processes s !! i = Some p -> state p = RUNNING ->
    has_all_resources p = false ->
    next_request p ordered_mode = Some r -> r <> "" ->
    match LockManager.request i r s with
    | (Ret _, s') => P s'
    | (Exc _, s') => E s'
    | (NoFuel, _) => False
    end.

Hypothesis complete :
  forall s i p,
    P s -> processes s !! i = Some p -> state p = RUNNING ->
    has_all_resources p = true ->
    match LockManager.release_all i s with
    | (Ret _, s') => P s'
    | (Exc _, s') => E s'
    | (NoFuel, _) => False
    end.

(** [P] on a store of [n] process objects. *)
Definition sized (n : nat) (s : Store) : Prop :=
  P s /\ length (processes s) = n.

Lemma sized_request n i r s :
  (i < n)%nat -> length (processes s) = n ->
  match LockManager.request i r s with
  | (Ret _, s') => P s'
  | (Exc _, s') => E s'
  | (NoFuel, _) => False
  end ->
  match LockManager.request i r s with
  | (Ret _, s') => sized n s'
  | (Exc _, s') => E s'
  | (NoFuel, _) => False
  end.
Proof.
  intros Hi Hn H.
  pose proof (SimulatorFacts.good_request 0 n i r Hi s Hn) as Hg.
  destruct (LockManager.request i r s) as [[b|e|] s']; by try split.
Qed.

Lemma sized_release n i s :
  (i < n)%nat -> length (processes s) = n ->
  match LockManager.release_all i s with
  | (Ret _, s') => P s'
  | (Exc _, s') => E s'
  | (NoFuel, _) => False
  end ->
  match LockManager.release_all i s with
  | (Ret _, s') => sized n s'
  | (Exc _, s') => E s'
  | (NoFuel, _) => False
  end.
Proof.
  intros Hi Hn H.
  pose proof (SimulatorFacts.good_release_all 0 n i Hi s Hn) as Hg.
  destruct (LockManager.release_all i s) as [[b|e|] s']; by try split.
Qed.

Lemma truthy_str_Some o :
  truthy_str o = true -> exists r, o = Some r /\ r <> "".
Proof.
  destruct o as [r|]; simpl; [|done]. intros H. exists r. split; [done|].
  apply negb_true_iff in H. by apply String.eqb_neq in H.
Qed.

Lemma triple_step_process n i :
  (i < n)%nat ->
  triple (sized n) (step_process ordered_mode i) (fun _ => sized n) E.
Proof.
  intros Hi s [HP Hn]. unfold step_process, bind at 1, get_process.
  destruct (processes s !! i) as [p|] eqn:Hp;
    [|apply lookup_ge_None in Hp; lia].
  destruct (bool_decide (state p ∈ [DEADLOCKED; FINISHED])); [by split|].
  destruct (bool_decide (state p = BLOCKED)) eqn:Hb; simpl.
  - apply bool_decide_eq_true in Hb.
    destruct (truthy_str (current_request p)) eqn:Ht; simpl.
    + apply truthy_str_Some in Ht as (r & Hr & Hne). rewrite Hr.
      unfold bind. pose proof (retry_blocked s i p r HP Hp Hb Hr Hne) as H.
      apply (sized_request n i r s Hi Hn) in H.
      by destruct (LockManager.request i r s) as [[b|e|] s'].
    + destruct (decide (state p = RUNNING)); [congruence|by split].
  - destruct (decide (state p = RUNNING)) as [Hrun|]; [|by split].
    destruct (has_all_resources p) eqn:Hall.
    + unfold _complete_process.
      pose proof (complete s i p HP Hp Hrun Hall) as H.
      apply (sized_release n i s Hi Hn) in H.
      by destruct (LockManager.release_all i s) as [[[]|e|] s'].
    + destruct (truthy_str (next_request p ordered_mode)) eqn:Ht;
        [|by split].
      apply truthy_str_Some in Ht as (r & Hr & Hne). rewrite Hr.
      unfold bind.
      pose proof (request_next s i p r HP Hp Hrun Hall Hr Hne) as H.
      apply (sized_request n i r s Hi Hn) in H.
      by destruct (LockManager.request i r s) as [[b|e|] s'].
Qed.

Lemma triple_step_complete n i :
  (i < n)%nat ->
  triple (sized n) (step_complete i) (fun _ => sized n) E.
Proof.
  intros Hi s [HP Hn]. unfold step_complete, bind, get_process.
  destruct (processes s !! i) as [p|] eqn:Hp;
    [|apply lookup_ge_None in Hp; lia].
  destruct (bool_decide (state p = RUNNING)) eqn:Hrun; simpl; [|by split].
  apply bool_decide_eq_true in Hrun.
  destruct (has_all_resources p) eqn:Hall; [|by split].
  unfold _complete_process.
  pose proof (complete s i p HP Hp Hrun Hall) as H.
  apply (sized_release n i s Hi Hn) in H.
  by destruct (LockManager.release_all i s) as [[[]|e|] s'].
Qed.

Lemma triple_sweeps_sized n :
  triple (sized n) (step_sweeps ordered_mode) (fun _ => sized n) E.
Proof.
  intros s0 [HP0 Hn0]. unfold step_sweeps. unfold bind at 1.
  unfold process_indices at 1. rewrite Hn0.
  eapply (triple_bind (sized n)); [| |by split].
  - apply triple_for_each. intros i Hin. apply elem_of_seq in Hin.
    apply triple_step_process. lia.
  - intros _ s1 [HP1 Hn1]. unfold bind, process_indices. rewrite Hn1.
    apply (triple_for_each (sized n)); [|by split].
    intros i Hin. apply elem_of_seq in Hin.
    apply triple_step_complete. lia.
Qed.

Lemma triple_sweeps :
  triple P (step_sweeps ordered_mode) (fun _ => P) E.
Proof.
  intros s HP. set (n := length (processes s)).
  assert (Hs : sized n s) by done.
  pose proof (triple_sweeps_sized n s Hs) as H.
  destruct (step_sweeps ordered_mode s) as [[[]|e|] s']; [|done..].
  by destruct H.
Qed.

(** The detection raises only in a store that satisfies [E], and the
    marking of a process keeps [P]. *)
Hypothesis bad_request_E :
  forall s i, P s -> DetectorFacts.bad_request s i -> E s.

Hypothesis too_deep_E :
  forall s, P s -> (depth <= length (processes s))%nat -> E s.

Hypothesis mark_P :
  forall s i p,
    P s -> processes s !! i = Some p ->
    P {| processes := <[i := mark_deadlocked p]> (processes s);
         resources := resources s |}.

Lemma mark_cycle_P cycle :
  forall s, P s -> P (snd (mark_cycle cycle s)).
Proof.
  induction cycle as [|x cycle IH]; intros s HP; [done|].
  unfold mark_cycle. simpl. unfold bind at 1, bind at 1, _process_by_id.
  destruct (find_pid x (processes s)) as [i|] eqn:Hfind.
  - destruct (SimulatorFacts.find_pid_Some _ _ _ Hfind) as (p & Hp & _).
    unfold bind at 1. unfold get_process at 1. rewrite Hp.
    unfold set_process, modify. apply IH. by apply mark_P.
  - by apply IH.
Qed.

(** With more depth than process objects the search does not raise. *)
Lemma triple_step_sized n mode t :
  ordered_mode = String.eqb mode "ordered" -> (n < depth)%nat ->
  triple (sized n) (step depth mode t) (fun _ => sized n) E.
Proof.
  intros Hmode Hn. unfold step. rewrite <- Hmode.
  eapply triple_bind; [apply triple_sweeps_sized|]. intros _ s1 [HP1 Hn1].
  unfold bind at 1.
  pose proof (DetectorFacts.detect_deadlock_spec depth s1) as Hd.
  destruct (Detector.detect_deadlock depth s1) as [[[[d es] c]|e|] s2];
    [| |done].
  - destruct Hd as [-> _]. destruct d; [|done].
    unfold bind, ret.
    destruct (SimulatorFacts.mark_cycle_marked c s1)
      as (s3 & Hrun & _ & Hlen & _).
    pose proof (mark_cycle_P c s1 HP1) as H3. rewrite Hrun in *.
    split; [done|lia].
  - destruct Hd as (-> & [(_ & i & Hbad)|(_ & Hle & _)]).
    + by eapply bad_request_E.
    + lia.
Qed.

Lemma triple_step mode t :
  ordered_mode = String.eqb mode "ordered" ->
  triple P (step depth mode t) (fun _ => P) E.
Proof.
  intros Hmode. unfold step. rewrite <- Hmode.
  eapply triple_bind; [apply triple_sweeps|]. intros _ s1 HP1.
  unfold bind at 1.
  pose proof (DetectorFacts.detect_deadlock_spec depth s1) as Hd.
  destruct (Detector.detect_deadlock depth s1) as [[[[d es] c]|e|] s2];
    [| |done].
  - destruct Hd as [-> _]. destruct d; [|done].
    unfold bind, ret.
    destruct (SimulatorFacts.mark_cycle_marked c s1) as (s3 & Hrun & _).
    pose proof (mark_cycle_P c s1 HP1) as H3. rewrite Hrun in *. done.
  - destruct Hd as (-> & [(_ & i & Hbad)|(_ & Hle & _)]).
    + by eapply bad_request_E.
    + by apply too_deep_E.
Qed.

Variable record_step : list Process -> list Process.

Hypothesis record_P :
  forall s, P s -> P {| processes := record_step (processes s);
                        resources := resources s |}.

Lemma triple_run_loop_sized m mode n :
  ordered_mode = String.eqb mode "ordered" -> (m < depth)%nat ->
  (forall ps, length (record_step ps) = length ps) ->
  forall t k d,
    triple (sized m) (run_loop record_step depth mode n t k d)
      (fun _ => sized m) E.
Proof.
  intros Hmode Hm Hlen. induction n as [|n IH]; intros t k d s HP; [done|].
  cbn [run_loop].
  pose proof (triple_step_sized m mode t Hmode Hm s HP) as Hstep.
  destruct (step depth mode t s) as [[b|e|] s1]; [|done..].
  destruct Hstep as [HP1 Hn1]. pose proof (record_P s1 HP1) as HP2.
  unfold do_record_step, modify. cbn [snd].
  assert (H2 : sized m {| processes := record_step (processes s1);
                          resources := resources s1 |}).
  { split; [done|]. simpl. by rewrite Hlen. }
  destruct b; [done|].
  destruct (all_finished _); [done|]. by apply IH.
Qed.

Lemma triple_run_loop mode n :
  ordered_mode = String.eqb mode "ordered" ->
  forall t k d,
    triple P (run_loop record_step depth mode n t k d) (fun _ => P) E.
Proof.
  intros Hmode. induction n as [|n IH]; intros t k d s HP; [done|].
  cbn [run_loop]. pose proof (triple_step mode t Hmode s HP) as Hstep.
  destruct (step depth mode t s) as [[b|e|] s1]; [|done..].
  pose proof (record_P s1 Hstep) as HP2.
  unfold do_record_step, modify. cbn [snd].
  destruct b; [done|].
  destruct (all_finished _); [done|]. by apply IH.
Qed.

End Step.

End StepFacts.

Lemma request_no_fuel i r s :
  fst (LockManager.request i r s) <> NoFuel.
Proof.
  unfold LockManager.request, bind, get_resource, get_process.
  destruct (resources s !! r) as [res|]; [|done].
  destruct (processes s !! i) as [p|]; [|done].
  destruct (held_by res) as [h|]; [|done].
  by destruct (decide (h = pid p)).
Qed.

Lemma release_all_no_fuel i s p :
  processes s !! i = Some p ->
  fst (LockManager.release_all i s) <> NoFuel.
Proof.
  intros Hp.
  pose proof (SimulatorFacts.good_release_all 0 (length (processes s)) i
                ltac:(by eapply lookup_lt_Some) s eq_refl) as H.
  by destruct (LockManager.release_all i s) as [[[]|e|] s'].
Qed.

Lemma mark_lock_inv s i p :
  LockManagerFacts.lock_inv s -> processes s !! i = Some p ->
  LockManagerFacts.lock_inv
    {| processes := <[i := mark_deadlocked p]> (processes s);
       resources := resources s |}.
Proof.
  intros (Hnd & Hrid & Hheld & Hholder) Hp.
  assert (Hi : (i < length (processes s))%nat) by (by eapply lookup_lt_Some).
  split_and!; simpl.
  - by erewrite LockManagerFacts.pids_insert.
  - done.
  - intros j q k Hq Hk. destruct (decide (i = j)) as [->|Hij].
    + rewrite list_lookup_insert_eq in Hq by done.
      inversion Hq; subst q. simpl in *. by apply (Hheld j p k).
    + rewrite list_lookup_insert_ne in Hq by done. by eapply Hheld.
  - intros k r q Hk Hq.
    destruct (Hholder k r q Hk Hq) as (j & pj & Hj & Hpj & Hin).
    destruct (decide (i = j)) as [->|Hij].
    + rewrite Hp in Hj. inversion Hj; subst pj.
      exists j, (mark_deadlocked p).
      by rewrite list_lookup_insert_eq by done.
    + exists j, pj. by rewrite list_lookup_insert_ne.
Qed.

Lemma record_lock_inv (record_step : list Process -> list Process) s :
  (forall ps, pid <$> record_step ps = pid <$> ps
              /\ held_resources <$> record_step ps = held_resources <$> ps) ->
  LockManagerFacts.lock_inv s ->
  LockManagerFacts.lock_inv
    {| processes := record_step (processes s); resources := resources s |}.
Proof.
  intros Hrec (Hnd & Hrid & Hheld & Hholder).
  destruct (Hrec (processes s)) as [Hpids Hhelds].
  assert (Hback : forall j q, record_step (processes s) !! j = Some q ->
            exists p, processes s !! j = Some p /\ pid p = pid q
                      /\ held_resources p = held_resources q).
  { intros j q Hq.
    assert (H1 : (pid <$> record_step (processes s)) !! j = Some (pid q))
      by (by rewrite list_lookup_fmap, Hq).
    assert (H2 : (held_resources <$> record_step (processes s)) !! j
                 = Some (held_resources q))
      by (by rewrite list_lookup_fmap, Hq).
    rewrite Hpids, list_lookup_fmap in H1.
    rewrite Hhelds, list_lookup_fmap in H2.
    destruct (processes s !! j) as [p|]; [|done].
    exists p. simpl in *. by inversion H1; inversion H2. }
  assert (Hforth : forall j p, processes s !! j = Some p ->
            exists q, record_step (processes s) !! j = Some q
                      /\ pid p = pid q
                      /\ held_resources p = held_resources q).
  { intros j p Hp.
    assert (H1 : (pid <$> processes s) !! j = Some (pid p))
      by (by rewrite list_lookup_fmap, Hp).
    rewrite <- Hpids, list_lookup_fmap in H1.
    destruct (record_step (processes s) !! j) as [q|] eqn:Hq; [|done].
    destruct (Hback j q Hq) as (p' & Hp' & ? & ?).
    rewrite Hp in Hp'. inversion Hp'; subst p'. by exists q. }
  split_and!; simpl.
  - by rewrite Hpids.
  - done.
  - intros j q k Hq Hk. destruct (Hback j q Hq) as (p & Hp & Hpid & Hh).
    rewrite <- Hpid. apply (Hheld j p k Hp). by rewrite Hh.
  - intros k r q Hk Hq.
    destruct (Hholder k r q Hk Hq) as (j & pj & Hj & Hpj & Hin).
    destruct (Hforth j pj Hj) as (q' & Hq' & Hpid & Hh).
    exists j, q'. split_and!; [done|congruence|by rewrite <- Hh].
Qed.

Lemma lock_inv_request s i r :
  LockManagerFacts.lock_inv s ->
  match LockManager.request i r s with
  | (Ret _, s') => LockManagerFacts.lock_inv s'
  | (Exc _, s') => LockManagerFacts.lock_inv s'
  | (NoFuel, _) => False
  end.
Proof.
  intros HP. pose proof (LockManagerFacts.request_inv i r s HP) as H.
  pose proof (request_no_fuel i r s) as Hn.
  by destruct (LockManager.request i r s) as [[b|e|] s'].
Qed.

Lemma lock_inv_release_all s i p :
  LockManagerFacts.lock_inv s -> processes s !! i = Some p ->
  match LockManager.release_all i s with
  | (Ret _, s') => LockManagerFacts.lock_inv s'
  | (Exc _, s') => LockManagerFacts.lock_inv s'
  | (NoFuel, _) => False
  end.
Proof.
  intros HP Hp.
  pose proof (LockManagerFacts.release_all_inv i s HP) as H.
  pose proof (release_all_no_fuel i s p Hp) as Hn.
  by destruct (LockManager.release_all i s) as [[[]|e|] s'].
Qed.

Lemma lock_inv_sweeps ordered_mode :
  StepFacts.triple LockManagerFacts.lock_inv
    (Simulator.step_sweeps ordered_mode)
    (fun _ => LockManagerFacts.lock_inv) LockManagerFacts.lock_inv.
Proof.
  apply StepFacts.triple_sweeps.
  - intros s i p r HP _ _ _ _. by apply lock_inv_request.
  - intros s i p r HP _ _ _ _ _. by apply lock_inv_request.
  - intros s i p HP Hp _ _. by eapply lock_inv_release_all.
Qed.

Lemma lock_inv_step depth mode t :
  StepFacts.triple LockManagerFacts.lock_inv (Simulator.step depth mode t)
    (fun _ => LockManagerFacts.lock_inv) LockManagerFacts.lock_inv.
Proof.
  apply (StepFacts.triple_step _ _ (String.eqb mode "ordered") depth).
  - intros s i p r HP _ _ _ _. by apply lock_inv_request.
  - intros s i p r HP _ _ _ _ _. by apply lock_inv_request.
  - intros s i p HP Hp _ _. by eapply lock_inv_release_all.
  - by intros s i HP _.
  - by intros s HP _.
  - apply mark_lock_inv.
  - done.
Qed.

Lemma lock_inv_run_loop record_step depth mode n t k d :
  (forall ps, pid <$> record_step ps = pid <$> ps
              /\ held_resources <$> record_step ps = held_resources <$> ps) ->
  StepFacts.triple LockManagerFacts.lock_inv
    (Simulator.run_loop record_step depth mode n t k d)
    (fun _ => LockManagerFacts.lock_inv) LockManagerFacts.lock_inv.
Proof.
  intros Hrec.
  apply (StepFacts.triple_run_loop _ _ (String.eqb mode "ordered") depth).
  - intros s i p r HP _ _ _ _. by apply lock_inv_request.
  - intros s i p r HP _ _ _ _ _. by apply lock_inv_request.
  - intros s i p HP Hp _ _. by eapply lock_inv_release_all.
  - by intros s i HP _.
  - by intros s HP _.
  - apply mark_lock_inv.
  - intros s. by apply record_lock_inv.
  - done.
Qed.

(** X5.  The simulator keeps the holding invariant of the lock manager:
    after a [step], and after a whole [run] when [record_step] leaves the
    pids and the held sets alone, the pids are distinct, every held id
    names a resource held by that process and every holder is a process
    that lists the resource, whether the call returned or raised. *)
Theorem simulator_keeps_invariant
    (record_step : list Process -> list Process) (depth : nat)
    (mode : string) (max_steps t : Z) (st : Store) :
  (forall ps, pid <$> record_step ps = pid <$> ps
              /\ held_resources <$> record_step ps = held_resources <$> ps) ->
  LockManagerFacts.lock_inv st ->
  LockManagerFacts.lock_inv (snd (Simulator.step depth mode t st))
  /\ LockManagerFacts.lock_inv
       (snd (Simulator.run record_step depth mode max_steps st)).
Proof.
  intros Hrec Hinv. split.
  - pose proof (lock_inv_step depth mode t st Hinv) as H.
    by destruct (Simulator.step depth mode t st) as [[b|e|] s'].
  - pose proof (lock_inv_run_loop record_step depth mode
                  (Z.to_nat max_steps) 0 0%nat false Hrec st Hinv) as H.
    unfold Simulator.run.
    by destruct (Simulator.run_loop record_step depth mode
                   (Z.to_nat max_steps) 0 0 false st) as [[b|e|] s'].
Qed.

Lemma simulator_keeps_invariant_witness :
  LockManagerFacts.lock_inv
    (snd (Simulator.run (fun ps => ps) default_limit "naive" 3
            held_and_wanted)).
Proof.
  apply (simulator_keeps_invariant (fun ps => ps) default_limit "naive" 3 0
           held_and_wanted).
  - intros ps. by split.
  - exact held_and_wanted_inv.
Defined.

(** ** Stores whose processes name existing resources *)

(** Every resource id that a process plans, holds or requests is a key
    of the resource dictionary. *)
Definition closed (s : Store) : Prop :=
  forall i p r,
    processes s !! i = Some p ->
    r ∈ plan p \/ r ∈ held_resources p \/ current_request p = Some r ->
    is_Some (resources s !! r).

(** [record_step] changes at most the [waiting_steps] of the process
    objects it is given. *)
Definition counts_only (record_step : list Process -> list Process) : Prop :=
  forall ps,
    Forall2 (fun p q => pid q = pid p /\ plan q = plan p
                        /\ held_resources q = held_resources p
                        /\ current_request q = current_request p
                        /\ state q = state p)
            ps (record_step ps).

Lemma counts_only_fields record_step ps :
  counts_only record_step ->
  pid <$> record_step ps = pid <$> ps
  /\ held_resources <$> record_step ps = held_resources <$> ps.
Proof.
  intros Hrec. pose proof (Hrec ps) as H. revert H.
  generalize (record_step ps). intros l H.
  induction H as [|p q l1 l2 (Hpid & _ & Hheld & _) _ [IH1 IH2]]; [done|].
  rewrite !fmap_cons. by rewrite Hpid, Hheld, IH1, IH2.
Qed.

Lemma counts_only_length record_step ps :
  counts_only record_step -> length (record_step ps) = length ps.
Proof.
  intros Hrec. symmetry. by eapply Forall2_length.
Qed.

Lemma next_request_elem p ordered_mode r :
  next_request p ordered_mode = Some r ->
  r ∈ plan p /\ r ∉ held_resources p.
Proof.
  unfold next_request.
  destruct (bool_decide (state p ∈ [BLOCKED; DEADLOCKED; FINISHED])); [done|].
  destruct (List.filter _ (plan p)) as [|x l] eqn:Hrem; [done|].
  destruct ordered_mode.
  - intros Hhd. apply ModelsFacts.remaining_elem. rewrite Hrem.
    apply ModelsFacts.sorted_elem. apply head_Some_elem_of in Hhd. done.
  - intros Hfind.
    pose proof (ModelsFacts.find_first
                  (fun resource_id =>
                     bool_decide (resource_id ∉ held_resources p))
                  (plan p)) as H.
    rewrite Hfind in H. destruct H as (before & after & Hplan & Hr & _).
    apply bool_decide_eq_true in Hr. split; [|done].
    rewrite Hplan. apply elem_of_app. right. by left.
Qed.

Lemma closed_request i r s p :
  closed s -> processes s !! i = Some p -> is_Some (resources s !! r) ->
  exists b s', LockManager.request i r s = (Ret b, s') /\ closed s'.
Proof.
  intros Hc Hp [res Hres].
  assert (Hi : (i < length (processes s))%nat) by (by eapply lookup_lt_Some).
  unfold LockManager.request, bind, get_resource, get_process.
  rewrite Hres, Hp. destruct (held_by res) as [holder|].
  - destruct (decide (holder = pid p)); [by exists true, s|].
    eexists false, _. split; [reflexivity|].
    intros j q k Hq Hk. simpl in *.
    destruct (decide (i = j)) as [->|Hij].
    + rewrite list_lookup_insert_eq in Hq by done. inversion Hq; subst q.
      simpl in Hk. destruct Hk as [Hk|[Hk|Hk]];
        [by eapply Hc; eauto|by eapply Hc; eauto|].
      inversion Hk; subst k. by eexists.
    + rewrite list_lookup_insert_ne in Hq by done. by eapply Hc.
  - eexists true, _. split; [reflexivity|].
    intros j q k Hq Hk. simpl in *.
    assert (Hold : is_Some (resources s !! k) ->
                   is_Some (<[r := set_held_by (Some (pid p)) res]>
                              (resources s) !! k)).
    { intros Hs. destruct (decide (r = k)) as [->|Hne].
      - rewrite lookup_insert_eq. by eexists.
      - by rewrite lookup_insert_ne. }
    destruct (decide (i = j)) as [->|Hij].
    + rewrite list_lookup_insert_eq in Hq by done. inversion Hq; subst q.
      simpl in Hk. destruct Hk as [Hk|[Hk|Hk]]; [| |done].
      * apply Hold. by eapply Hc; eauto.
      * apply elem_of_union in Hk as [Hk|Hk].
        -- apply elem_of_singleton in Hk. subst k.
           rewrite lookup_insert_eq. by eexists.
        -- apply Hold. by eapply Hc; eauto.
    + rewrite list_lookup_insert_ne in Hq by done. apply Hold.
      by eapply Hc.
Qed.

Lemma closed_release_all i s p :
  closed s -> processes s !! i = Some p ->
  exists s', LockManager.release_all i s = (Ret tt, s') /\ closed s'.
Proof.
  intros Hc Hp.
  assert (Hi : (i < length (processes s))%nat) by (by eapply lookup_lt_Some).
  unfold LockManager.release_all. unfold bind at 1. unfold get_process at 1.
  rewrite Hp.
  destruct (LockManagerFacts.release_loop i (elements (held_resources p))
              s p Hp) as (res' & Hrun & Hres').
  { intros k Hk. apply elem_of_elements in Hk. eapply Hc; eauto. }
  unfold bind at 1. rewrite Hrun. unfold bind, get_process. simpl.
  rewrite Hp. simpl. eexists. split; [reflexivity|].
  assert (Hkeep : forall k, is_Some (resources s !! k) -> is_Some (res' !! k)).
  { intros k [r Hr]. rewrite Hres'. unfold LockManagerFacts.freed.
    rewrite Hr. by destruct (decide _); eexists. }
  intros j q k Hq Hk. simpl in *. apply Hkeep.
  destruct (decide (i = j)) as [->|Hij].
  - rewrite list_lookup_insert_eq in Hq by done. inversion Hq; subst q.
    simpl in Hk. destruct Hk as [Hk|[Hk|Hk]]; [|set_solver|done].
    eapply Hc; eauto.
  - rewrite list_lookup_insert_ne in Hq by done. by eapply Hc.
Qed.

Lemma closed_mark s i p :
  closed s -> processes s !! i = Some p ->
  closed {| processes := <[i := mark_deadlocked p]> (processes s);
            resources := resources s |}.
Proof.
  intros Hc Hp j q k Hq Hk. simpl in *.
  assert (Hi : (i < length (processes s))%nat) by (by eapply lookup_lt_Some).
  destruct (decide (i = j)) as [->|Hij].
  - rewrite list_lookup_insert_eq in Hq by done. inversion Hq; subst q.
    simpl in Hk. by eapply Hc.
  - rewrite list_lookup_insert_ne in Hq by done. by eapply Hc.
Qed.

Lemma closed_record record_step s :
  counts_only record_step -> closed s ->
  closed {| processes := record_step (processes s);
            resources := resources s |}.
Proof.
  intros Hrec Hc j q k Hq Hk. simpl in *.
  destruct (Forall2_lookup_r _ _ _ _ _ (Hrec (processes s)) Hq)
    as (p & Hp & _ & Hplan & Hheld & Hreq & _).
  apply (Hc j p k Hp). by rewrite <- Hplan, <- Hheld, <- Hreq.
Qed.

Lemma closed_no_bad_request s i :
  closed s -> DetectorFacts.bad_request s i -> False.
Proof.
  intros Hc (p & r & Hp & _ & Hr & _ & Hnone).
  destruct (Hc i p r Hp) as [x Hx]; [by right; right|congruence].
Qed.

Lemma closed_request_returns s i p r :
  closed s -> processes s !! i = Some p -> is_Some (resources s !! r) ->
  match LockManager.request i r s with
  | (Ret _, s') => closed s'
  | (Exc _, s') => False
  | (NoFuel, _) => False
  end.
Proof.
  intros Hs Hp Hr.
  by destruct (closed_request i r s p Hs Hp Hr) as (b & s' & -> & Hs').
Qed.

(** A closed store of [n] process objects. *)
Definition closed_of (n : nat) : Store -> Prop := StepFacts.sized closed n.

Lemma closed_step depth n mode t :
  (n < depth)%nat ->
  StepFacts.triple (closed_of n) (Simulator.step depth mode t)
    (fun _ => closed_of n) (fun _ => False).
Proof.
  intros Hn.
  apply (StepFacts.triple_step_sized _ _ (String.eqb mode "ordered") depth);
    [| | | | |done..].
  - intros s i p r Hs Hp _ Hr _. apply (closed_request_returns s i p r Hs Hp).
    eapply Hs; eauto.
  - intros s i p r Hs Hp _ _ Hr _. apply (closed_request_returns s i p r Hs Hp).
    apply next_request_elem in Hr as [Hr _]. eapply Hs; eauto.
  - intros s i p Hs Hp _ _.
    by destruct (closed_release_all i s p Hs Hp) as (s' & -> & Hs').
  - apply closed_no_bad_request.
  - apply closed_mark.
Qed.

Lemma closed_run_loop record_step depth m mode n t k d :
  counts_only record_step -> (m < depth)%nat ->
  StepFacts.triple (closed_of m)
    (Simulator.run_loop record_step depth mode n t k d)
    (fun _ => closed_of m) (fun _ => False).
Proof.
  intros Hrec Hm.
  apply (StepFacts.triple_run_loop_sized _ _ (String.eqb mode "ordered")
           depth); [| | | | | |done|done|].
  - intros s i p r Hs Hp _ Hr _. apply (closed_request_returns s i p r Hs Hp).
    eapply Hs; eauto.
  - intros s i p r Hs Hp _ _ Hr _. apply (closed_request_returns s i p r Hs Hp).
    apply next_request_elem in Hr as [Hr _]. eapply Hs; eauto.
  - intros s i p Hs Hp _ _.
    by destruct (closed_release_all i s p Hs Hp) as (s' & -> & Hs').
  - apply closed_no_bad_request.
  - apply closed_mark.
  - intros s. by apply closed_record.
  - intros ps. by apply counts_only_length.
Qed.

(** [run] from a closed store of fewer process objects than the depth
    allowed returns, and why it stopped. *)
Lemma closed_run record_step depth mode max_steps st :
  counts_only record_step -> closed st ->
  (length (processes st) < depth)%nat ->
  exists deadlock_found steps st',
    Simulator.run record_step depth mode max_steps st
    = (Ret (deadlock_found, steps), st')
    /\ closed st'
    /\ length (processes st') = length (processes st)
    /\ (steps <= Z.to_nat max_steps)%nat
    /\ (deadlock_found = true \/ Simulator.all_finished st' = true
        \/ steps = Z.to_nat max_steps).
Proof.
  intros Hrec Hc Hlen.
  pose proof (closed_run_loop record_step depth (length (processes st)) mode
                (Z.to_nat max_steps) 0 0%nat false Hrec Hlen st
                (conj Hc eq_refl)) as H.
  destruct (SimulatorFacts.run_loop_spec record_step depth mode
              (Z.to_nat max_steps) 0 0%nat false st)
    as (j & Hj & _ & Hspec).
  unfold Simulator.run.
  destruct (Simulator.run_loop record_step depth mode (Z.to_nat max_steps) 0
              0 false st) as [[[d k]|e|] s']; [|done..].
  destruct Hspec as (-> & _ & Hcase). destruct H as [Hc' Hlen'].
  exists d, (0 + j)%nat, s'. split_and!; [done|done|done|lia|].
  destruct Hcase as [(-> & Hn & _)|(j' & -> & _ & Hor)].
  - right; right. lia.
  - destruct Hor as [?|[?|?]]; [by left|by right; left|right; right; lia].
Qed.

(** X6.  When every resource id that a process plans, holds or requests
    is a key of the resource dictionary, and the process objects are
    fewer than the depth that the interpreter allows to the search of
    the detector, [step] and [run] never raise: [step] returns, and
    [run] returns after at most [max_steps] calls of [step], having met
    a deadlock, or all processes [FINISHED], or the bound; the store
    they leave names existing resources only. *)
Theorem closed_run_returns
    (record_step : list Process -> list Process) (depth : nat)
    (mode : string) (max_steps t : Z) (st : Store) :
  counts_only record_step -> closed st ->
  (length (processes st) < depth)%nat ->
  (exists deadlock st1,
     Simulator.step depth mode t st = (Ret deadlock, st1) /\ closed st1)
  /\ exists deadlock_found steps st',
       Simulator.run record_step depth mode max_steps st
       = (Ret (deadlock_found, steps), st')
       /\ closed st'
       /\ (steps <= Z.to_nat max_steps)%nat
       /\ (deadlock_found = true \/ Simulator.all_finished st' = true
           \/ steps = Z.to_nat max_steps).
Proof.
  intros Hrec Hc Hlen. split.
  - pose proof (closed_step depth (length (processes st)) mode t Hlen st
                  (conj Hc eq_refl)) as H.
    destruct (Simulator.step depth mode t st) as [[b|e|] s']; [|done..].
    exists b, s'. by destruct H.
  - destruct (closed_run record_step depth mode max_steps st Hrec Hc Hlen)
      as (d & k & st' & Hrun & Hc' & _ & Hk & Hor).
    by exists d, k, st'.
Qed.

Lemma closed_run_returns_witness :
  exists deadlock_found steps st',
    Simulator.run (fun ps => ps) default_limit "naive" 5 two_for_one
    = (Ret (deadlock_found, steps), st').
Proof.
  destruct (closed_run_returns (fun ps => ps) default_limit "naive" 5 0
              two_for_one)
    as (_ & d & k & st' & Hrun & _).
  - intros ps. induction ps; constructor; done.
  - intros [|[|[|i]]] p r Hp Hr; simpl in Hp; inversion Hp; subst p;
      simpl in Hr; destruct Hr as [Hr|[Hr|Hr]]; try done;
      apply list_elem_of_singleton in Hr; subst r; by eexists.
  - unfold default_limit. simpl. lia.
  - by exists d, k, st'.
Defined.

(** ** Ordered mode *)

Module OrderedFacts.
Import Simulator.

(** The strict order of [sorted] on resource ids. *)
Definition str_lt (a b : string) : Prop := String.leb a b = true /\ a <> b.

Lemma leb_antisym a b :
  String.leb a b = true -> String.leb b a = true -> a = b.
Proof.
  unfold String.leb. rewrite (String.compare_antisym b a).
  destruct (String.compare a b) eqn:Hc; simpl; try done.
  intros _ _. by apply String.compare_eq_iff.
Qed.

Lemma str_lt_irrefl a : ~ str_lt a a.
Proof. by intros [_ H]. Qed.

Lemma str_lt_trans a b c : str_lt a b -> str_lt b c -> str_lt a c.
Proof.
  intros [Hab Hne] [Hbc _]. split; [by eapply ModelsFacts.leb_trans|].
  intros ->. apply Hne. by apply leb_antisym.
Qed.

Lemma str_le_lt_trans a b c :
  String.leb a b = true -> str_lt b c -> str_lt a c.
Proof.
  intros Hab [Hbc Hne]. split; [by eapply ModelsFacts.leb_trans|].
  intros ->. apply Hne. by apply leb_antisym.
Qed.

(** A process that takes its resources in ascending order: what it holds
    is below what it still plans to take, and the resource it is blocked
    on is the least of those and above what it holds. *)
Definition ordered_proc (p : Process) : Prop :=
  (forall k r, k ∈ held_resources p -> r ∈ plan p ->
     r ∉ held_resources p -> str_lt k r)
  /\ (forall r, state p = BLOCKED -> current_request p = Some r -> r <> "" ->
        (forall k, k ∈ held_resources p -> str_lt k r)
        /\ (forall r', r' ∈ plan p -> r' ∉ held_resources p ->
              String.leb r r' = true)).

Definition ordered_inv (s : Store) : Prop :=
  LockManagerFacts.lock_inv s
  /\ forall i p, processes s !! i = Some p -> ordered_proc p.

Lemma next_request_least p r :
  next_request p true = Some r ->
  forall r', r' ∈ plan p -> r' ∉ held_resources p -> String.leb r r' = true.
Proof.
  unfold next_request.
  destruct (bool_decide (state p ∈ [BLOCKED; DEADLOCKED; FINISHED])); [done|].
  destruct (List.filter _ (plan p)) as [|x l] eqn:Hrem; [done|].
  intros Hhd r' Hplan Hheld.
  apply (ModelsFacts.sorted_least (x :: l) r Hhd).
  apply ModelsFacts.sorted_elem. rewrite <- Hrem.
  by apply ModelsFacts.remaining_elem.
Qed.

(** A request for the least resource that the process lacks keeps the
    order. *)
Lemma ordered_request i r s p :
  ordered_inv s -> processes s !! i = Some p ->
  (forall k, k ∈ held_resources p -> str_lt k r) ->
  (forall r', r' ∈ plan p -> r' ∉ held_resources p ->
     String.leb r r' = true) ->
  ordered_inv (snd (LockManager.request i r s)).
Proof.
  intros [Hinv Hord] Hp Hlow Hleast.
  split; [by apply LockManagerFacts.request_inv|].
  assert (Hi : (i < length (processes s))%nat) by (by eapply lookup_lt_Some).
  destruct (Hord i p Hp) as [HA HB].
  unfold LockManager.request, bind, get_resource, get_process.
  destruct (resources s !! r) as [res|]; [|exact Hord].
  rewrite Hp. destruct (held_by res) as [holder|].
  - destruct (decide (holder = pid p)); [exact Hord|].
    intros j q Hq. simpl in Hq.
    destruct (decide (i = j)) as [->|Hij].
    + rewrite list_lookup_insert_eq in Hq by done. inversion Hq; subst q.
      split; simpl; [exact HA|].
      intros r0 _ Hr0 _. by inversion Hr0; subst r0.
    + rewrite list_lookup_insert_ne in Hq by done. by eapply Hord.
  - intros j q Hq. simpl in Hq.
    destruct (decide (i = j)) as [->|Hij].
    + rewrite list_lookup_insert_eq in Hq by done. inversion Hq; subst q.
      split; simpl; [|done].
      intros k r' Hk Hr' Hnot.
      apply not_elem_of_union in Hnot as [Hne Hnot].
      apply not_elem_of_singleton in Hne.
      apply elem_of_union in Hk as [Hk|Hk].
      * apply elem_of_singleton in Hk. subst k. split; [by apply Hleast|done].
      * by apply HA.
    + rewrite list_lookup_insert_ne in Hq by done. by eapply Hord.
Qed.

Lemma ordered_release_all i s p :
  ordered_inv s -> processes s !! i = Some p ->
  fst (LockManager.release_all i s) = Ret tt
  /\ ordered_inv (snd (LockManager.release_all i s)).
Proof.
  intros [Hinv Hord] Hp.
  assert (Hi : (i < length (processes s))%nat) by (by eapply lookup_lt_Some).
  pose proof (LockManagerFacts.release_all_inv i s Hinv) as Hinv'.
  destruct (release_all_spec i s p Hinv Hp) as (res' & Hrun & _).
  rewrite Hrun in *. split; [done|]. split; [done|].
  intros j q Hq. simpl in Hq.
  destruct (decide (i = j)) as [->|Hij].
  - rewrite list_lookup_insert_eq in Hq by done. inversion Hq; subst q.
    split; simpl; [set_solver|done].
  - rewrite list_lookup_insert_ne in Hq by done. by eapply Hord.
Qed.

Lemma ordered_mark s i p :
  ordered_inv s -> processes s !! i = Some p ->
  ordered_inv {| processes := <[i := mark_deadlocked p]> (processes s);
                 resources := resources s |}.
Proof.
  intros [Hinv Hord] Hp. split; [by apply mark_lock_inv|].
  assert (Hi : (i < length (processes s))%nat) by (by eapply lookup_lt_Some).
  intros j q Hq. simpl in Hq.
  destruct (decide (i = j)) as [->|Hij].
  - rewrite list_lookup_insert_eq in Hq by done. inversion Hq; subst q.
    destruct (Hord j p Hp) as [HA _]. split; simpl; [exact HA|done].
  - rewrite list_lookup_insert_ne in Hq by done. by eapply Hord.
Qed.

Lemma ordered_record record_step s :
  counts_only record_step -> ordered_inv s ->
  ordered_inv {| processes := record_step (processes s);
                 resources := resources s |}.
Proof.
  intros Hrec [Hinv Hord]. split.
  - apply record_lock_inv; [|done]. intros ps.
    by apply counts_only_fields.
  - intros j q Hq. simpl in Hq.
    destruct (Forall2_lookup_r _ _ _ _ _ (Hrec (processes s)) Hq)
      as (p & Hp & _ & Hplan & Hheld & Hreq & Hst).
    destruct (Hord j p Hp) as [HA HB].
    split; rewrite ?Hplan, ?Hheld, ?Hreq, ?Hst; done.
Qed.

(** The resource a blocked process waits for. *)
Definition waits_on (s : Store) (a r : string) : Prop :=
  exists i p,
    processes s !! i = Some p /\ pid p = a /\ state p = BLOCKED
    /\ current_request p = Some r /\ r <> "".

Lemma waits_on_fun s a r r' :
  LockManagerFacts.lock_inv s -> waits_on s a r -> waits_on s a r' -> r = r'.
Proof.
  intros (Hnd & _) (i & p & Hp & Hpid & _ & Hr & _)
         (j & q & Hq & Hqid & _ & Hr' & _).
  assert (i = j)
    by (eapply LockManagerFacts.pid_index_inj; eauto; congruence).
  subst j. congruence.
Qed.

Lemma waits_for_on s a b :
  DetectorFacts.waits_for s a b -> exists r, waits_on s a r.
Proof.
  intros (i & p & r & res & Hp & Hpid & Hst & Hr & Hne & _).
  by exists r, i, p.
Qed.

(** Along an edge of the wait-for graph the awaited resource grows. *)
Lemma waits_for_lt s a b ra rb :
  ordered_inv s -> DetectorFacts.waits_for s a b ->
  waits_on s a ra -> waits_on s b rb -> str_lt ra rb.
Proof.
  intros [Hinv Hord] (i & p & r & res & Hp & Hpid & Hst & Hr & Hne
                        & Hres & Hh & _) Ha Hb.
  assert (r = ra).
  { apply (waits_on_fun s a); [done| |done]. by exists i, p. }
  subst r.
  pose proof Hinv as (Hnd & _ & _ & Hholder).
  destruct (Hholder ra res b Hres Hh) as (j & q & Hq & Hqid & Hin).
  destruct Hb as (j' & q' & Hq' & Hqid' & Hst' & Hr' & Hne').
  assert (j = j')
    by (eapply LockManagerFacts.pid_index_inj; eauto; congruence).
  subst j'. rewrite Hq in Hq'. inversion Hq'; subst q'.
  destruct (Hord j q Hq) as [_ HB].
  destruct (HB rb Hst' Hr' Hne') as [Hlow _]. by apply Hlow.
Qed.

Lemma no_wait_cycle s g :
  ordered_inv s ->
  (forall a b, Detector.edge g a b <-> DetectorFacts.waits_for s a b) ->
  ~ DetectorFacts.has_cycle g.
Proof.
  intros Hinv Hedge [x Hx].
  assert (Hlt : forall a b, tc (Detector.edge g) a b ->
            forall ra rb, waits_on s a ra -> waits_on s b rb -> str_lt ra rb).
  { intros a b Htc. induction Htc as [a b Hab|a b c Hab Hbc IH];
      intros ra rc Ha Hc.
    - apply Hedge in Hab. by eapply waits_for_lt.
    - assert (Hb : exists rb, waits_on s b rb).
      { inversion Hbc as [? ? H|? y ? H _]; subst;
          apply Hedge in H; by eapply waits_for_on. }
      destruct Hb as [rb Hb]. apply Hedge in Hab.
      eapply str_lt_trans; [by eapply waits_for_lt|by apply IH]. }
  assert (Hr : exists r, waits_on s x r).
  { inversion Hx as [? ? H|? y ? H _]; subst;
      apply Hedge in H; by eapply waits_for_on. }
  destruct Hr as [r Hr]. by apply (str_lt_irrefl r), (Hlt x x).
Qed.

Lemma ordered_sweeps :
  StepFacts.triple ordered_inv (step_sweeps true) (fun _ => ordered_inv)
    ordered_inv.
Proof.
  apply StepFacts.triple_sweeps.
  - intros s i p r Hs Hp Hst Hr Hne.
    pose proof Hs as [_ Hord]. destruct (Hord i p Hp) as [_ HB].
    destruct (HB r Hst Hr Hne) as [Hlow Hleast].
    pose proof (ordered_request i r s p Hs Hp Hlow Hleast) as H.
    pose proof (request_no_fuel i r s) as Hn.
    by destruct (LockManager.request i r s) as [[b|e|] s'].
  - intros s i p r Hs Hp Hst Hall Hr Hne.
    pose proof Hs as [_ Hord]. destruct (Hord i p Hp) as [HA _].
    pose proof (next_request_elem p true r Hr) as [Hplan Hheld].
    pose proof (ordered_request i r s p Hs Hp
                  (fun k Hk => HA k r Hk Hplan Hheld)
                  (next_request_least p r Hr)) as H.
    pose proof (request_no_fuel i r s) as Hn.
    by destruct (LockManager.request i r s) as [[b|e|] s'].
  - intros s i p Hs Hp _ _.
    destruct (ordered_release_all i s p Hs Hp) as [Hret H].
    by destruct (LockManager.release_all i s) as [[[]|e|] s'].
Qed.

(** In ordered mode a step from an ordered store reports no deadlock. *)
Lemma ordered_step depth t s :
  ordered_inv s ->
  match step depth "ordered" t s with
  | (Ret b, s') => b = false /\ ordered_inv s'
  | (Exc _, s') => ordered_inv s'
  | (NoFuel, _) => False
  end.
Proof.
  intros Hs. unfold step. cbn [String.eqb Ascii.eqb Bool.eqb].
  unfold bind at 1. pose proof (ordered_sweeps s Hs) as H1.
  destruct (step_sweeps true s) as [[[]|e|] s1]; [|done..].
  unfold bind at 1. pose proof (DetectorFacts.detect_deadlock_spec depth s1) as Hd.
  destruct (Detector.detect_deadlock depth s1) as [[[[d es] c]|e|] s2];
    [| |done].
  - destruct Hd as (-> & g & Hg & _ & Hcase).
    pose proof (DetectorFacts.build_wait_for_graph_spec s1) as Hb.
    rewrite Hg in Hb. destruct Hb as [_ Hedge].
    destruct Hcase as [(_ & _ & _ & Hcyc)|(-> & _)]; [|done].
    by destruct (no_wait_cycle s1 g H1 Hedge).
  - by destruct Hd as (-> & _).
Qed.

Lemma ordered_run_loop record_step depth n :
  counts_only record_step ->
  forall t k s,
    ordered_inv s ->
    match run_loop record_step depth "ordered" n t k false s with
    | (Ret (d, _), s') => d = false /\ ordered_inv s'
    | (Exc _, s') => ordered_inv s'
    | (NoFuel, _) => False
    end.
Proof.
  intros Hrec. induction n as [|n IH]; intros t k s Hs; [done|].
  cbn [run_loop]. pose proof (ordered_step depth t s Hs) as Hstep.
  destruct (step depth "ordered" t s) as [[b|e|] s1]; [|done..].
  destruct Hstep as [-> Hs1].
  pose proof (ordered_record record_step s1 Hrec Hs1) as Hs2.
  unfold do_record_step, modify. cbn [snd].
  destruct (all_finished _); [done|]. by apply IH.
Qed.

(** A store in which nothing is held and every process is [RUNNING]. *)
Lemma fresh_ordered s :
  LockManagerFacts.initial s ->
  (forall i p, processes s !! i = Some p -> state p = RUNNING) ->
  ordered_inv s.
Proof.
  intros Hinit Hrun. split; [by apply LockManagerFacts.initial_inv|].
  destruct Hinit as (_ & _ & Hheld).
  intros i p Hp. split.
  - intros k r Hk. rewrite (Hheld i p Hp) in Hk. set_solver.
  - intros r Hst. rewrite (Hrun i p Hp) in Hst. done.
Qed.

End OrderedFacts.

(** X7.  Ordered mode prevents deadlock.  From a store in which every
    process holds only resources below those it still plans to take,
    and is blocked, if at all, on the least of these (in particular from
    a store where nothing is held and every process is [RUNNING]), no
    [step] in mode ["ordered"] reports a deadlock, and [run] does not
    end on one; the order is kept by every step. *)
Theorem ordered_mode_no_deadlock
    (record_step : list Process -> list Process) (depth : nat)
    (max_steps t : Z) (st : Store) :
  counts_only record_step -> OrderedFacts.ordered_inv st ->
  fst (Simulator.step depth "ordered" t st) <> Ret true
  /\ OrderedFacts.ordered_inv (snd (Simulator.step depth "ordered" t st))
  /\ (forall found steps,
        fst (Simulator.run record_step depth "ordered" max_steps st)
        = Ret (found, steps) -> found = false)
  /\ OrderedFacts.ordered_inv
       (snd (Simulator.run record_step depth "ordered" max_steps st)).
Proof.
  intros Hrec Hs.
  pose proof (OrderedFacts.ordered_step depth t st Hs) as H1.
  pose proof (OrderedFacts.ordered_run_loop record_step depth
                (Z.to_nat max_steps) Hrec 0 0%nat st Hs) as H2.
  unfold Simulator.run.
  destruct (Simulator.step depth "ordered" t st) as [[b|e|] s1]; [| |done];
    destruct (Simulator.run_loop record_step depth "ordered" (Z.to_nat max_steps)
                0 0 false st) as [[[d k]|e'|] s2]; try done; simpl;
    repeat match goal with
           | H : _ = false /\ _ |- _ => destruct H as [-> H]
           end;
    split_and!; try done; intros found steps Heq; by inversion Heq.
Qed.

Lemma ordered_mode_no_deadlock_witness :
  fst (Simulator.step default_limit "ordered" 0 two_for_one) <> Ret true.
Proof.
  apply (ordered_mode_no_deadlock (fun ps => ps) default_limit 5 0
           two_for_one).
  - intros ps. induction ps; constructor; done.
  - apply OrderedFacts.fresh_ordered; [exact two_for_one_initial|].
    intros [|[|i]] p Hp; simpl in Hp; by inversion Hp.
Defined.

(** ** What the detector reports *)

Module ReportFacts.
Import Detector DetectorFacts.

(** A cycle that passes through every one of its nodes once, written
    with its first node repeated at the end. *)
Definition simple (c : list string) : Prop :=
  exists x l, c = x :: l ++ [x] /\ NoDup (x :: l).

Lemma list_index_lookup x l idx :
  list_index x l = Some idx -> l !! idx = Some x.
Proof.
  revert idx. induction l as [|y l IH]; intros idx; simpl; [done|].
  destruct (decide (y = x)) as [->|Hne].
  - intros H. by inversion H.
  - destruct (list_index x l) as [j|]; simpl; [|done].
    intros H. inversion H; subst. by apply IH.
Qed.

Lemma NoDup_drop {A} (n : nat) (l : list A) : NoDup l -> NoDup (drop n l).
Proof. intros H. eapply sublist_NoDup; [done|apply sublist_drop]. Qed.

Section Search.
Variable g : graph.

Lemma found_simple s neighbor idx :
  inv g s -> list_index neighbor (path s) = Some idx ->
  simple (drop idx (path s) ++ [neighbor]).
Proof.
  intros (_ & _ & Hnd & _) Hidx. apply list_index_lookup in Hidx.
  exists neighbor, (drop (S idx) (path s)).
  split; [by rewrite (drop_S _ _ _ Hidx)|].
  rewrite <- (drop_S _ _ _ Hidx). by apply NoDup_drop.
Qed.

Lemma dfs_neighbors_simple depth rec node :
  (forall n s, dfs_pre g n s ->
               search_post g (depth <= room g s)%nat (dfs_post g n s)
                 (rec n s)) ->
  (forall n s c, dfs_pre g n s ->
                 fst (rec n s) = Ret (Some c) -> simple c) ->
  forall ns s p0 c,
    inv g s -> path s = p0 ++ [node] ->
    (forall n, n ∈ ns -> edge g node n) ->
    fst (dfs_neighbors rec node ns s) = Ret (Some c) -> simple c.
Proof.
  intros Hrec Hsimple ns.
  induction ns as [|n ns IH]; intros s p0 c Hinv Hpath Hns.
  - simpl. unfold dfs_leave. destruct (decide (node ∈ stack s)); [|done].
    by destruct (path s).
  - assert (Hedge : edge g node n) by (apply Hns; left).
    simpl. destruct (decide (n ∉ visited s)) as [Hnv|Hv].
    + assert (Hpre : dfs_pre g n s).
      { split_and!; try done.
        - by apply (edge_nodes g node n).
        - intros u Hu. rewrite Hpath, last_snoc in Hu.
          by inversion Hu; subst. }
      pose proof (Hrec n s Hpre) as Hr. pose proof (Hsimple n s) as Hs.
      unfold search_post in Hr.
      destruct (rec n s) as [[[c'|]|e|] s1]; [| |done..].
      * pose proof (proj1 (proj2 Hr)) as Hlen.
        destruct c' as [|y c']; [simpl in Hlen; lia|]. simpl.
        intros Heq. inversion Heq; subst c. by apply Hs.
      * destruct Hr as (Hinv1 & Hsub & Hn1 & Hst & Hp1). simpl.
        apply (IH s1 p0 c Hinv1); [by rewrite Hp1|].
        intros m Hm. apply Hns. by right.
    + destruct (decide (n ∈ stack s)) as [Hstk|Hnstk].
      * destruct (list_index n (path s)) as [idx|] eqn:Hidx; [|done].
        simpl. intros Heq. inversion Heq; subst c.
        by apply found_simple.
      * apply (IH s p0 c Hinv Hpath).
        intros m Hm. apply Hns. by right.
Qed.

Lemma dfs_simple depth :
  forall node s c,
    dfs_pre g node s ->
    fst (dfs g depth node s) = Ret (Some c) -> simple c.
Proof.
  induction depth as [|depth IH]; intros node s c (Hinv & Hnv & Hn & Hlast).
  - done.
  - simpl.
    apply (dfs_neighbors_simple depth (dfs g depth) node (dfs_spec g depth)
             IH (graph_get g node) (dfs_enter node s) (path s) c).
    + by apply inv_enter.
    + done.
    + done.
Qed.

Lemma find_cycle_from_simple depth keys :
  forall s c,
    inv g s -> stack s = ∅ -> path s = [] ->
    (forall k, k ∈ keys -> k ∈ nodes g) ->
    fst (find_cycle_from g depth keys s) = Ret (Some c) -> simple c.
Proof.
  induction keys as [|k keys IH]; intros s c Hinv Hst Hp Hkeys; [done|].
  assert (Hrest : forall k', k' ∈ keys -> k' ∈ nodes g)
    by (intros k' Hk'; apply Hkeys; by right).
  simpl. destruct (decide (k ∉ visited s)) as [Hnv|Hv].
  - assert (Hpre : dfs_pre g k s).
    { split_and!; try done.
      - apply Hkeys. by left.
      - intros u. by rewrite Hp. }
    pose proof (dfs_spec g depth k s Hpre) as Hdfs.
    pose proof (dfs_simple depth k s) as Hs.
    unfold search_post in Hdfs.
    destruct (dfs g depth k s) as [[[c'|]|e|] s1]; [| |done..].
    + pose proof (proj1 (proj2 Hdfs)) as Hlen.
      destruct c' as [|y c']; [simpl in Hlen; lia|]. simpl.
      intros Heq. inversion Heq; subst c. by apply Hs.
    + destruct Hdfs as (Hinv1 & Hsub & Hk1 & Hst1 & Hp1). simpl.
      apply (IH s1 c Hinv1); [by rewrite Hst1|by rewrite Hp1|done].
  - by apply IH.
Qed.

Lemma find_cycle_simple depth c :
  _find_cycle depth g = Ret (Some c) -> simple c.
Proof.
  unfold _find_cycle.
  apply (find_cycle_from_simple depth (graph_keys g)
           {| visited := ∅; stack := ∅; path := [] |} c (inv_init g)
           eq_refl eq_refl).
  apply keys_nodes.
Qed.

End Search.

(** A dictionary of sets: no key twice, no element twice in a set. *)
Definition graph_wf (g : graph) : Prop :=
  NoDup (graph_keys g) /\ forall k vs, (k, vs) ∈ g -> NoDup vs.

Lemma graph_add_keys g k v x :
  x ∈ graph_keys (graph_add g k v) <-> x ∈ graph_keys g \/ x = k.
Proof.
  unfold graph_keys. induction g as [|[k' vs] g IH]; simpl.
  - rewrite list_elem_of_singleton. set_solver.
  - destruct (decide (k' = k)) as [->|Hne]; simpl.
    + rewrite !elem_of_cons. naive_solver.
    + rewrite !elem_of_cons, IH. naive_solver.
Qed.

Lemma set_add_NoDup v vs : NoDup vs -> NoDup (set_add v vs).
Proof.
  intros H. unfold set_add. destruct (decide (v ∈ vs)); [done|].
  apply NoDup_app. split; [done|]. split; [|apply NoDup_singleton].
  intros x Hx Hx'. apply list_elem_of_singleton in Hx'. by subst.
Qed.

Lemma graph_add_wf g k v : graph_wf g -> graph_wf (graph_add g k v).
Proof.
  unfold graph_wf, graph_keys.
  induction g as [|[k' vs] g IH]; simpl; intros [Hnd Hvs].
  - split; [apply NoDup_singleton|]. intros k0 vs0 H.
    apply list_elem_of_singleton in H. inversion H; subst.
    apply NoDup_singleton.
  - apply NoDup_cons in Hnd as [Hk' Hnd].
    destruct (decide (k' = k)) as [->|Hne]; simpl.
    + split; [by apply NoDup_cons|]. intros k0 vs0 H.
      apply elem_of_cons in H as [H|H].
      * inversion H; subst. apply set_add_NoDup. apply (Hvs k). by left.
      * apply (Hvs k0). by right.
    + destruct IH as [IH1 IH2].
      { split; [done|]. intros k0 vs0 H. apply (Hvs k0). by right. }
      split.
      * apply NoDup_cons. split; [|done]. intros Hin.
        apply (graph_add_keys g k v k') in Hin as [Hin| ->]; done.
      * intros k0 vs0 H. apply elem_of_cons in H as [H|H].
        -- inversion H; subst. eapply Hvs. by left.
        -- by apply (IH2 k0).
Qed.

Lemma build_edge_wf i g st :
  graph_wf g ->
  match build_edge i g st with
  | (Ret g', _) => graph_wf g'
  | _ => True
  end.
Proof.
  intros Hg. unfold build_edge, bind, get_process, get_resource, ret.
  destruct (processes st !! i) as [proc|]; [|done].
  destruct (bool_decide (state proc = BLOCKED)
            && truthy_str (current_request proc)); [|done].
  destruct (current_request proc) as [r|]; [|done].
  destruct (resources st !! r) as [res|]; [|done].
  destruct (held_by res) as [holder|]; [|done].
  destruct (truthy_str (Some holder) && negb (String.eqb holder (pid proc)));
    [|done].
  by apply graph_add_wf.
Qed.

Lemma build_loop_wf idxs :
  forall g st,
    graph_wf g ->
    match build_loop idxs g st with
    | (Ret g', _) => graph_wf g'
    | _ => True
    end.
Proof.
  induction idxs as [|i idxs IH]; intros g st Hg; [done|].
  simpl. unfold bind. pose proof (build_edge_wf i g st Hg) as H.
  destruct (build_edge i g st) as [[g1|e|] st1]; [|done..].
  by apply IH.
Qed.

Lemma graph_get_wf g k vs :
  NoDup (graph_keys g) -> (k, vs) ∈ g -> graph_get g k = vs.
Proof.
  unfold graph_keys. induction g as [|[k' vs'] g IH]; simpl; intros Hnd Hin.
  - by apply elem_of_nil in Hin.
  - apply NoDup_cons in Hnd as [Hk' Hnd].
    apply elem_of_cons in Hin as [Hin|Hin].
    + inversion Hin; subst. by rewrite decide_True.
    + destruct (decide (k' = k)) as [->|Hne]; [|by apply IH].
      exfalso. apply Hk'. apply list_elem_of_fmap. by exists (k, vs).
Qed.

Lemma graph_get_elem g k v :
  v ∈ graph_get g k -> exists vs, (k, vs) ∈ g /\ v ∈ vs.
Proof.
  induction g as [|[k' vs'] g IH]; simpl; intros Hin.
  - by apply elem_of_nil in Hin.
  - destruct (decide (k' = k)) as [->|Hne].
    + exists vs'. split; [by left|done].
    + destruct (IH Hin) as (vs & H1 & H2). exists vs. split; [by right|done].
Qed.

Lemma graph_edges_elem g u v :
  graph_wf g -> (u, v) ∈ graph_edges g <-> edge g u v.
Proof.
  intros [Hnd _]. unfold graph_edges, edge.
  rewrite list_elem_of_In, in_flat_map. split.
  - intros ([k vs] & Hin & Huv). apply list_elem_of_In in Hin.
    apply in_map_iff in Huv as (v' & Heq & Hv). inversion Heq; subst.
    rewrite (graph_get_wf g u vs Hnd Hin). by apply list_elem_of_In.
  - intros Hin. destruct (graph_get_elem g u v Hin) as (vs & H1 & H2).
    exists (u, vs). split; [by apply list_elem_of_In|].
    apply in_map_iff. exists v. split; [done|by apply list_elem_of_In].
Qed.

Lemma graph_edges_NoDup g : graph_wf g -> NoDup (graph_edges g).
Proof.
  unfold graph_wf, graph_edges, graph_keys.
  induction g as [|[k vs] g IH]; simpl; intros [Hnd Hvs];
    [apply NoDup_nil_2|].
  apply NoDup_cons in Hnd as [Hk Hnd].
  apply NoDup_app. split_and!.
  - apply (NoDup_fmap_2 (fun v => (k, v))). apply (Hvs k). by left.
  - intros [u v] H1 H2.
    apply list_elem_of_fmap in H1 as (v' & Heq & _). inversion Heq; subst.
    apply list_elem_of_In, in_flat_map in H2 as ([k' vs'] & Hin & Huv).
    apply in_map_iff in Huv as (v'' & Heq' & _). inversion Heq'; subst.
    apply Hk. apply list_elem_of_fmap. exists (k, vs'). split; [done|].
    by apply list_elem_of_In.
  - apply IH. split; [done|]. intros k0 vs0 H. apply (Hvs k0). by right.
Qed.

Lemma build_wait_for_graph_wf st g st' :
  build_wait_for_graph st = (Ret g, st') -> graph_wf g.
Proof.
  unfold build_wait_for_graph, bind, process_indices. intros H.
  pose proof (build_loop_wf (seq 0 (length (processes st))) [] st) as Hwf.
  rewrite H in Hwf. apply Hwf. split; [apply NoDup_nil_2|].
  intros k vs Hin. by apply elem_of_nil in Hin.
Qed.

Lemma tc_iff {A} (R R' : relation A) x y :
  (forall a b, R a b <-> R' a b) -> tc R x y <-> tc R' x y.
Proof.
  intros H. split; induction 1 as [a b Hab|a b c Hab _ IH].
  - apply tc_once. by apply H.
  - eapply tc_l; [by apply H|done].
  - apply tc_once. by apply H.
  - eapply tc_l; [by apply H|done].
Qed.

End ReportFacts.

(** X8.  The report of [detect_deadlock].  The edge list holds every pair
    [p -> q] of a blocked process and the holder of what it requests,
    each once; the flag is [True] exactly when some process waits for
    itself through a chain of such pairs; the cycle is then a closed
    chain of them through at least two processes, each appearing once
    before the first is repeated at the end, and is empty otherwise. *)
Theorem detect_deadlock_report (depth : nat) (st : Store) (deadlock : bool)
    (edges : list (string * string)) (cycle : list string) :
  fst (Detector.detect_deadlock depth st) = Ret (deadlock, edges, cycle) ->
  (forall p q, (p, q) ∈ edges <-> DetectorFacts.waits_for st p q)
  /\ NoDup edges
  /\ (deadlock = true <-> exists p, tc (DetectorFacts.waits_for st) p p)
  /\ (deadlock = false -> cycle = [])
  /\ (deadlock = true ->
      exists p l,
        cycle = p :: l ++ [p] /\ NoDup (p :: l) /\ l <> []
        /\ forall (i : nat) a b,
             cycle !! i = Some a -> cycle !! S i = Some b ->
             DetectorFacts.waits_for st a b).
Proof.
  intros Hrun. pose proof (DetectorFacts.detect_deadlock_spec depth st) as Hd.
  destruct (Detector.detect_deadlock depth st) as [[[[d es] c]|e|] st1];
    simpl in Hrun; [|done..].
  inversion Hrun; subst d es c.
  destruct Hd as (-> & g & Hg & -> & Hcase).
  pose proof (ReportFacts.build_wait_for_graph_wf st g st Hg) as Hwf.
  pose proof (DetectorFacts.build_wait_for_graph_spec st) as Hb.
  rewrite Hg in Hb. destruct Hb as [_ Hedge].
  assert (Hcyc : DetectorFacts.has_cycle g
                 <-> exists p, tc (DetectorFacts.waits_for st) p p).
  { unfold DetectorFacts.has_cycle.
    split; intros [p Hp]; exists p;
      by apply (ReportFacts.tc_iff _ _ p p Hedge). }
  split_and!.
  - intros p q. by rewrite ReportFacts.graph_edges_elem.
  - by apply ReportFacts.graph_edges_NoDup.
  - destruct Hcase as [(-> & _ & _ & H)|(-> & _ & _ & H)].
    + split; [intros _; by apply Hcyc|done].
    + split; [done|]. intros Hp. by apply Hcyc in Hp.
  - intros ->. by destruct Hcase as [(? & _)|(_ & _ & -> & _)].
  - intros ->. destruct Hcase as [(_ & Hfc & Hok & _)|(? & _)]; [|done].
    destruct (ReportFacts.find_cycle_simple g depth cycle Hfc)
      as (p & l & -> & Hnd).
    destruct Hok as (_ & _ & Hchain).
    exists p, l. split_and!; try done.
    + intros ->. specialize (Hchain 0%nat p p eq_refl eq_refl).
      apply Hedge in Hchain
        as (i & proc & r & res & _ & _ & _ & _ & _ & _ & _ & _ & Hne).
      done.
    + intros i a b Ha Hb. apply Hedge. by apply (Hchain i).
Qed.

Lemma detect_deadlock_report_witness :
  DetectorFacts.waits_for held_and_wanted "P2" "P1"
  /\ ~ exists p, tc (DetectorFacts.waits_for held_and_wanted) p p.
Proof.
  destruct (detect_deadlock_report default_limit held_and_wanted false
              [("P2", "P1")] [])
    as (Hedges & _ & Hflag & _).
  - vm_compute. reflexivity.
  - split.
    + apply Hedges. by left.
    + intros H. by apply Hflag in H.
Defined.

(** ** What a step that reports a deadlock leaves behind *)

Module MarkFacts.
Import Simulator.

(** [mark_deadlocked] on the processes whose [pid] is in the cycle. *)
Definition mark_members (cycle : list string) (p : Process) : Process :=
  if decide (pid p ∈ cycle) then mark_deadlocked p else p.

Lemma find_pid_None x ps :
  find_pid x ps = None -> forall q, q ∈ ps -> pid q <> x.
Proof.
  induction ps as [|p ps IH]; simpl; intros H q Hq.
  - by apply elem_of_nil in Hq.
  - destruct (decide (pid p = x)); [done|].
    destruct (find_pid x ps); [done|].
    apply elem_of_cons in Hq as [->|Hq]; [done|by apply IH].
Qed.

Lemma pid_mark_members c p : pid (mark_members c p) = pid p.
Proof. unfold mark_members. by destruct (decide _). Qed.

Lemma mark_cycle_cons x cycle s :
  mark_cycle (x :: cycle) s
  = match find_pid x (processes s) with
    | Some i =>
        match processes s !! i with
        | Some p =>
            mark_cycle cycle
              {| processes := <[i := mark_deadlocked p]> (processes s);
                 resources := resources s |}
        | None => (Exc IndexError, s)
        end
    | None => mark_cycle cycle s
    end.
Proof.
  unfold mark_cycle. simpl.
  unfold bind, _process_by_id, get_process, set_process, modify.
  destruct (find_pid x (processes s)) as [i|]; [|done].
  by destruct (processes s !! i).
Qed.

(** With distinct pids, [mark_cycle] marks every process of the cycle
    and no other. *)
Lemma mark_cycle_members cycle :
  forall s,
    NoDup (pid <$> processes s) ->
    mark_cycle cycle s
    = (Ret tt, {| processes := mark_members cycle <$> processes s;
                  resources := resources s |}).
Proof.
  induction cycle as [|x cycle IH]; intros s Hnd.
  - unfold mark_cycle. simpl. unfold ret. f_equal. destruct s as [ps rs].
    simpl. f_equal. rewrite <- (list_fmap_id ps) at 1.
    apply list_fmap_ext. intros i p _. unfold mark_members.
    rewrite decide_False; [done|]. apply not_elem_of_nil.
  - rewrite mark_cycle_cons.
    destruct (find_pid x (processes s)) as [i|] eqn:Hfind.
    + destruct (SimulatorFacts.find_pid_Some _ _ _ Hfind) as (p & Hp & Hpid).
      assert (Hi : (i < length (processes s))%nat)
        by (by eapply lookup_lt_Some).
      rewrite Hp, IH; simpl.
      2:{ by erewrite LockManagerFacts.pids_insert. }
      f_equal. f_equal. apply list_eq. intros j.
      rewrite !list_lookup_fmap.
      destruct (decide (i = j)) as [->|Hij].
      * rewrite list_lookup_insert_eq by done. rewrite Hp. simpl. f_equal.
        unfold mark_members. simpl. rewrite Hpid.
        rewrite (decide_True (P := x ∈ x :: cycle)) by (by left).
        by destruct (decide (x ∈ cycle)).
      * rewrite list_lookup_insert_ne by done.
        destruct (processes s !! j) as [q|] eqn:Hq; [|done]. simpl. f_equal.
        assert (Hne : pid q <> x).
        { intros Heq. apply Hij.
          eapply LockManagerFacts.pid_index_inj; eauto. congruence. }
        unfold mark_members.
        destruct (decide (pid q ∈ cycle)) as [Hin|Hnin].
        -- rewrite decide_True; [done|by right].
        -- rewrite decide_False; [done|].
           intros Hin. apply elem_of_cons in Hin as [?|?]; done.
    + rewrite IH by done. f_equal. f_equal.
      apply list_fmap_ext. intros j q Hq. unfold mark_members.
      assert (Hne : pid q <> x).
      { eapply find_pid_None; [exact Hfind|]. by eapply list_elem_of_lookup_2. }
      destruct (decide (pid q ∈ cycle)) as [Hin|Hnin].
      * rewrite decide_True; [done|by right].
      * rewrite decide_False; [done|].
        intros Hin. apply elem_of_cons in Hin as [?|?]; done.
Qed.

(** Process [a] is marked [DEADLOCKED] while it requests a resource that
    process [b] holds. *)
Definition stuck_on (s : Store) (a b : string) : Prop :=
  exists j proc r res,
    processes s !! j = Some proc /\ pid proc = a
    /\ state proc = DEADLOCKED
    /\ current_request proc = Some r /\ r <> ""
    /\ resources s !! r = Some res
    /\ held_by res = Some b /\ b <> a.

End MarkFacts.

(** X9.  What [step] reports is what the store shows.  When [step]
    returns [False] no process of the store it leaves waits for itself
    through a chain of blocked requests.  When it returns [True], from a
    store that keeps the holding invariant, the store it leaves holds at
    least two processes of distinct pids, all marked [DEADLOCKED], each
    requesting a resource held by the next and the last one a resource
    held by the first. *)
Theorem step_report (depth : nat) (mode : string) (t : Z) (st st' : Store)
    (deadlock : bool) :
  Simulator.step depth mode t st = (Ret deadlock, st') ->
  (deadlock = false ->
   ~ exists p, tc (DetectorFacts.waits_for st') p p)
  /\ (deadlock = true -> LockManagerFacts.lock_inv st ->
      exists p l,
        NoDup (p :: l) /\ l <> []
        /\ forall (i : nat) a b,
             (p :: l ++ [p]) !! i = Some a ->
             (p :: l ++ [p]) !! S i = Some b ->
             MarkFacts.stuck_on st' a b).
Proof.
  unfold Simulator.step. unfold bind at 1. intros Hrun.
  pose proof (lock_inv_sweeps (String.eqb mode "ordered") st) as Hsw.
  destruct (Simulator.step_sweeps (String.eqb mode "ordered") st)
    as [[[]|e|] s1]; [|done..].
  unfold bind at 1 in Hrun.
  pose proof (DetectorFacts.detect_deadlock_spec depth s1) as Hd.
  destruct (Detector.detect_deadlock depth s1) as [[[[d es] c]|e|] s2]
    eqn:Hdet; [|done..].
  destruct Hd as (-> & g & Hg & -> & Hcase).
  pose proof (DetectorFacts.build_wait_for_graph_spec s1) as Hb.
  rewrite Hg in Hb. destruct Hb as [_ Hedge].
  destruct Hcase as [(-> & Hfc & Hok & _)|(-> & _ & -> & Hno)].
  - split; [|intros _ Hinv].
    { intros ->. unfold bind in Hrun.
      by destruct (Simulator.mark_cycle c s1) as [[[]|?|] ?]. }
    specialize (Hsw Hinv). pose proof Hsw as (Hnd & _).
    unfold bind in Hrun. rewrite (MarkFacts.mark_cycle_members c s1 Hnd) in Hrun.
    unfold ret in Hrun. inversion Hrun; subst st'. clear Hrun.
    destruct (ReportFacts.find_cycle_simple g depth c Hfc)
      as (p & l & -> & Hndc).
    destruct Hok as (_ & _ & Hchain).
    exists p, l. split_and!; [done| |].
    + intros ->. specialize (Hchain 0%nat p p eq_refl eq_refl).
      apply Hedge in Hchain
        as (i & proc & r & res & _ & _ & _ & _ & _ & _ & _ & _ & Hne).
      done.
    + intros i a b Ha Hb'.
      pose proof (Hchain i a b Ha Hb') as Hab. apply Hedge in Hab.
      destruct Hab as (j & proc & r & res & Hp & Hpid & Hst & Hr & Hne
                         & Hres & Hh & _ & Hba).
      exists j, (mark_deadlocked proc), r, res. simpl.
      split_and!; try done.
      rewrite list_lookup_fmap, Hp. simpl. f_equal.
      unfold MarkFacts.mark_members. rewrite decide_True; [done|].
      rewrite Hpid. by eapply list_elem_of_lookup_2.
  - unfold ret in Hrun. inversion Hrun; subst st'. split; [|done].
    intros _ [p Hp]. apply Hno. exists p.
    by apply (ReportFacts.tc_iff _ _ p p Hedge).
Qed.

(** Two processes that hold one resource each and want the other's. *)
Definition crossed : Store :=
  {| processes :=
       [ {| pid := "P1"; plan := ["R1"; "R2"]; held_resources := {["R1"]};
            current_request := None; state := RUNNING;
            waiting_steps := 0 |};
         {| pid := "P2"; plan := ["R2"; "R1"]; held_resources := {["R2"]};
            current_request := None; state := RUNNING;
            waiting_steps := 0 |} ];
     resources :=
       {["R1" := {| rid := "R1"; held_by := Some "P1" |};
         "R2" := {| rid := "R2"; held_by := Some "P2" |}]} |}.

Lemma crossed_inv : LockManagerFacts.lock_inv crossed.
Proof.
  set (fresh :=
         {| processes :=
              [ {| pid := "P1"; plan := ["R1"; "R2"]; held_resources := ∅;
                   current_request := None; state := RUNNING;
                   waiting_steps := 0 |};
                {| pid := "P2"; plan := ["R2"; "R1"]; held_resources := ∅;
                   current_request := None; state := RUNNING;
                   waiting_steps := 0 |} ];
            resources :=
              {["R1" := {| rid := "R1"; held_by := None |};
                "R2" := {| rid := "R2"; held_by := None |}]} |}).
  assert (Hfresh : LockManagerFacts.initial fresh).
  { split_and!.
    - vm_compute. repeat constructor; set_solver.
    - intros k r Hk. unfold fresh in Hk. simpl in Hk.
      apply lookup_insert_Some in Hk as [[<- <-]|[_ Hk]]; [done|].
      apply lookup_singleton_Some in Hk as [<- <-]. done.
    - intros [|[|i]] p Hp; simpl in Hp; by inversion Hp. }
  pose proof (LockManagerFacts.apply_ops_inv
                [LockManagerFacts.OpRequest 0 "R1";
                 LockManagerFacts.OpRequest 1 "R2"] fresh
                (LockManagerFacts.initial_inv _ Hfresh)) as H.
  assert (Heq : LockManagerFacts.apply_ops
                  [LockManagerFacts.OpRequest 0 "R1";
                   LockManagerFacts.OpRequest 1 "R2"] fresh
                = crossed).
  { vm_compute. reflexivity. }
  by rewrite <- Heq.
Qed.

Lemma step_report_witness :
  exists p l,
    NoDup (p :: l) /\ l <> []
    /\ forall (i : nat) a b,
         (p :: l ++ [p]) !! i = Some a ->
         (p :: l ++ [p]) !! S i = Some b ->
         MarkFacts.stuck_on
           (snd (Simulator.step default_limit "naive" 1 crossed)) a b.
Proof.
  destruct (step_report default_limit "naive" 1 crossed
              (snd (Simulator.step default_limit "naive" 1 crossed)) true)
    as [_ H].
  - vm_compute. reflexivity.
  - exact (H eq_refl crossed_inv).
Defined.

(** ** The calls of a NaiveWorker *)

Module NaiveTraceFacts.
Import Worker.

Local Open Scope Q_scope.

(** What the calls on locks and clock leave of a worker: its locks, its
    hold time and the list [acquired]. *)
Definition kept {Ext} (s s' : State Ext) : Prop :=
  locks (self s') = locks (self s)
  /\ lock_labels (self s') = lock_labels (self s)
  /\ hold_time (self s') = hold_time (self s)
  /\ acquired s' = acquired s
  /\ acquire_calls (sys s') = acquire_calls (sys s)
  /\ release_calls (sys s') = release_calls (sys s)
  /\ trace (sys s') = trace (sys s).

Section Calls.
Context {Ext : Type}.
Variable env : Env.

Lemma record_start_kept (s : State Ext) :
  exists s', record_start env s = (Ret tt, s') /\ kept s s'.
Proof. eexists. split; [reflexivity|]. by split_and!. Qed.

Lemma record_end_kept status (s : State Ext) :
  exists s', record_end env status s = (Ret tt, s') /\ kept s s'.
Proof.
  unfold record_end, bind, get.
  destruct (metrics_queue (self s)); eexists; (split; [reflexivity|]);
    by split_and!.
Qed.

(** The release loop when no [release] raises. *)
Lemma release_loop_trace idxs :
  forall s : State Ext,
    (forall j, release_fails env j = false) ->
    (forall idx, idx ∈ idxs -> is_Some (locks (self s) !! idx)) ->
    exists s',
      for_each idxs (fun idx => do lock <- lock_at idx; lock_release env lock) s
      = (Ret tt, s')
      /\ trace (sys s')
         = trace (sys s)
           ++ (CallRelease <$> omap (fun i => locks (self s) !! i) idxs)
      /\ self s' = self s /\ acquired s' = acquired s.
Proof.
  induction idxs as [|idx idxs IH]; intros s Hrel Hidx.
  - exists s. simpl. by rewrite app_nil_r.
  - destruct (Hidx idx ltac:(by left)) as [lock Hlock].
    simpl. unfold bind at 1. unfold bind at 1. unfold lock_at at 1.
    rewrite Hlock. unfold lock_release. rewrite Hrel.
    match goal with
    | |- context [for_each idxs _ ?s1] =>
        destruct (IH s1 Hrel) as (s' & Hrun & Ht & Hs & Ha)
    end.
    { intros i Hi. simpl. apply Hidx. by right. }
    exists s'. split; [exact Hrun|]. simpl in *.
    rewrite Ht, <- app_assoc. done.
Qed.

(** The release loop of a [finally], whatever [release] does. *)
Lemma release_quiet_loop_trace idxs :
  forall s : State Ext,
    exists s',
      for_each idxs
        (fun idx => ignoring_errors
                      (do lock <- lock_at idx; lock_release env lock)) s
      = (Ret tt, s')
      /\ trace (sys s')
         = trace (sys s)
           ++ (CallRelease <$> omap (fun i => locks (self s) !! i) idxs)
      /\ self s' = self s /\ acquired s' = acquired s.
Proof.
  induction idxs as [|idx idxs IH]; intros s.
  - exists s. simpl. by rewrite app_nil_r.
  - simpl. unfold bind at 1. unfold ignoring_errors at 1.
    unfold bind at 1. unfold lock_at at 1.
    destruct (locks (self s) !! idx) as [lock|] eqn:Hlock.
    + unfold lock_release.
      destruct (release_fails env (release_calls (sys s)));
        match goal with
        | |- context [for_each idxs _ ?s1] =>
            destruct (IH s1) as (s' & Hrun & Ht & Hs & Ha)
        end;
        exists s'; (split; [exact Hrun|]); simpl in *;
        rewrite Ht, <- app_assoc; done.
    + destruct (IH s) as (s' & Hrun & Ht & Hs & Ha). by exists s'.
Qed.

End Calls.

Section Naive.
Variable env : Env.

(** An acquisition and the sleep after it. *)
Definition acquiring (hold : Q) (acquired_locks : list nat) : list event :=
  flat_map (fun lock => [CallAcquire lock; CallSleep hold]) acquired_locks.

(** How the loop of acquisitions ends when it stops at item [k]. *)
Definition stop_outcome (k : nat) (items : list (nat * nat)) (s : State unit)
  : outcome unit :=
  match items !! k with
  | None => Ret tt
  | Some _ =>
      match acquire_answers env (acquire_calls (sys s) + k) with
      | TimedOut => NoFuel
      | _ => Exc OtherError
      end
  end.

Lemma acquire_one_acquired idx lock (s : State unit) :
  0 <= hold_time (self s) ->
  acquire_answers env (acquire_calls (sys s)) = Acquired ->
  exists s',
    NaiveWorker.acquire_one env (idx, lock) s = (Ret tt, s')
    /\ acquired s' = acquired s ++ [idx]
    /\ trace (sys s')
       = trace (sys s) ++ [CallAcquire lock; CallSleep (hold_time (self s))]
    /\ acquire_calls (sys s') = S (acquire_calls (sys s))
    /\ locks (self s') = locks (self s)
    /\ hold_time (self s') = hold_time (self s)
    /\ metrics_queue (self s') = metrics_queue (self s).
Proof.
  intros Hhold Hacq. unfold NaiveWorker.acquire_one.
  unfold bind at 1. unfold time_time at 1.
  unfold bind at 1. unfold lock_acquire, next_acquire.
  cbn [sys set_sys acquire_calls]. rewrite Hacq.
  unfold bind at 1. unfold time_time at 1.
  unfold bind at 1. unfold add_wait_time at 1. unfold modify at 1.
  unfold bind at 1. unfold modify at 1.
  unfold bind at 1. unfold get at 1. unfold time_sleep at 1.
  cbn [self set_acquired set_self set_sys log_call hold_time].
  destruct (Qlt_le_dec (hold_time (self s)) 0) as [Hneg|_];
    [exfalso; by eapply Qlt_not_le|].
  eexists. split; [reflexivity|]. simpl. split_and!; try done.
  by rewrite <- app_assoc.
Qed.

Lemma acquire_one_stops idx lock (s : State unit) :
  acquire_answers env (acquire_calls (sys s)) <> Acquired ->
  exists s',
    NaiveWorker.acquire_one env (idx, lock) s
    = (match acquire_answers env (acquire_calls (sys s)) with
       | TimedOut => NoFuel
       | _ => Exc OtherError
       end, s')
    /\ acquired s' = acquired s
    /\ trace (sys s') = trace (sys s) ++ [CallAcquire lock]
    /\ locks (self s') = locks (self s)
    /\ hold_time (self s') = hold_time (self s)
    /\ metrics_queue (self s') = metrics_queue (self s).
Proof.
  intros Hstop. unfold NaiveWorker.acquire_one.
  unfold bind at 1. unfold time_time at 1.
  unfold bind at 1. unfold lock_acquire, next_acquire.
  cbn [sys set_sys acquire_calls].
  destruct (acquire_answers env (acquire_calls (sys s))); [done|..];
    eexists; (split; [reflexivity|]); by simpl.
Qed.

Lemma naive_acquire items :
  forall (k : nat) (s : State unit),
    0 <= hold_time (self s) ->
    (k <= length items)%nat ->
    (forall j, (j < k)%nat ->
       acquire_answers env (acquire_calls (sys s) + j) = Acquired) ->
    ((k < length items)%nat ->
       acquire_answers env (acquire_calls (sys s) + k) <> Acquired) ->
    exists s',
      for_each items (NaiveWorker.acquire_one env) s
      = (stop_outcome k items s, s')
      /\ acquired s' = acquired s ++ (take k items).*1
      /\ trace (sys s')
         = trace (sys s)
           ++ acquiring (hold_time (self s)) (take k items).*2
           ++ match items !! k with
              | Some it => [CallAcquire it.2]
              | None => []
              end
      /\ locks (self s') = locks (self s)
      /\ hold_time (self s') = hold_time (self s)
      /\ metrics_queue (self s') = metrics_queue (self s).
Proof.
  induction items as [|[idx lock] items IH]; intros k s Hhold Hk Hacq Hstop.
  - exists s. simpl in Hk. assert (k = 0)%nat as -> by lia.
    unfold stop_outcome. simpl. by rewrite !app_nil_r.
  - destruct k as [|k].
    + specialize (Hstop ltac:(simpl; lia)). rewrite Nat.add_0_r in Hstop.
      destruct (acquire_one_stops idx lock s Hstop)
        as (s' & Hrun & Ha & Ht & Hl & Hh & Hq).
      exists s'. unfold stop_outcome. cbn [for_each lookup list_lookup].
      unfold bind. rewrite Hrun, Nat.add_0_r. split.
      { by destruct (acquire_answers env (acquire_calls (sys s))). }
      simpl. rewrite app_nil_r. by split_and!.
    + pose proof (Hacq 0%nat ltac:(lia)) as H0. rewrite Nat.add_0_r in H0.
      destruct (acquire_one_acquired idx lock s Hhold H0)
        as (s1 & Hone & Ha1 & Ht1 & Hc1 & Hl1 & Hh1 & Hq1).
      destruct (IH k s1) as (s' & Hrun & Ha & Ht & Hl & Hh & Hq).
      * by rewrite Hh1.
      * simpl in Hk. lia.
      * intros j Hj. rewrite Hc1. simpl. rewrite <- Nat.add_succ_r.
        apply Hacq. lia.
      * intros Hlt. rewrite Hc1. simpl. rewrite <- Nat.add_succ_r.
        apply Hstop. simpl. lia.
      * exists s'. cbn [for_each]. unfold bind. rewrite Hone, Hrun. split.
        { unfold stop_outcome. simpl. rewrite Hc1. simpl.
          by rewrite <- Nat.add_succ_r. }
        simpl. rewrite Ha, Ht, Ha1, Ht1, Hh1, <- !app_assoc. simpl.
        split_and!; (reflexivity || congruence).
Qed.

(** The body of the [try] of [run]. *)
Definition body : M (State unit) unit :=
  do s <- get;
  do_ for_each (enumerated_locks (self s)) (NaiveWorker.acquire_one env);
  do_ release_acquired env;
  do_ modify (set_acquired []);
  record_end env "ok".

Lemma body_eq (s : State unit) :
  body s
  = match for_each (enumerated_locks (self s))
            (NaiveWorker.acquire_one env) s with
    | (Ret _, s1) =>
        match release_acquired env s1 with
        | (Ret _, s2) => record_end env "ok" (set_acquired [] s2)
        | (Exc e, s2) => (Exc e, s2)
        | (NoFuel, s2) => (NoFuel, s2)
        end
    | (Exc e, s1) => (Exc e, s1)
    | (NoFuel, s1) => (NoFuel, s1)
    end.
Proof.
  unfold body, bind, get, modify.
  destruct (for_each _ _ s) as [[[]|e|] s1]; [|done..].
  by destruct (release_acquired env s1) as [[[]|e|] s2].
Qed.

Lemma run_eq (s : State unit) :
  NaiveWorker.run env s
  = try_finally (try_except body (record_end env "erro"))
      (release_acquired_quietly env)
      (set_acquired [] (snd (record_start env s))).
Proof. reflexivity. Qed.

Lemma release_acquired_quietly_eq (s : State unit) :
  release_acquired_quietly env s
  = for_each (rev (acquired s))
      (fun idx => ignoring_errors
                    (do lock <- lock_at idx; lock_release env lock)) s.
Proof. reflexivity. Qed.

Lemma release_acquired_eq (s : State unit) :
  release_acquired env s
  = for_each (rev (acquired s))
      (fun idx => do lock <- lock_at idx; lock_release env lock) s.
Proof. reflexivity. Qed.

Lemma length_enumerated (w : Worker) :
  length (enumerated_locks w)
  = (length (locks w) `min` length (lock_labels w))%nat.
Proof.
  unfold enumerated_locks.
  rewrite length_zip_with, length_seq, length_fmap, length_zip_with. lia.
Qed.

Lemma held_locks (w : Worker) k :
  (k <= length (enumerated_locks w))%nat ->
  omap (fun i => locks w !! i) (rev (seq 0 k)) = rev (take k (locks w)).
Proof.
  intros Hk. rewrite WorkerFacts.omap_rev. f_equal.
  apply WorkerFacts.locks_of_seq. rewrite length_enumerated in Hk. lia.
Qed.

End Naive.

End NaiveTraceFacts.

(** X10.  The calls of [NaiveWorker.run].  The worker takes its locks in
    the order given, as many as it has labels for, sleeping [hold_time]
    after each, and releases nothing before it has them all.  When all
    [n] are acquired it releases them in reverse order and returns.
    When the acquisition of lock [k] raises, the exception leaves [run]
    after the [k] locks held have been released in reverse order.  When
    that acquisition never returns, neither does [run], and the [k]
    locks stay held. *)
Theorem naive_worker_calls (env : Worker.Env) (s : Worker.State unit)
    (k : nat) :
  let w := Worker.self s in
  let n := (length (Worker.locks w) `min` length (Worker.lock_labels w))%nat in
  let held := take k (Worker.locks w) in
  let before :=
    Worker.trace (Worker.sys s)
    ++ NaiveTraceFacts.acquiring (Worker.hold_time w) held in
  let after := Worker.trace (Worker.sys (snd (Worker.NaiveWorker.run env s))) in
  (0 <= Worker.hold_time w)%Q ->
  (k <= n)%nat ->
  (forall j, (j < k)%nat ->
     Worker.acquire_answers env (Worker.acquire_calls (Worker.sys s) + j)
     = Worker.Acquired) ->
  match Worker.locks w !! k with
  | Some lock =>
      (k < n)%nat ->
      match Worker.acquire_answers env
              (Worker.acquire_calls (Worker.sys s) + k) with
      | Worker.Acquired => True
      | Worker.AcquireFails =>
          fst (Worker.NaiveWorker.run env s) = Exc OtherError
          /\ after
             = before ++ [Worker.CallAcquire lock]
               ++ (Worker.CallRelease <$> rev held)
      | Worker.TimedOut =>
          fst (Worker.NaiveWorker.run env s) = NoFuel
          /\ after = before ++ [Worker.CallAcquire lock]
      end
  | None => True
  end
  /\ (k = n ->
      (forall j, Worker.release_fails env j = false) ->
      fst (Worker.NaiveWorker.run env s) = Ret tt
      /\ after = before ++ (Worker.CallRelease <$> rev held)).
Proof.
  intros w n held before after Hhold Hk Hacq.
  subst after w. rewrite NaiveTraceFacts.run_eq.
  destruct (NaiveTraceFacts.record_start_kept env s)
    as (s1 & Hstart & Hl1 & Hb1 & Hh1 & Ha1 & Hc1 & Hr1 & Ht1).
  rewrite Hstart. cbn [snd]. set (s2 := Worker.set_acquired [] s1).
  assert (Hitems : Worker.enumerated_locks (Worker.self s2)
                   = Worker.enumerated_locks (Worker.self s)).
  { unfold Worker.enumerated_locks. simpl. by rewrite Hl1, Hb1. }
  assert (Hn : length (Worker.enumerated_locks (Worker.self s)) = n)
    by apply NaiveTraceFacts.length_enumerated.
  split.
  - destruct (Worker.locks (Worker.self s) !! k) as [lock|] eqn:Hlock; [|done].
    intros Hlt.
    destruct (Worker.acquire_answers env
                (Worker.acquire_calls (Worker.sys s) + k)) eqn:Hans;
      [done|..].
    all: destruct (NaiveTraceFacts.naive_acquire env
                (Worker.enumerated_locks (Worker.self s)) k s2)
        as (s3 & Hrun & Ha3 & Ht3 & Hl3 & Hh3 & Hq3);
      [simpl; by rewrite Hh1|lia
      |intros j Hj; simpl; rewrite Hc1; by apply Hacq
      |intros _; simpl; rewrite Hc1, Hans; done|].
    all: destruct (Worker.enumerated_locks (Worker.self s) !! k) as [it|] eqn:Hit;
      [|apply lookup_ge_None in Hit; lia].
    all: pose proof (WorkerFacts.enumerated_lookup (Worker.self s) k it Hit) as [_ Hit2].
    all: rewrite Hlock in Hit2; inversion Hit2 as [Hit3].
    all: unfold NaiveTraceFacts.stop_outcome in Hrun; rewrite Hit in Hrun.
    all: simpl in Hrun; rewrite Hc1, Hans in Hrun.
    all: unfold Worker.try_finally, Worker.try_except.
    all: rewrite NaiveTraceFacts.body_eq, Hitems, Hrun.
    + cbn [snd fst]. split; [done|]. rewrite Ht3. simpl.
      rewrite Ht1, Hh1, WorkerFacts.enumerated_snd by lia.
      subst before held. by rewrite <- !app_assoc.
    + destruct (NaiveTraceFacts.record_end_kept env "erro" s3)
        as (s4 & Hend & Hl4 & Hb4 & Hh4 & Ha4 & Hc4 & Hr4 & Ht4).
      rewrite Hend, NaiveTraceFacts.release_acquired_quietly_eq.
      destruct (NaiveTraceFacts.release_quiet_loop_trace env
                  (rev (Worker.acquired s4)) s4)
        as (s5 & Hrel & Ht5 & _).
      rewrite Hrel. cbn [snd fst]. split; [done|].
      rewrite Ht5, Ht4, Ht3, Ha4, Ha3, Hl4, Hl3. simpl.
      rewrite Ht1, Hh1, Hl1, WorkerFacts.enumerated_snd by lia.
      rewrite WorkerFacts.enumerated_fst by lia.
      rewrite NaiveTraceFacts.held_locks by lia.
      subst before held. by rewrite <- !app_assoc.
  - intros -> Hrel.
    destruct (NaiveTraceFacts.naive_acquire env
                (Worker.enumerated_locks (Worker.self s)) n s2)
      as (s3 & Hrun & Ha3 & Ht3 & Hl3 & Hh3 & Hq3);
      [simpl; by rewrite Hh1|lia
      |intros j Hj; simpl; rewrite Hc1; by apply Hacq
      |intros Hlt; lia|].
    assert (Hnone : Worker.enumerated_locks (Worker.self s) !! n = None)
      by (apply lookup_ge_None; lia).
    unfold NaiveTraceFacts.stop_outcome in Hrun. rewrite Hnone in *.
    unfold Worker.try_finally, Worker.try_except.
    rewrite NaiveTraceFacts.body_eq, Hitems, Hrun.
    rewrite NaiveTraceFacts.release_acquired_eq.
    simpl in Ha3. rewrite WorkerFacts.enumerated_fst in Ha3 by lia.
    destruct (NaiveTraceFacts.release_loop_trace env
                (rev (Worker.acquired s3)) s3 Hrel)
      as (s4 & Hrun4 & Ht4 & Hs4 & Ha4).
    { intros idx Hidx. rewrite Ha3 in Hidx.
      apply list_elem_of_In in Hidx. apply <- in_rev in Hidx.
      apply list_elem_of_In, elem_of_seq in Hidx. apply lookup_lt_is_Some.
      simpl in Hl3. rewrite Hl3, Hl1. lia. }
    rewrite Hrun4.
    destruct (NaiveTraceFacts.record_end_kept env "ok"
                (Worker.set_acquired [] s4))
      as (s5 & Hend & Hl5 & Hb5 & Hh5 & Ha5 & Hc5 & Hr5 & Ht5).
    rewrite Hend, NaiveTraceFacts.release_acquired_quietly_eq, Ha5. simpl.
    split; [done|].
    rewrite Ht5. simpl. rewrite Ht4, Ht3, Ha3. simpl in Hl3.
    rewrite Hl3, Hl1. simpl. rewrite Ht1, Hh1, app_nil_r.
    rewrite WorkerFacts.enumerated_snd by lia.
    rewrite NaiveTraceFacts.held_locks by lia.
    subst before held. by rewrite <- !app_assoc.
Qed.


(** A worker with two locks, before [run]. *)
Definition naive_worker_P1 : Worker.State unit :=
  Worker.mkState
    (Worker.Worker_init "P1" [7%nat; 9%nat] ["Recurso A"; "Recurso B"]
       (1 # 5) (Some []))
    tt Worker.Sys_init [].

Lemma naive_worker_calls_witness :
  fst (Worker.NaiveWorker.run second_lock_busy naive_worker_P1) = NoFuel
  /\ Worker.trace
       (Worker.sys (snd (Worker.NaiveWorker.run second_lock_busy
                           naive_worker_P1)))
     = [Worker.CallAcquire 7; Worker.CallSleep (1 # 5);
        Worker.CallAcquire 9].
Proof.
  destruct (naive_worker_calls second_lock_busy naive_worker_P1 1) as [H _].
  - vm_compute. discriminate.
  - simpl. lia.
  - intros [|j] Hj; [reflexivity|lia].
  - exact (H ltac:(simpl; lia)).
Defined.

(** ** When a RetryWorker completes *)

Module RetryTraceFacts.
Import Worker.

Local Open Scope Q_scope.

Section Frames.
Context {Ext : Type}.
Variable env : Env.

(** The locks and the labels of the worker are those of [s], and
    [acquired] has grown by at most [n] entries. *)
Definition grown (n : nat) (s s' : State Ext) : Prop :=
  locks (self s') = locks (self s)
  /\ lock_labels (self s') = lock_labels (self s)
  /\ (length (acquired s') <= length (acquired s) + n)%nat.

Definition grows (n : nat) {A} (m : M (State Ext) A) : Prop :=
  forall s, grown n s (snd (m s)).

















Lemma grows_record_start : grows 0 (record_start env).
Proof. intros s. unfold grown. simpl. split_and!; [done..|lia]. Qed.

Lemma grows_record_end status : grows 0 (record_end env status).
Proof.
  intros s. unfold record_end, bind, get, grown.
  destruct (metrics_queue (self s)); simpl; (split_and!; [done..|lia]).
Qed.


End Frames.

Section Retry.
Variable R : Random.
Variable env : Env.

Local Abbreviation RState := (State (RetryWorker.Retry R)).






End Retry.

End RetryTraceFacts.





(** ** The scenarios handed to the simulator *)

Module ScenariosFacts.
Import Scenarios.

Lemma numbered_inj prefix i j : numbered prefix i = numbered prefix j -> i = j.
Proof.
  unfold numbered. intros H. apply (inj (String.app prefix)) in H.
  apply (inj pretty) in H. lia.
Qed.

Lemma numbered_nonempty c prefix i : numbered (String c prefix) i <> "".
Proof. done. Qed.

Lemma numbered_NoDup prefix (idxs : list nat) :
  NoDup idxs -> NoDup (numbered prefix <$> idxs).
Proof.
  apply NoDup_fmap_2. intros i j. apply numbered_inj.
Qed.

Lemma make_resources_rids n :
  rid <$> make_resources n = numbered "R" <$> seq 0 (Z.to_nat n).
Proof.
  unfold make_resources. rewrite <- list_fmap_compose.
  by apply list_fmap_ext.
Qed.

Lemma make_resources_free n r : r ∈ make_resources n -> held_by r = None.
Proof.
  unfold make_resources. intros H.
  by apply list_elem_of_fmap in H as (i & -> & _).
Qed.

Lemma resources_dict_key rs r :
  r ∈ rs -> is_Some (Simulator.resources_dict rs !! rid r).
Proof.
  unfold Simulator.resources_dict.
  assert (H : forall l (m : gmap string Resource),
             r ∈ l \/ is_Some (m !! rid r) ->
             is_Some (foldl (fun m r => <[rid r := r]> m) m l !! rid r)).
  { induction l as [|x l IH]; intros m [Hin|Hm]; simpl.
    - by apply elem_of_nil in Hin.
    - done.
    - apply IH. apply elem_of_cons in Hin as [->|Hin]; [right|by left].
      rewrite lookup_insert_eq. by eexists.
    - apply IH. right. destruct (decide (rid x = rid r)) as [->|Hne].
      + rewrite lookup_insert_eq. by eexists.
      + by rewrite lookup_insert_ne. }
  intros Hin. apply H. by left.
Qed.

(** Processes as [Process(pid=..., plan=...)] makes them, with distinct
    pids and plans over the resources at hand, none of which is held. *)
Definition well_built (ps : list Process) (rs : list Resource) : Prop :=
  NoDup (pid <$> ps)
  /\ (forall r, r ∈ rs -> held_by r = None)
  /\ Forall (fun p => held_resources p = ∅ /\ current_request p = None
                      /\ state p = RUNNING
                      /\ forall x, x ∈ plan p -> x ∈ rid <$> rs) ps.

Lemma well_built_store ps rs :
  well_built ps rs ->
  LockManagerFacts.initial (Simulator.init ps rs)
  /\ closed (Simulator.init ps rs)
  /\ forall i p, processes (Simulator.init ps rs) !! i = Some p ->
                 state p = RUNNING.
Proof.
  intros (Hnd & Hfree & Hps). rewrite Forall_forall in Hps. split_and!.
  - apply LockManagerFacts.init_initial; [done..|].
    intros p Hp. by destruct (Hps p Hp) as (-> & _).
  - intros i p r Hp Hr. simpl in *.
    apply list_elem_of_lookup_2 in Hp.
    destruct (Hps p Hp) as (Hheld & Hreq & _ & Hplan).
    destruct Hr as [Hr|[Hr|Hr]]; [|set_solver|congruence].
    apply Hplan, list_elem_of_fmap in Hr as (res & -> & Hres).
    by apply resources_dict_key.
  - intros i p Hp. simpl in Hp. apply list_elem_of_lookup_2 in Hp.
    by destruct (Hps p Hp) as (_ & _ & -> & _).
Qed.

(** The number of processes that [build_processes_and_resources]
    makes: three in the demonstration, otherwise [num_processes] or the
    default of the scenario. *)
Definition process_count (num_processes : option Z)
    (scenario : option string) (demo : bool) : nat :=
  if demo then 3%nat
  else Z.to_nat (or_int num_processes
                   (if decide (scenario = Some "low") then 3
                    else if decide (scenario = Some "high") then 10
                    else 5)).

Section Build.
Variable G : Sampler.
Hypothesis G_ok : Sampler_ok G.

Lemma build_processes_spec idxs num_resources res_ids :
  forall acc r,
    exists ps r',
      build_processes G idxs num_resources res_ids acc r
      = (Ret (acc ++ ps), r')
      /\ pid <$> ps = numbered "P" <$> idxs
      /\ Forall (fun p => held_resources p = ∅ /\ current_request p = None
                          /\ state p = RUNNING
                          /\ forall x, x ∈ plan p -> x ∈ res_ids) ps
      /\ Forall (fun p => (length (plan p) <= 2)%nat) ps.
Proof.
  induction idxs as [|i idxs IH]; intros acc r.
  - exists [], r. simpl. unfold ret. rewrite app_nil_r. by split_and!.
  - simpl. unfold bind at 1. unfold random_sample.
    set (k := Z.min (if (2 <=? num_resources)%Z then 2%Z else 1%Z)
                    (Z.of_nat (length res_ids))).
    assert (Hk : (0 <= k <= Z.of_nat (length res_ids))%Z).
    { unfold k. destruct (2 <=? num_resources)%Z; lia. }
    replace ((0 <=? k)%Z && (k <=? Z.of_nat (length res_ids))%Z) with true
      by (symmetry; apply andb_true_iff; split; apply Z.leb_le; lia).
    pose proof (G_ok res_ids (Z.to_nat k) r ltac:(lia)) as (Hlen & Hsub & _).
    assert (Hk2 : (Z.to_nat k <= 2)%nat)
      by (unfold k; destruct (2 <=? num_resources)%Z; lia).
    destruct (sam_choose G res_ids (Z.to_nat k) r) as [plan r1].
    simpl in Hsub, Hlen.
    destruct (IH (acc ++ [new_process (numbered "P" i) plan]) r1)
      as (ps & r' & Hrun & Hpids & Hall & Hshort).
    exists (new_process (numbered "P" i) plan :: ps), r'.
    rewrite Hrun, <- app_assoc. simpl. split_and!; [done|by f_equal| |].
    + constructor; [by split_and!|done].
    + constructor; [simpl; lia|done].
Qed.

(** What [build_processes_and_resources] returns: resources numbered
    from ["R1"], and processes numbered from ["P1"] with plans of at most
    two of these resources. *)
Lemma build_shape num_processes num_resources scenario demo seed r :
  exists ps rs r',
    build_processes_and_resources G num_processes num_resources scenario
      demo seed r = (Ret (ps, rs), r')
    /\ well_built ps rs
    /\ (exists n, rs = make_resources n)
    /\ pid <$> ps
       = numbered "P" <$> seq 0 (process_count num_processes scenario demo)
    /\ Forall (fun p => (length (plan p) <= 2)%nat) ps.
Proof.
  unfold build_processes_and_resources. destruct demo.
  - eexists _, _, _. split; [reflexivity|]. split_and!.
    + split_and!.
      * simpl. repeat constructor; set_solver.
      * apply make_resources_free.
      * assert (Hids : rid <$> make_resources 2 = ["R1"; "R2"])
          by (vm_compute; reflexivity).
        rewrite Hids.
        repeat (apply Forall_cons; split;
                [split_and!; [done..|intros x Hx; set_solver]|]).
        apply Forall_nil. done.
    + by exists 2%Z.
    + vm_compute. reflexivity.
    + repeat (apply Forall_cons; split; [simpl; lia|]). apply Forall_nil.
      done.
  - unfold process_count.
    set (nn := if decide (scenario = Some "low") then _ else _).
    assert (Hnp : fst nn
                  = or_int num_processes
                      (if decide (scenario = Some "low") then 3
                       else if decide (scenario = Some "high") then 10
                       else 5)).
    { unfold nn. by repeat case_decide. }
    rewrite <- Hnp. destruct nn as [np nr]. cbn [fst].
    unfold bind at 1. unfold random_seed, put.
    destruct (build_processes_spec (seq 0 (Z.to_nat np)) nr
                (rid <$> make_resources nr) []
                (sam_seed G (if truthy_str scenario then Some seed else None)))
      as (ps & r' & Hrun & Hpids & Hall & Hshort).
    unfold bind. rewrite Hrun. simpl.
    exists ps, (make_resources nr), r'. split; [done|]. split_and!.
    + split_and!.
      * rewrite Hpids. apply numbered_NoDup, NoDup_seq.
      * apply make_resources_free.
      * done.
    + by exists nr.
    + done.
    + done.
Qed.

Lemma build_length ps (num_processes : option Z) (scenario : option string)
    (demo : bool) :
  pid <$> ps
  = numbered "P" <$> seq 0 (process_count num_processes scenario demo) ->
  length ps = process_count num_processes scenario demo.
Proof.
  intros H. apply (f_equal length) in H.
  by rewrite !length_fmap, length_seq in H.
Qed.

Lemma build_well_built num_processes num_resources scenario demo seed r :
  exists ps rs r',
    build_processes_and_resources G num_processes num_resources scenario
      demo seed r = (Ret (ps, rs), r')
    /\ well_built ps rs.
Proof.
  destruct (build_shape num_processes num_resources scenario demo seed r)
    as (ps & rs & r' & Hrun & Hwb & _).
  by exists ps, rs, r'.
Qed.

End Build.

(** A generator whose [sample] takes the first elements. *)
Definition first_elements : Sampler :=
  {| sam_state := unit;
     sam_seed := fun _ => tt;
     sam_choose := fun population k r => (take k population, r) |}.

Lemma first_elements_ok : Sampler_ok first_elements.
Proof.
  intros population k r Hk. simpl. split_and!.
  - rewrite length_take. lia.
  - intros x Hx. apply elem_of_take in Hx as (i & Hi & _).
    by eapply list_elem_of_lookup_2.
  - intros Hnd. eapply sublist_NoDup; [done|apply sublist_take].
Qed.

End ScenariosFacts.

(** X12.  The scenarios that [build_processes_and_resources] makes suit
    the simulator: the call returns, and the simulator built from its
    processes and resources starts from a store where the pids are
    distinct, nothing is held, and every plan names resources of the
    dictionary only.  Hence [run] on them never raises when the
    processes (three in the demonstration, otherwise [num_processes] or
    the default of the scenario) are fewer than the depth that the
    interpreter allows to the search of the detector, and in mode
    ["ordered"] it does not end on a deadlock. *)
Theorem generated_scenario_runs (G : Scenarios.Sampler)
    (num_processes num_resources : option Z) (scenario : option string)
    (demo : bool) (seed : Z) (r : Scenarios.sam_state G)
    (record_step : list Process -> list Process) (depth : nat)
    (mode : string) (max_steps : Z) :
  Scenarios.Sampler_ok G -> counts_only record_step ->
  (ScenariosFacts.process_count num_processes scenario demo < depth)%nat ->
  exists ps rs r',
    Scenarios.build_processes_and_resources G num_processes num_resources
      scenario demo seed r = (Ret (ps, rs), r')
    /\ length ps = ScenariosFacts.process_count num_processes scenario demo
    /\ LockManagerFacts.initial (Simulator.init ps rs)
    /\ closed (Simulator.init ps rs)
    /\ exists deadlock_found steps st',
         Simulator.run record_step depth mode max_steps (Simulator.init ps rs)
         = (Ret (deadlock_found, steps), st')
         /\ (mode = "ordered" -> deadlock_found = false).
Proof.
  intros HG Hrec Hdepth.
  destruct (ScenariosFacts.build_shape G HG num_processes num_resources
              scenario demo seed r)
    as (ps & rs & r' & Hrun & Hwb & _ & Hpids & _).
  apply ScenariosFacts.build_length in Hpids.
  destruct (ScenariosFacts.well_built_store ps rs Hwb)
    as (Hinit & Hclosed & Hrunning).
  exists ps, rs, r'. split_and!; [done..|].
  destruct (closed_run record_step depth mode max_steps _ Hrec Hclosed)
    as (d & k & st' & Hr & _); [simpl; lia|].
  exists d, k, st'. split; [done|]. intros ->.
  pose proof (OrderedFacts.ordered_run_loop record_step depth
                (Z.to_nat max_steps) Hrec 0 0%nat _
                (OrderedFacts.fresh_ordered _ Hinit Hrunning)) as Hord.
  unfold Simulator.run in Hr. rewrite Hr in Hord. by destruct Hord.
Qed.

Lemma generated_scenario_runs_witness :
  exists ps rs deadlock_found steps st',
    Scenarios.build_processes_and_resources ScenariosFacts.first_elements
      (Some 3%Z) (Some 2%Z) (Some "high") false 42 tt = (Ret (ps, rs), tt)
    /\ Simulator.run (fun ps => ps) default_limit "ordered" 50
         (Simulator.init ps rs)
       = (Ret (deadlock_found, steps), st').
Proof.
  destruct (generated_scenario_runs ScenariosFacts.first_elements
              (Some 3%Z) (Some 2%Z) (Some "high") false 42 tt (fun ps => ps)
              default_limit "ordered" 50)
    as (ps & rs & [] & Hrun & _ & _ & _ & d & k & st' & Hr & _).
  - exact ScenariosFacts.first_elements_ok.
  - intros l. induction l; constructor; done.
  - vm_compute. lia.
  - by exists ps, rs, d, k, st'.
Defined.

(** ** Labels and claims of the concurrent scenarios *)

Module ScenarioFacts.
Import Scenario.

Lemma get_upper n :
  (n < 26)%nat ->
  exists c, String.get n ascii_uppercase = Some c
            /\ Ascii.nat_of_ascii c = (65 + n)%nat.
Proof.
  intros Hn.
  do 26 (destruct n as [|n]; [eexists; split; reflexivity|]). lia.
Qed.

Lemma pretty_N_go_nonempty (x : N) :
  forall s, s <> "" -> pretty_N_go x s <> "".
Proof.
  induction (N.lt_wf_0 x) as [x _ IH]. intros s Hs.
  destruct (decide (x = 0%N)) as [->|Hx]; [by rewrite pretty_N_go_0|].
  rewrite pretty_N_go_step by lia. apply IH; [|done].
  apply N.div_lt; lia.
Qed.

Lemma pretty_nat_nonempty (n : nat) : pretty n <> "".
Proof.
  unfold pretty, pretty_nat, pretty, pretty_N.
  destruct (decide (N.of_nat n = 0%N)); [done|].
  rewrite pretty_N_go_step by lia. by apply pretty_N_go_nonempty.
Qed.

Lemma string_cons_inj c c' (s s' : string) :
  String c s = String c' s' -> c = c' /\ s = s'.
Proof. intros H. by inversion H. Qed.

Lemma generate_label_returns idx : exists l, generate_label idx = Ret l.
Proof.
  unfold generate_label.
  change (String.length ascii_uppercase) with 26%nat.
  destruct (get_upper (idx mod 26)) as (c & -> & _);
    [apply Nat.mod_upper_bound; lia|].
  destruct (idx / 26 =? 0)%nat; by eexists.
Qed.

Lemma generate_label_inj i j l :
  generate_label i = Ret l -> generate_label j = Ret l -> i = j.
Proof.
  unfold generate_label.
  change (String.length ascii_uppercase) with 26%nat.
  destruct (get_upper (i mod 26)) as (ci & -> & Hci);
    [apply Nat.mod_upper_bound; lia|].
  destruct (get_upper (j mod 26)) as (cj & -> & Hcj);
    [apply Nat.mod_upper_bound; lia|].
  assert (Hletter : ci = cj -> (i mod 26 = j mod 26)%nat)
    by (intros ->; lia).
  destruct (i / 26 =? 0)%nat eqn:Hi, (j / 26 =? 0)%nat eqn:Hj;
    intros H1 H2; inversion H1 as [H1']; inversion H2 as [H2'];
    rewrite <- H1' in H2'; apply (inj (String.app "Recurso ")) in H2'.
  all: apply string_cons_inj in H2' as [Hc Hrest].
  - apply Nat.eqb_eq in Hi, Hj. specialize (Hletter (eq_sym Hc)).
    rewrite (Nat.div_mod_eq i 26), (Nat.div_mod_eq j 26). lia.
  - by destruct (pretty_nat_nonempty _ Hrest).
  - by destruct (pretty_nat_nonempty _ (eq_sym Hrest)).
  - apply (inj pretty) in Hrest. specialize (Hletter (eq_sym Hc)).
    change (Nat.divmod j 25 0 25).1 with (j / 26)%nat in Hrest.
    change (Nat.divmod i 25 0 25).1 with (i / 26)%nat in Hrest.
    rewrite (Nat.div_mod_eq i 26), (Nat.div_mod_eq j 26). lia.
Qed.

Lemma labels_loop_spec idxs :
  forall acc,
    exists ls,
      labels_loop idxs acc = Ret (acc ++ ls)
      /\ Forall2 (fun idx l => generate_label idx = Ret l) idxs ls.
Proof.
  induction idxs as [|idx idxs IH]; intros acc.
  - exists []. simpl. by rewrite app_nil_r.
  - destruct (generate_label_returns idx) as [l Hl].
    destruct (IH (acc ++ [l])) as (ls & Hrun & Hall).
    exists (l :: ls). simpl. rewrite Hl, Hrun, <- app_assoc.
    split; [done|]. by constructor.
Qed.

Lemma labels_NoDup idxs ls :
  Forall2 (fun idx l => generate_label idx = Ret l) idxs ls ->
  NoDup idxs -> NoDup ls.
Proof.
  induction 1 as [|idx l idxs ls Hl Hall IH]; intros Hnd;
    [apply NoDup_nil_2|].
  apply NoDup_cons in Hnd as [Hnotin Hnd]. apply NoDup_cons.
  split; [|by apply IH]. intros Hin.
  apply list_elem_of_lookup in Hin as (k & Hk).
  destruct (Forall2_lookup_r _ _ _ _ _ Hall Hk) as (idx' & Hidx' & Hl').
  assert (idx = idx') by (by eapply generate_label_inj).
  subst idx'. apply Hnotin. by eapply list_elem_of_lookup_2.
Qed.

Section Claims.
Variable R : Worker.Random.
Hypothesis R_ok : Worker.Random_ok R.

Lemma build_claim_spec n units :
  forall r,
    exists claim r',
      build_claim R n units r = (Ret claim, r')
      /\ length claim = n
      /\ Forall (fun need => (1 <= need <= Z.max 1 units)%Z) claim.
Proof.
  induction n as [|n IH]; intros r.
  - exists [], r. by split_and!.
  - destruct (BankerWorkerFacts.randint_spec R R_ok 1 (Z.max 1 units) r)
      as (x & r1 & Hx & Hrange); [lia|].
    destruct (IH r1) as (claim & r' & Hrun & Hlen & Hall).
    exists (x :: claim), r'. simpl. unfold bind, ret. rewrite Hx, Hrun.
    split_and!; [done|simpl; lia|by constructor].
Qed.

Lemma build_claims_loop_spec n self :
  forall r,
    exists claims r',
      build_claims_loop R n self r = (Ret claims, r')
      /\ length claims = n
      /\ Forall (fun claim =>
                   length claim = Z.to_nat (resource_count self)
                   /\ Forall (fun need =>
                                (1 <= need <= Z.max 1 (resource_units self))%Z)
                        claim) claims.
Proof.
  induction n as [|n IH]; intros r.
  - exists [], r. by split_and!.
  - destruct (build_claim_spec (Z.to_nat (resource_count self))
                (resource_units self) r)
      as (claim & r1 & Hc & Hlen & Hall).
    destruct (IH r1) as (claims & r' & Hrun & Hlen' & Hall').
    exists (claim :: claims), r'. simpl. unfold bind, ret.
    rewrite Hc, Hrun. split_and!; [done|simpl; lia|by constructor].
Qed.

End Claims.

End ScenarioFacts.

(** X13.  [generate_labels] returns one label for each value of
    [range(count)], every one starting with ["Recurso "], and no two
    labels are equal, however many are asked for. *)
Theorem generate_labels_distinct (count : Z) :
  exists labels,
    Scenario.generate_labels count = Ret labels
    /\ length labels = Z.to_nat count
    /\ NoDup labels
    /\ (forall (idx : nat) l, labels !! idx = Some l ->
          Scenario.generate_label idx = Ret l
          /\ exists rest, l = "Recurso " +:+ rest).
Proof.
  unfold Scenario.generate_labels.
  destruct (ScenarioFacts.labels_loop_spec (seq 0 (Z.to_nat count)) [])
    as (ls & Hrun & Hall).
  exists ls. simpl in Hrun. split_and!; [done| | |].
  - apply Forall2_length in Hall. by rewrite length_seq in Hall.
  - eapply ScenarioFacts.labels_NoDup; [exact Hall|apply NoDup_seq].
  - intros idx l Hl.
    destruct (Forall2_lookup_r _ _ _ _ _ Hall Hl) as (idx' & Hidx' & Hl').
    apply lookup_seq in Hidx' as [-> _]. simpl in Hl'. split; [done|].
    unfold Scenario.generate_label in Hl'.
    destruct (String.get _ _) as [c|]; [|done].
    destruct (_ =? 0)%nat; inversion Hl'; by eexists.
Qed.

(** X14.  The claims that [BankerScenario._build_claims] draws fit the
    pool handed to the banker: there is one claim for each worker, and
    every claim asks, of each resource class of the pool, for at least
    one unit and at most the units the pool has. *)
Theorem build_claims_fit_pool (R : Worker.Random)
    (seed_int : Z -> Worker.rng_state R)
    (workers resource_count resource_units : Z) :
  Worker.Random_ok R ->
  let self :=
    Scenario.BankerScenario_init workers resource_count resource_units in
  exists claims,
    Scenario._build_claims R seed_int self = Ret claims
    /\ length claims = Z.to_nat workers
    /\ forall claim, claim ∈ claims ->
         Forall2 (fun need units => (1 <= need <= units)%Z)
                 claim (Scenario.resource_pool self).
Proof.
  intros HR self. unfold Scenario._build_claims.
  destruct (ScenarioFacts.build_claims_loop_spec R HR
              (Z.to_nat (Scenario.workers self)) self
              (seed_int (Scenario.workers self)))
    as (claims & r' & Hrun & Hlen & Hall).
  exists claims. rewrite Hrun. split_and!; [done|done|].
  intros claim Hin. rewrite Forall_forall in Hall.
  destruct (Hall claim Hin) as [Hl Hneeds].
  simpl in *. revert Hl Hneeds.
  generalize (Z.to_nat (Z.max 1 resource_count)). intros n Hl Hneeds.
  clear Hin Hall. revert n Hl.
  induction Hneeds as [|need claim' Hneed _ IH]; intros n Hl.
  - simpl in Hl. subst n. constructor.
  - destruct n as [|n]; [done|]. simpl. constructor; [lia|].
    apply IH. simpl in Hl. lia.
Qed.

Lemma build_claims_fit_pool_witness :
  exists claims,
    Scenario._build_claims Worker.lcg (fun z => z)
      (Scenario.BankerScenario_init 3 2 1) = Ret claims
    /\ length claims = 3%nat.
Proof.
  destruct (build_claims_fit_pool Worker.lcg (fun z => z) 3 2 1 lcg_ok)
    as (claims & Hrun & Hlen & _).
  by exists claims.
Defined.

(** ** Processes that have ended *)

Module TerminalFacts.
Import Simulator.

Lemma request_other j r s i :
  i <> j ->
  processes (snd (LockManager.request j r s)) !! i = processes s !! i.
Proof.
  intros Hij. unfold LockManager.request, bind, get_resource, get_process.
  destruct (resources s !! r) as [res|]; [|done].
  destruct (processes s !! j) as [p|]; [|done].
  destruct (held_by res) as [h|]; simpl.
  - destruct (decide (h = pid p)); [done|]. simpl.
    by rewrite list_lookup_insert_ne.
  - by rewrite list_lookup_insert_ne.
Qed.

(** Process object [i] is [p], in a store that keeps the holding
    invariant. *)
Definition stays (i : nat) (p : Process) (s : Store) : Prop :=
  LockManagerFacts.lock_inv s /\ processes s !! i = Some p.

Lemma stays_request i p s j q r :
  stays i p s -> processes s !! j = Some q -> state q <> state p ->
  match LockManager.request j r s with
  | (Ret _, s') => stays i p s'
  | (Exc _, s') => stays i p s'
  | (NoFuel, _) => False
  end.
Proof.
  intros [Hinv Hp] Hq Hne.
  assert (Hij : i <> j) by (intros ->; congruence).
  pose proof (lock_inv_request s j r Hinv) as H.
  pose proof (request_other j r s i Hij) as Ho.
  destruct (LockManager.request j r s) as [[b|e|] s']; [| |done];
    (split; [done|]); simpl in Ho; by rewrite Ho.
Qed.

Lemma stays_release_all i p s j q :
  stays i p s -> processes s !! j = Some q -> state q <> state p ->
  match LockManager.release_all j s with
  | (Ret _, s') => stays i p s'
  | (Exc _, s') => stays i p s'
  | (NoFuel, _) => False
  end.
Proof.
  intros [Hinv Hp] Hq Hne.
  assert (Hij : i <> j) by (intros ->; congruence).
  pose proof (LockManagerFacts.release_all_inv j s Hinv) as H.
  destruct (release_all_spec j s q Hinv Hq) as (res' & Hrun & _).
  rewrite Hrun in *. split; [done|]. simpl.
  by rewrite list_lookup_insert_ne.
Qed.

Lemma stays_sweeps i p ordered_mode :
  state p = FINISHED \/ state p = DEADLOCKED ->
  StepFacts.triple (stays i p) (step_sweeps ordered_mode)
    (fun _ => stays i p) (stays i p).
Proof.
  intros Hterm. apply StepFacts.triple_sweeps.
  - intros s j q r Hs Hq Hst _ _. apply (stays_request i p s j q r Hs Hq).
    destruct Hterm; congruence.
  - intros s j q r Hs Hq Hst _ _ _. apply (stays_request i p s j q r Hs Hq).
    destruct Hterm; congruence.
  - intros s j q Hs Hq Hst _. apply (stays_release_all i p s j q Hs Hq).
    destruct Hterm; congruence.
Qed.

(** Every node of a cycle has a successor. *)
Lemma cycle_members_wait g c a :
  DetectorFacts.cycle_ok g c -> a ∈ c -> exists b, Detector.edge g a b.
Proof.
  intros ((x & Hhd & Hlast) & Hlen & Hchain) Hin.
  apply list_elem_of_lookup in Hin as (k & Hk).
  destruct (c !! S k) as [b|] eqn:Hb.
  - exists b. by apply (Hchain k).
  - apply lookup_ge_None in Hb. apply lookup_lt_Some in Hk as Hlt.
    assert (last c = Some a).
    { rewrite last_lookup. rewrite <- Hk. f_equal. lia. }
    assert (a = x) by congruence. subst a.
    destruct c as [|y [|z c]]; simpl in Hlen; [lia..|].
    simpl in Hhd. inversion Hhd; subst y.
    exists z. by apply (Hchain 0%nat).
Qed.

Lemma stays_step depth mode t s i p :
  state p = FINISHED \/ state p = DEADLOCKED ->
  stays i p s ->
  match step depth mode t s with
  | (Ret _, s') => stays i p s'
  | (Exc _, s') => stays i p s'
  | (NoFuel, _) => False
  end.
Proof.
  intros Hterm Hs. unfold step. unfold bind at 1.
  pose proof (stays_sweeps i p (String.eqb mode "ordered") Hterm s Hs) as H1.
  destruct (step_sweeps (String.eqb mode "ordered") s) as [[[]|e|] s1];
    [|done..].
  unfold bind at 1.
  pose proof (DetectorFacts.detect_deadlock_spec depth s1) as Hd.
  destruct (Detector.detect_deadlock depth s1) as [[[[d es] c]|e|] s2];
    [| |done].
  2:{ by destruct Hd as (-> & _). }
  destruct Hd as (-> & g & Hg & _ & Hcase).
  destruct Hcase as [(-> & _ & Hok & _)|(-> & _)]; [|done].
  destruct H1 as [Hinv Hp]. pose proof Hinv as (Hnd & _).
  pose proof (StepFacts.mark_cycle_P LockManagerFacts.lock_inv
                mark_lock_inv c s1 Hinv) as Hinv'.
  unfold bind. rewrite (MarkFacts.mark_cycle_members c s1 Hnd) in *.
  unfold ret. split; [done|]. simpl.
  rewrite list_lookup_fmap, Hp. simpl. f_equal.
  unfold MarkFacts.mark_members.
  destruct (decide (pid p ∈ c)) as [Hin|]; [|done]. exfalso.
  destruct (cycle_members_wait g c (pid p) Hok Hin) as [b Hb].
  pose proof (DetectorFacts.build_wait_for_graph_spec s1) as Hspec.
  rewrite Hg in Hspec. destruct Hspec as [_ Hedge].
  apply Hedge in Hb as (j & q & r & res & Hq & Hpid & Hst & _).
  assert (j = i) by (eapply LockManagerFacts.pid_index_inj; eauto).
  subst j. rewrite Hp in Hq. inversion Hq; subst q.
  destruct Hterm; congruence.
Qed.

(** What [record_step] leaves of a process. *)
Definition frozen (p0 p : Process) : Prop :=
  pid p = pid p0 /\ plan p = plan p0
  /\ held_resources p = held_resources p0
  /\ current_request p = current_request p0 /\ state p = state p0.

Lemma stays_run_loop record_step depth mode n :
  counts_only record_step ->
  forall t k d s i p0 p,
    state p0 = FINISHED \/ state p0 = DEADLOCKED ->
    frozen p0 p -> stays i p s ->
    let s' := snd (run_loop record_step depth mode n t k d s) in
    LockManagerFacts.lock_inv s'
    /\ exists p', processes s' !! i = Some p' /\ frozen p0 p'.
Proof.
  intros Hrec. induction n as [|n IH]; intros t k d s i p0 p Hterm Hfr Hs.
  - simpl. destruct Hs as [Hinv Hp]. split; [done|]. by exists p.
  - cbn [run_loop].
    assert (Hterm' : state p = FINISHED \/ state p = DEADLOCKED).
    { destruct Hfr as (_ & _ & _ & _ & ->). done. }
    pose proof (stays_step depth mode t s i p Hterm' Hs) as Hstep.
    destruct (step depth mode t s) as [[b|e|] s1]; [| |done].
    2:{ simpl. destruct Hstep as [Hinv Hp]. split; [done|]. by exists p. }
    destruct Hstep as [Hinv1 Hp1].
    unfold do_record_step, modify. cbn [snd].
    set (s2 := {| processes := record_step (processes s1);
                  resources := resources s1 |}).
    assert (Hinv2 : LockManagerFacts.lock_inv s2).
    { apply record_lock_inv; [|done]. intros ps.
      by apply counts_only_fields. }
    destruct (Forall2_lookup_l _ _ _ _ _ (Hrec (processes s1)) Hp1)
      as (p2 & Hp2 & Hpid & Hplan & Hheld & Hreq & Hst).
    assert (Hfr2 : frozen p0 p2).
    { destruct Hfr as (? & ? & ? & ? & ?).
      split_and!; congruence. }
    destruct b; [simpl; split; [done|]; by exists p2|].
    destruct (all_finished s2); [simpl; split; [done|]; by exists p2|].
    by apply (IH (t + 1)%Z (S k) false s2 i p0 p2).
Qed.

End TerminalFacts.

(** X15.  A process that has ended stays as it is.  In a store that
    keeps the holding invariant, [step] leaves a [FINISHED] or
    [DEADLOCKED] process object untouched, in every mode and whether it
    returns or raises; over a whole [run] the process keeps its state,
    its request and its held set, and every resource it holds is still
    held by it at the end: nothing is taken from a deadlocked process
    and a finished one is never marked as deadlocked. *)
Theorem ended_process_stays
    (record_step : list Process -> list Process) (depth : nat)
    (mode : string) (max_steps t : Z) (st : Store) (i : nat) (p : Process) :
  counts_only record_step ->
  LockManagerFacts.lock_inv st ->
  processes st !! i = Some p ->
  state p = FINISHED \/ state p = DEADLOCKED ->
  processes (snd (Simulator.step depth mode t st)) !! i = Some p
  /\ exists p',
       processes (snd (Simulator.run record_step depth mode max_steps st))
         !! i = Some p'
       /\ TerminalFacts.frozen p p'
       /\ forall k, k ∈ held_resources p ->
            exists res,
              resources
                (snd (Simulator.run record_step depth mode max_steps st))
                !! k = Some res
              /\ held_by res = Some (pid p).
Proof.
  intros Hrec Hinv Hp Hterm. split.
  - pose proof (TerminalFacts.stays_step depth mode t st i p Hterm
                  (conj Hinv Hp)) as H.
    by destruct (Simulator.step depth mode t st) as [[b|e|] s'];
      [destruct H..|].
  - destruct (TerminalFacts.stays_run_loop record_step depth mode
                (Z.to_nat max_steps) Hrec 0 0%nat false st i p p Hterm)
      as (Hinv' & p' & Hp' & Hfr); [by split_and!|by split|].
    exists p'. split_and!; [done..|].
    intros k Hk. destruct Hinv' as (_ & _ & Hheld & _).
    destruct Hfr as (Hpid & _ & Hh & _).
    destruct (Hheld i p' k Hp') as (res & Hres & Hby); [by rewrite Hh|].
    exists res. split; [done|]. by rewrite <- Hpid.
Qed.

Lemma ended_process_stays_witness :
  exists p',
    processes (snd (Simulator.run (fun ps => ps) default_limit "naive" 5
                      (snd (Simulator.step default_limit "naive" 1
                              crossed)))) !! 0%nat
    = Some p'
    /\ state p' = DEADLOCKED.
Proof.
  destruct (ended_process_stays (fun ps => ps) default_limit "naive" 5 2
              (snd (Simulator.step default_limit "naive" 1 crossed)) 0
              {| pid := "P1"; plan := ["R1"; "R2"];
                 held_resources := {["R1"]};
                 current_request := Some "R2"; state := DEADLOCKED;
                 waiting_steps := 0 |})
    as (_ & p' & Hp' & (_ & _ & _ & _ & Hst) & _).
  - intros ps. induction ps; constructor; done.
  - pose proof (lock_inv_step default_limit "naive" 1 crossed crossed_inv)
      as H.
    by destruct (Simulator.step default_limit "naive" 1 crossed)
      as [[b|e|] s'].
  - vm_compute. reflexivity.
  - by right.
  - by exists p'.
Defined.

(** ** Runs that cannot idle *)

Module LivenessFacts.
Import Simulator OrderedFacts.

(** The resources of its plan that a process lacks. *)
Definition remaining (p : Process) : list string :=
  List.filter (fun r => bool_decide (r ∉ held_resources p)) (plan p).

(** What is left to do for a process: to finish, and before that an
    acquisition for every entry of [remaining]. *)
Definition work (p : Process) : nat :=
  if decide (state p = FINISHED) then 0%nat else S (length (remaining p)).

Definition total_work (s : Store) : nat := sum_list_with work (processes s).

Lemma sum_insert {A} (f : A -> nat) (l : list A) i x y :
  l !! i = Some x ->
  (sum_list_with f (<[i := y]> l) + f x = sum_list_with f l + f y)%nat.
Proof.
  revert i. induction l as [|a l IH]; intros [|i] H; simpl in *; try done.
  - inversion H; subst. lia.
  - specialize (IH i H). lia.
Qed.

Lemma filter_length_lt {A} (f g : A -> bool) (l : list A) x :
  (forall y, g y = true -> f y = true) ->
  x ∈ l -> f x = true -> g x = false ->
  (length (List.filter g l) < length (List.filter f l))%nat.
Proof.
  intros Hgf Hin Hfx Hgx.
  assert (Hle : forall k, (length (List.filter g k)
                           <= length (List.filter f k))%nat).
  { induction k as [|a k IH]; simpl; [lia|].
    destruct (g a) eqn:Hga.
    - rewrite (Hgf a Hga). simpl. lia.
    - destruct (f a); simpl; lia. }
  induction l as [|a l IH]; [by apply elem_of_nil in Hin|].
  apply elem_of_cons in Hin as [<-|Hin]; simpl.
  - rewrite Hfx, Hgx. simpl. specialize (Hle l). lia.
  - specialize (IH Hin). destruct (g a) eqn:Hga.
    + rewrite (Hgf a Hga). simpl. lia.
    + destruct (f a); simpl; lia.
Qed.

(** What every process keeps until a deadlock is reported: no empty
    resource id in its plan, never [DEADLOCKED], nothing held when
    [FINISHED], and when [BLOCKED] a request for a resource of its plan
    that it lacks. *)
Definition tidy_proc (p : Process) : Prop :=
  ("" ∉ plan p)
  /\ state p <> DEADLOCKED
  /\ (state p = FINISHED -> held_resources p = ∅)
  /\ (state p = BLOCKED ->
      exists r, current_request p = Some r /\ r ∈ plan p
                /\ r ∉ held_resources p).

Definition core (s : Store) : Prop :=
  LockManagerFacts.lock_inv s /\ closed s
  /\ forall i p, processes s !! i = Some p -> tidy_proc p.

(** The process after a granted request. *)
Definition granted (r : string) (p : Process) : Process :=
  set_current_request None
    (set_state RUNNING
       (set_held_resources ({[r]} ∪ held_resources p) p)).

Lemma request_cases i r s p res :
  processes s !! i = Some p -> resources s !! r = Some res ->
  LockManager.request i r s
  = match held_by res with
    | None =>
        (Ret true,
         {| processes := <[i := granted r p]> (processes s);
            resources :=
              <[r := set_held_by (Some (pid p)) res]> (resources s) |})
    | Some h =>
        if decide (h = pid p) then (Ret true, s)
        else (Ret false,
              {| processes := <[i := mark_blocked r p]> (processes s);
                 resources := resources s |})
    end.
Proof.
  intros Hp Hr. unfold LockManager.request, bind, get_resource, get_process.
  rewrite Hr, Hp. destruct (held_by res) as [h|]; [|done].
  by destruct (decide (h = pid p)).
Qed.

Lemma work_granted r p :
  state p <> FINISHED -> r ∈ plan p -> r ∉ held_resources p ->
  (work (granted r p) < work p)%nat.
Proof.
  intros Hst Hplan Hheld. unfold work. simpl.
  repeat case_decide; try done.
  apply -> Nat.succ_lt_mono. unfold remaining. simpl.
  apply (filter_length_lt _ _ _ r); [|done|by apply bool_decide_eq_true|].
  - intros y Hy. apply bool_decide_eq_true in Hy.
    apply bool_decide_eq_true. set_solver.
  - apply bool_decide_eq_false. set_solver.
Qed.

Lemma work_blocked r p :
  state p <> FINISHED -> work (mark_blocked r p) = work p.
Proof.
  intros Hst. unfold work. simpl. by repeat case_decide.
Qed.

(** A request for a lacking resource of the plan: it returns, granted
    with less work left, or refused with the store as it was but for the
    requester, now blocked on a resource that is held. *)
Lemma core_request i r s p :
  core s -> processes s !! i = Some p -> state p <> FINISHED ->
  r ∈ plan p -> r ∉ held_resources p ->
  exists b s',
    LockManager.request i r s = (Ret b, s')
    /\ core s'
    /\ pid <$> processes s' = pid <$> processes s
    /\ ((b = true /\ (total_work s' < total_work s)%nat)
        \/ (b = false
            /\ processes s' = <[i := mark_blocked r p]> (processes s)
            /\ resources s' = resources s
            /\ total_work s' = total_work s
            /\ exists res h,
                 resources s !! r = Some res /\ held_by res = Some h)).
Proof.
  intros (Hinv & Hclosed & Htidy) Hp Hst Hplan Hheld.
  assert (Hi : (i < length (processes s))%nat) by (by eapply lookup_lt_Some).
  destruct (Hclosed i p r Hp ltac:(by left)) as [res Hres].
  pose proof (LockManagerFacts.request_inv i r s Hinv) as Hinv'.
  destruct (closed_request i r s p Hclosed Hp ltac:(by eexists))
    as (b0 & s0 & Hrun0 & Hclosed').
  pose proof (request_cases i r s p res Hp Hres) as Hcases.
  destruct (Htidy i p Hp) as (Hne & Hnd & Hfin & Hblk).
  destruct (held_by res) as [h|] eqn:Hh.
  - destruct (decide (h = pid p)) as [->|Hhp].
    { exfalso. destruct Hinv as (Hnodup & _ & _ & Hholder).
      destruct (Hholder r res (pid p) Hres Hh) as (j & q & Hq & Hpid & Hin).
      assert (j = i) by (eapply LockManagerFacts.pid_index_inj; eauto).
      subst j. rewrite Hp in Hq. by inversion Hq; subst q. }
    rewrite Hcases in *. inversion Hrun0; subst b0 s0.
    eexists false, _. split; [reflexivity|]. simpl in *.
    split_and!.
    + split_and!; [done..|]. intros j q Hq. simpl in Hq.
      destruct (decide (i = j)) as [->|Hij].
      * rewrite list_lookup_insert_eq in Hq by done. inversion Hq; subst q.
        split_and!; simpl; [done..|]. intros _. by exists r.
      * rewrite list_lookup_insert_ne in Hq by done. by eapply Htidy.
    + by erewrite LockManagerFacts.pids_insert.
    + right. split_and!; try done.
      * unfold total_work. simpl.
        pose proof (sum_insert work (processes s) i p (mark_blocked r p) Hp)
          as Hsum.
        rewrite work_blocked in Hsum by done. lia.
      * by exists res, h.
  - rewrite Hcases in *. inversion Hrun0; subst b0 s0.
    eexists true, _. split; [reflexivity|]. simpl in *.
    split_and!.
    + split_and!; [done..|]. intros j q Hq. simpl in Hq.
      destruct (decide (i = j)) as [->|Hij].
      * rewrite list_lookup_insert_eq in Hq by done. inversion Hq; subst q.
        by split_and!; simpl.
      * rewrite list_lookup_insert_ne in Hq by done. by eapply Htidy.
    + by erewrite LockManagerFacts.pids_insert.
    + left. split; [done|]. unfold total_work. simpl.
      pose proof (sum_insert work (processes s) i p (granted r p) Hp) as Hsum.
      pose proof (work_granted r p Hst Hplan Hheld). lia.
Qed.

Lemma core_release_all i s p :
  core s -> processes s !! i = Some p -> state p = RUNNING ->
  exists s',
    LockManager.release_all i s = (Ret tt, s')
    /\ core s'
    /\ pid <$> processes s' = pid <$> processes s
    /\ (total_work s' < total_work s)%nat.
Proof.
  intros (Hinv & Hclosed & Htidy) Hp Hst.
  assert (Hi : (i < length (processes s))%nat) by (by eapply lookup_lt_Some).
  pose proof (LockManagerFacts.release_all_inv i s Hinv) as Hinv'.
  destruct (closed_release_all i s p Hclosed Hp) as (s0 & Hrun0 & Hclosed').
  destruct (release_all_spec i s p Hinv Hp) as (res' & Hrun & _).
  rewrite Hrun in *. inversion Hrun0; subst s0.
  eexists. split; [reflexivity|]. simpl in *. split_and!.
  - split_and!; [done..|]. intros j q Hq. simpl in Hq.
    destruct (Htidy i p Hp) as (Hne & _).
    destruct (decide (i = j)) as [->|Hij].
    + rewrite list_lookup_insert_eq in Hq by done. inversion Hq; subst q.
      by split_and!; simpl.
    + rewrite list_lookup_insert_ne in Hq by done. by eapply Htidy.
  - by erewrite LockManagerFacts.pids_insert.
  - unfold total_work. simpl.
    pose proof (sum_insert work (processes s) i p
                  (set_state FINISHED
                     (set_current_request None (set_held_resources ∅ p)))
                  Hp) as Hsum.
    assert (H0 : work (set_state FINISHED
                         (set_current_request None
                            (set_held_resources ∅ p))) = 0%nat)
      by reflexivity.
    assert (H1 : (0 < work p)%nat)
      by (unfold work; case_decide; [congruence|lia]).
    lia.
Qed.

Lemma triple_for_each_seq (P : nat -> Store -> Prop) E
    (f : nat -> M Store unit) k :
  forall a,
    (forall i, (a <= i < a + k)%nat ->
               StepFacts.triple (P i) (f i) (fun _ => P (S i)) E) ->
    StepFacts.triple (P a) (for_each (seq a k) f) (fun _ => P (a + k)%nat) E.
Proof.
  induction k as [|k IH]; intros a Hf.
  - simpl. apply StepFacts.triple_ret. intros s Hs.
    by rewrite Nat.add_0_r.
  - simpl. eapply StepFacts.triple_bind; [apply Hf; lia|].
    intros u. replace (a + S k)%nat with (S a + k)%nat by lia.
    apply IH. intros i Hi. apply Hf. lia.
Qed.

(** Process object [j] has had its turn without progress: it is
    [FINISHED], or [BLOCKED] on a resource that is held. *)
Definition settled (s : Store) (j : nat) : Prop :=
  exists p,
    processes s !! j = Some p
    /\ (state p = FINISHED
        \/ (state p = BLOCKED
            /\ exists r res h,
                 current_request p = Some r
                 /\ resources s !! r = Some res /\ held_by res = Some h)).

(** The request that [step] makes for a process in its first sweep. *)
Definition turn (ordered_mode : bool) (p : Process) (r : string) : Prop :=
  (state p = BLOCKED /\ current_request p = Some r)
  \/ (state p = RUNNING /\ has_all_resources p = false
      /\ next_request p ordered_mode = Some r).

Lemma next_request_running p ordered_mode :
  state p = RUNNING -> has_all_resources p = false ->
  exists r, next_request p ordered_mode = Some r.
Proof.
  intros Hst Hall. unfold next_request.
  rewrite bool_decide_eq_false_2 by (rewrite Hst; set_solver).
  destruct (List.filter _ (plan p)) as [|x l] eqn:Hrem.
  - exfalso. unfold has_all_resources in Hall.
    apply not_true_iff_false in Hall. apply Hall.
    apply forallb_forall. intros r Hr. apply bool_decide_eq_true.
    destruct (decide (r ∈ held_resources p)) as [|Hnot]; [done|].
    assert (Hin : r ∈ List.filter
                        (fun r => bool_decide (r ∉ held_resources p))
                        (plan p)).
    { apply ModelsFacts.remaining_elem. split; [|done].
      by apply list_elem_of_In. }
    rewrite Hrem in Hin. by apply elem_of_nil in Hin.
  - destruct ordered_mode.
    + simpl. destruct (sorted l) as [|y l']; simpl; [by eexists|].
      destruct (String.leb x y); by eexists.
    + pose proof (ModelsFacts.find_first
                    (fun resource_id =>
                       bool_decide (resource_id ∉ held_resources p))
                    (plan p)) as Hfind.
      destruct (List.find _ (plan p)) as [r|]; [by eexists|]. exfalso.
      assert (Hx : x ∈ List.filter
                         (fun r => bool_decide (r ∉ held_resources p))
                         (plan p)) by (rewrite Hrem; by left).
      apply ModelsFacts.remaining_elem in Hx as [Hx1 Hx2].
      specialize (Hfind x Hx1). by apply bool_decide_eq_false in Hfind.
Qed.

Section Sweep.
Variable n : nat.
Variable bound : nat.
Variable ordered_mode : bool.

(** An invariant of the stores of a run that the calls of the first
    sweep keep. *)
Variable L : Store -> Prop.

Hypothesis L_core : forall s, L s -> core s.

Hypothesis L_request :
  forall s i p r,
    L s -> processes s !! i = Some p -> turn ordered_mode p r ->
    core (snd (LockManager.request i r s)) ->
    pid <$> processes (snd (LockManager.request i r s))
    = pid <$> processes s ->
    L (snd (LockManager.request i r s)).

Hypothesis L_release :
  forall s i p,
    L s -> processes s !! i = Some p -> state p = RUNNING ->
    core (snd (LockManager.release_all i s)) ->
    pid <$> processes (snd (LockManager.release_all i s))
    = pid <$> processes s ->
    L (snd (LockManager.release_all i s)).

(** Where the first sweep stands before the turn of process [i]: work
    has been done since the sweep began, or the processes before [i] are
    settled. *)
Definition prog (i : nat) (s : Store) : Prop :=
  L s /\ length (processes s) = n
  /\ ((total_work s < bound)%nat
      \/ (total_work s = bound /\ forall j, (j < i)%nat -> settled s j)).

Lemma pids_length (s s' : Store) :
  pid <$> processes s' = pid <$> processes s ->
  length (processes s') = length (processes s).
Proof.
  intros H. apply (f_equal length) in H. by rewrite !length_fmap in H.
Qed.

Lemma prog_request i r s p :
  prog i s -> processes s !! i = Some p -> turn ordered_mode p r ->
  r ∈ plan p -> r ∉ held_resources p ->
  match LockManager.request i r s with
  | (Ret _, s') => prog (S i) s'
  | _ => False
  end.
Proof.
  intros (HL & Hn & Hcase) Hp Hturn Hplan Hheld.
  assert (Hst : state p <> FINISHED)
    by (destruct Hturn as [[? _]|[? _]]; congruence).
  pose proof (L_request s i p r HL Hp Hturn) as HL'.
  destruct (core_request i r s p (L_core s HL) Hp Hst Hplan Hheld)
    as (b & s' & Hrun & Hcore' & Hpids & Hres).
  rewrite Hrun in *. simpl in HL'.
  split_and!; [by apply HL'| |].
  { rewrite <- Hn. by apply pids_length. }
  destruct Hres as [[-> Hlt]|(-> & Hps & Hrs & Hw & res & h & Hr & Hh)].
  - left. destruct Hcase as [?|[? _]]; lia.
  - destruct Hcase as [?|[Hb Hset]]; [left; lia|right].
    split; [lia|]. intros j Hj.
    assert (Hi : (i < length (processes s))%nat)
      by (by eapply lookup_lt_Some).
    destruct (decide (j = i)) as [->|Hji].
    + exists (mark_blocked r p). rewrite Hps, Hrs.
      rewrite list_lookup_insert_eq by done. split; [done|]. right.
      split; [done|]. by exists r, res, h.
    + destruct (Hset j ltac:(lia)) as (q & Hq & Hor).
      exists q. rewrite Hps, Hrs.
      rewrite list_lookup_insert_ne by done. by split.
Qed.

Lemma prog_release i j s p :
  prog j s -> processes s !! i = Some p -> state p = RUNNING ->
  forall j',
    match LockManager.release_all i s with
    | (Ret _, s') => prog j' s'
    | _ => False
    end.
Proof.
  intros (HL & Hn & Hcase) Hp Hrun j'.
  pose proof (L_release s i p HL Hp Hrun) as HL'.
  destruct (core_release_all i s p (L_core s HL) Hp Hrun)
    as (s' & Hrel & Hcore' & Hpids & Hlt).
  rewrite Hrel in *. simpl in HL'.
  split_and!; [by apply HL'| |].
  { rewrite <- Hn. by apply pids_length. }
  left. destruct Hcase as [?|[? _]]; lia.
Qed.

Lemma prog_step_process i :
  (i < n)%nat ->
  StepFacts.triple (prog i) (step_process ordered_mode i)
    (fun _ => prog (S i)) (fun _ => False).
Proof.
  intros Hi s Hs. pose proof Hs as (HL & Hn & Hcase).
  pose proof (L_core s HL) as (Hinv & Hclosed & Htidy).
  unfold step_process, bind at 1, get_process.
  destruct (processes s !! i) as [p|] eqn:Hp;
    [|apply lookup_ge_None in Hp; lia].
  destruct (Htidy i p Hp) as (Hne & Hnd & Hfin & Hblk).
  destruct (bool_decide (state p ∈ [DEADLOCKED; FINISHED])) eqn:Hend.
  { apply bool_decide_eq_true in Hend.
    assert (Hst : state p = FINISHED) by set_solver.
    simpl. split_and!; [done..|].
    destruct Hcase as [?|[Hb Hset]]; [by left|right]. split; [done|].
    intros j Hj. destruct (decide (j = i)) as [->|Hji].
    - exists p. split; [done|by left].
    - apply Hset. lia. }
  apply bool_decide_eq_false in Hend.
  destruct (bool_decide (state p = BLOCKED)) eqn:Hb; simpl.
  - apply bool_decide_eq_true in Hb.
    destruct (Hblk Hb) as (r & Hr & Hplan & Hheld).
    assert (Hr0 : r <> "") by (intros ->; done).
    rewrite Hr. simpl. apply String.eqb_neq in Hr0 as Hr1.
    rewrite Hr1. simpl. unfold bind.
    pose proof (prog_request i r s p Hs Hp ltac:(by left) Hplan Hheld) as H.
    by destruct (LockManager.request i r s) as [[b|e|] s'].
  - apply bool_decide_eq_false in Hb.
    assert (Hrun : state p = RUNNING).
    { destruct (state p); try done; set_solver. }
    rewrite decide_True by done.
    destruct (has_all_resources p) eqn:Hall.
    + unfold _complete_process.
      pose proof (prog_release i i s p Hs Hp Hrun (S i)) as H.
      by destruct (LockManager.release_all i s) as [[[]|e|] s'].
    + destruct (next_request_running p ordered_mode Hrun Hall) as [r Hr].
      pose proof (next_request_elem p ordered_mode r Hr) as [Hplan Hheld].
      assert (Hr0 : r <> "") by (intros ->; done).
      rewrite Hr. simpl. apply String.eqb_neq in Hr0 as Hr1.
      rewrite Hr1. simpl. unfold bind.
      pose proof (prog_request i r s p Hs Hp ltac:(by right) Hplan Hheld)
        as H.
      by destruct (LockManager.request i r s) as [[b|e|] s'].
Qed.

Lemma prog_step_complete i :
  (i < n)%nat ->
  StepFacts.triple (prog n) (step_complete i) (fun _ => prog n)
    (fun _ => False).
Proof.
  intros Hi s Hs. pose proof Hs as (HL & Hn & Hcase).
  unfold step_complete, bind, get_process.
  destruct (processes s !! i) as [p|] eqn:Hp;
    [|apply lookup_ge_None in Hp; lia].
  destruct (bool_decide (state p = RUNNING)) eqn:Hrun; simpl; [|done].
  apply bool_decide_eq_true in Hrun.
  destruct (has_all_resources p); [|done].
  unfold _complete_process.
  pose proof (prog_release i n s p Hs Hp Hrun n) as H.
  by destruct (LockManager.release_all i s) as [[[]|e|] s'].
Qed.

Lemma prog_sweeps :
  StepFacts.triple (prog 0) (step_sweeps ordered_mode) (fun _ => prog n)
    (fun _ => False).
Proof.
  intros s Hs. pose proof Hs as (_ & Hn & _).
  unfold step_sweeps. unfold bind at 1. unfold process_indices at 1.
  rewrite Hn.
  eapply (StepFacts.triple_bind (prog 0)); [| |done].
  - apply (triple_for_each_seq prog _ (step_process ordered_mode) n 0).
    intros i Hi. apply prog_step_process. lia.
  - intros _ s1 Hs1. pose proof Hs1 as (_ & Hn1 & _).
    unfold bind, process_indices. rewrite Hn1.
    apply (StepFacts.triple_for_each (prog n)); [|done].
    intros i Hin. apply elem_of_seq in Hin.
    apply prog_step_complete. lia.
Qed.

End Sweep.

(** After the sweeps of a step: every process is settled, or some of
    the work that was left is done. *)
Lemma sweeps_outcome ordered_mode (L : Store -> Prop) s :
  (forall s, L s -> core s) ->
  (forall s i p r,
     L s -> processes s !! i = Some p -> turn ordered_mode p r ->
     core (snd (LockManager.request i r s)) ->
     pid <$> processes (snd (LockManager.request i r s))
     = pid <$> processes s ->
     L (snd (LockManager.request i r s))) ->
  (forall s i p,
     L s -> processes s !! i = Some p -> state p = RUNNING ->
     core (snd (LockManager.release_all i s)) ->
     pid <$> processes (snd (LockManager.release_all i s))
     = pid <$> processes s ->
     L (snd (LockManager.release_all i s))) ->
  L s ->
  exists s1,
    step_sweeps ordered_mode s = (Ret tt, s1)
    /\ L s1
    /\ length (processes s1) = length (processes s)
    /\ ((total_work s1 < total_work s)%nat
        \/ forall j, (j < length (processes s1))%nat -> settled s1 j).
Proof.
  intros H1 H2 H3 HL.
  assert (H0 : prog (length (processes s)) (total_work s) L 0 s).
  { split; [exact HL|]. split; [reflexivity|]. right.
    split; [reflexivity|]. intros j Hj. lia. }
  pose proof (prog_sweeps (length (processes s)) (total_work s)
                ordered_mode L H1 H2 H3 s H0) as Hsw.
  destruct (step_sweeps ordered_mode s) as [[[]|e|] s1]; [|done..].
  destruct Hsw as (HL1 & Hn1 & Hcase).
  exists s1. split_and!; [done..|].
  destruct Hcase as [?|[_ Hset]]; [by left|right].
  intros j Hj. apply Hset. lia.
Qed.

Lemma total_work_zero s : total_work s = 0%nat -> all_finished s = true.
Proof.
  unfold total_work, all_finished.
  induction (processes s) as [|p l IH]; simpl; [done|]. intros H.
  rewrite IH by lia. rewrite andb_true_r. apply bool_decide_eq_true.
  unfold work in H. destruct (decide (state p = FINISHED)); [done|lia].
Qed.

Lemma counts_only_work record_step ps :
  counts_only record_step ->
  sum_list_with work (record_step ps) = sum_list_with work ps
  /\ forallb (fun p => bool_decide (state p = FINISHED)) (record_step ps)
     = forallb (fun p => bool_decide (state p = FINISHED)) ps.
Proof.
  intros Hrec. pose proof (Hrec ps) as H. revert H.
  generalize (record_step ps). intros l H.
  induction H as [|p q l1 l2 (_ & Hplan & Hheld & _ & Hst) _ [IH1 IH2]];
    [done|].
  simpl. rewrite IH1, IH2. split; [|by rewrite Hst].
  f_equal. unfold work, remaining. by rewrite Hplan, Hheld, Hst.
Qed.

Lemma core_record record_step s :
  counts_only record_step -> core s ->
  core {| processes := record_step (processes s); resources := resources s |}.
Proof.
  intros Hrec (Hinv & Hclosed & Htidy). split_and!.
  - apply record_lock_inv; [|done]. intros ps.
    by apply counts_only_fields.
  - by apply closed_record.
  - intros j q Hq. simpl in Hq.
    destruct (Forall2_lookup_r _ _ _ _ _ (Hrec (processes s)) Hq)
      as (p & Hp & _ & Hplan & Hheld & Hreq & Hst).
    destruct (Htidy j p Hp) as (H1 & H2 & H3 & H4).
    unfold tidy_proc. rewrite Hplan, Hheld, Hreq, Hst. by split_and!.
Qed.

Lemma fresh_core s :
  LockManagerFacts.initial s -> closed s ->
  (forall i p, processes s !! i = Some p ->
               state p = RUNNING /\ ("" ∉ plan p)) ->
  core s
  /\ total_work s
     = sum_list_with (fun p => S (length (plan p))) (processes s).
Proof.
  intros Hinit Hclosed Hps. split.
  - split_and!; [by apply LockManagerFacts.initial_inv|done|].
    intros i p Hp. destruct (Hps i p Hp) as [Hst Hne].
    split_and!; [done|congruence|congruence|congruence].
  - destruct Hinit as (_ & _ & Hheld). unfold total_work.
    assert (H : forall p, p ∈ processes s ->
                          work p = S (length (plan p))).
    { intros p Hp. apply list_elem_of_lookup in Hp as (i & Hp).
      destruct (Hps i p Hp) as [Hst _]. unfold work, remaining.
      rewrite decide_False by congruence. rewrite (Hheld i p Hp).
      f_equal. f_equal. induction (plan p) as [|x l IHl]; [done|].
      simpl. rewrite bool_decide_eq_true_2 by set_solver. by f_equal. }
    clear Hheld Hps Hclosed. revert H. generalize (processes s).
    intros l. induction l as [|p l IH]; intros H; [done|]. simpl.
    rewrite H by (by left). rewrite IH; [lia|].
    intros q Hq. apply H. by right.
Qed.

(** *** Ordered mode *)

Definition live (s : Store) : Prop := ordered_inv s /\ core s.

Lemma live_core s : live s -> core s.
Proof. by intros [_ ?]. Qed.

Lemma live_request s i p r :
  live s -> processes s !! i = Some p -> turn true p r ->
  core (snd (LockManager.request i r s)) ->
  pid <$> processes (snd (LockManager.request i r s)) = pid <$> processes s ->
  live (snd (LockManager.request i r s)).
Proof.
  intros [Hord Hcore] Hp Hturn Hcore' _. split; [|done].
  pose proof Hord as [_ Hprocs]. destruct (Hprocs i p Hp) as [HA HB].
  destruct Hcore as (_ & _ & Htidy).
  destruct (Htidy i p Hp) as (Hne & _ & _ & Hblk).
  destruct Hturn as [[Hb Hr]|(Hrun & Hall & Hr)].
  - destruct (Hblk Hb) as (r' & Hr' & Hplan & _).
    assert (r' = r) by congruence. subst r'.
    assert (Hr0 : r <> "") by (intros ->; done).
    destruct (HB r Hb Hr Hr0) as [Hlow Hleast].
    by apply (ordered_request i r s p).
  - pose proof (next_request_elem p true r Hr) as [Hplan Hheld].
    apply (ordered_request i r s p); [done..| |].
    + intros k Hk. by apply HA.
    + by apply next_request_least.
Qed.

Lemma live_release s i p :
  live s -> processes s !! i = Some p -> state p = RUNNING ->
  core (snd (LockManager.release_all i s)) ->
  pid <$> processes (snd (LockManager.release_all i s)) = pid <$> processes s ->
  live (snd (LockManager.release_all i s)).
Proof.
  intros [Hord Hcore] Hp _ Hcore' _. split; [|done].
  by destruct (ordered_release_all i s p Hord Hp).
Qed.

Lemma list_max_exists (l : list string) :
  l <> [] ->
  exists m, m ∈ l /\ forall x, x ∈ l -> String.leb x m = true.
Proof.
  induction l as [|a l IH]; [done|]. intros _. destruct l as [|b l'].
  - exists a. split; [by left|]. intros x Hx.
    apply list_elem_of_singleton in Hx. subst. apply ModelsFacts.leb_refl.
  - destruct (IH ltac:(done)) as (m & Hm & Hmax).
    destruct (String.leb a m) eqn:Ham.
    + exists m. split; [by right|]. intros x Hx.
      apply elem_of_cons in Hx as [->|Hx]; [done|by apply Hmax].
    + exists a. split; [by left|]. intros x Hx.
      apply elem_of_cons in Hx as [->|Hx]; [apply ModelsFacts.leb_refl|].
      eapply ModelsFacts.leb_trans; [by apply Hmax|].
      destruct (String.leb_total a m) as [H|H]; [congruence|done].
Qed.

(** The request of a blocked process. *)
Definition blocked_request (p : Process) : option string :=
  if decide (state p = BLOCKED) then current_request p else None.

(** In ordered mode, when every process is settled none is blocked: the
    one blocked on the greatest resource would wait for a process
    blocked on a greater one. *)
Lemma settled_all_finished s :
  live s ->
  (forall j, (j < length (processes s))%nat -> settled s j) ->
  all_finished s = true.
Proof.
  intros ([_ Hprocs] & Hinv & Hclosed & Htidy) Hset.
  destruct (decide (omap blocked_request (processes s) = [])) as [Hnil|Hne].
  - unfold all_finished. apply forallb_forall. intros p Hp.
    apply list_elem_of_In, list_elem_of_lookup in Hp as (j & Hj).
    apply bool_decide_eq_true.
    destruct (Hset j ltac:(by eapply lookup_lt_Some)) as (q & Hq & Hor).
    rewrite Hj in Hq. inversion Hq; subst q.
    destruct Hor as [?|(Hb & r & _ & _ & Hr & _)]; [done|]. exfalso.
    assert (Hin : r ∈ omap blocked_request (processes s)).
    { apply list_elem_of_omap. exists p. split;
        [by eapply list_elem_of_lookup_2|].
      unfold blocked_request. by rewrite decide_True. }
    rewrite Hnil in Hin. by apply elem_of_nil in Hin.
  - exfalso. destruct (list_max_exists _ Hne) as (m & Hm & Hmax).
    apply list_elem_of_omap in Hm as (p & Hp & Hreq).
    unfold blocked_request in Hreq.
    destruct (decide (state p = BLOCKED)) as [Hb|]; [|done].
    apply list_elem_of_lookup in Hp as (j & Hj).
    destruct (Hset j ltac:(by eapply lookup_lt_Some)) as (p' & Hp' & Hor).
    rewrite Hj in Hp'. inversion Hp'; subst p'.
    destruct Hor as [?|(_ & r & res & h & Hr & Hres & Hh)]; [congruence|].
    assert (r = m) by congruence. subst r.
    destruct Hinv as (_ & _ & _ & Hholder).
    destruct (Hholder m res h Hres Hh) as (j' & q & Hq & Hpid & Hin).
    destruct (Hset j' ltac:(by eapply lookup_lt_Some)) as (q' & Hq' & Hor).
    rewrite Hq in Hq'. inversion Hq'; subst q'.
    destruct (Htidy j' q Hq) as (Hne' & _ & Hfin & Hblk).
    destruct Hor as [Hf|(Hbq & rq & _ & _ & Hrq & _)].
    { rewrite (Hfin Hf) in Hin. set_solver. }
    destruct (Hblk Hbq) as (rq' & Hrq' & Hplan & _).
    assert (rq' = rq) by congruence. subst rq'.
    assert (Hrq0 : rq <> "") by (intros ->; done).
    destruct (Hprocs j' q Hq) as [_ HB].
    destruct (HB rq Hbq Hrq Hrq0) as [Hlow _].
    destruct (Hlow m Hin) as [Hle Hneq]. apply Hneq.
    apply leb_antisym; [done|]. apply Hmax.
    apply list_elem_of_omap. exists q. split;
      [by eapply list_elem_of_lookup_2|].
    unfold blocked_request. by rewrite decide_True.
Qed.

(** A step in ordered mode, with more depth than process objects, does
    some of the work that is left, unless it finds every process
    finished. *)
Lemma step_progress depth t s :
  live s -> (length (processes s) < depth)%nat ->
  exists s1,
    step depth "ordered" t s = (Ret false, s1)
    /\ live s1
    /\ length (processes s1) = length (processes s)
    /\ ((total_work s1 < total_work s)%nat \/ all_finished s1 = true).
Proof.
  intros Hlive Hdepth. unfold step. cbn [String.eqb Ascii.eqb Bool.eqb].
  unfold bind at 1.
  destruct (sweeps_outcome true live s live_core live_request live_release
              Hlive) as (s1 & -> & Hlive1 & Hlen1 & Hcase).
  unfold bind at 1.
  pose proof (DetectorFacts.detect_deadlock_spec depth s1) as Hd.
  pose proof Hlive1 as (Hord1 & _ & Hclosed1 & _).
  destruct (Detector.detect_deadlock depth s1) as [[[[d es] c]|e|] s2];
    [| |done].
  - destruct Hd as (-> & g & Hg & _ & Hcyc).
    pose proof (DetectorFacts.build_wait_for_graph_spec s1) as Hb.
    rewrite Hg in Hb. destruct Hb as [_ Hedge].
    destruct Hcyc as [(_ & _ & _ & Hc)|(-> & _)].
    { by destruct (no_wait_cycle s1 g Hord1 Hedge). }
    exists s1. unfold ret. split_and!; [done..|].
    destruct Hcase as [?|Hset]; [by left|right].
    by apply settled_all_finished.
  - destruct Hd as (-> & [(_ & i & Hbad)|(_ & Hle & _)]); [|lia].
    by destruct (closed_no_bad_request s1 i).
Qed.

Lemma live_record record_step s :
  counts_only record_step -> live s ->
  live {| processes := record_step (processes s); resources := resources s |}.
Proof.
  intros Hrec [Hord Hcore]. split; [by apply ordered_record|].
  by apply core_record.
Qed.

Lemma live_run_loop record_step depth n :
  counts_only record_step ->
  forall t k s,
    live s -> (length (processes s) < depth)%nat ->
    (total_work s <= n)%nat ->
    exists k' s',
      run_loop record_step depth "ordered" n t k false s
      = (Ret (false, k'), s')
      /\ all_finished s' = true
      /\ (k' <= k + 1 `max` total_work s)%nat.
Proof.
  intros Hrec. induction n as [|n IH]; intros t k s Hlive Hdepth Hw.
  - exists k, s. split_and!; [done| |lia]. apply total_work_zero. lia.
  - cbn [run_loop].
    destruct (step_progress depth t s Hlive Hdepth)
      as (s1 & -> & Hlive1 & Hlen1 & Hprog).
    unfold do_record_step, modify. cbn [snd].
    set (s2 := {| processes := record_step (processes s1);
                  resources := resources s1 |}).
    destruct (counts_only_work record_step (processes s1) Hrec)
      as [Hw2 Hf2].
    assert (Hlive2 : live s2) by (by apply live_record).
    assert (Hlen2 : (length (processes s2) < depth)%nat).
    { simpl. rewrite (counts_only_length record_step _ Hrec). lia. }
    destruct (all_finished s2) eqn:Hfin.
    + exists (S k), s2. split_and!; [done..|lia].
    + assert (Hlt : (total_work s2 < total_work s)%nat).
      { destruct Hprog as [Hlt|Hall].
        - unfold total_work in *. simpl. lia.
        - unfold all_finished in *. simpl in Hfin. congruence. }
      assert (Hpos : (0 < total_work s2)%nat).
      { destruct (total_work s2) eqn:H0; [|lia].
        rewrite (total_work_zero s2 H0) in Hfin. done. }
      destruct (IH (t + 1)%Z (S k) s2 Hlive2 Hlen2 ltac:(lia))
        as (k' & s' & Hrun & Hall & Hk).
      exists k', s'. split_and!; [done..|lia].
Qed.

(** *** Every mode *)

(** The invariant of a run in any mode, up to the report of a
    deadlock: [core], and no process of empty [pid]. *)
Definition base (s : Store) : Prop :=
  core s /\ ("" ∉ pid <$> processes s).

Lemma base_core s : base s -> core s.
Proof. by intros [? _]. Qed.

Lemma base_request ordered_mode s i p r :
  base s -> processes s !! i = Some p -> turn ordered_mode p r ->
  core (snd (LockManager.request i r s)) ->
  pid <$> processes (snd (LockManager.request i r s)) = pid <$> processes s ->
  base (snd (LockManager.request i r s)).
Proof. intros [_ Hne] _ _ Hcore Hpids. split; [done|]. by rewrite Hpids. Qed.

Lemma base_release s i p :
  base s -> processes s !! i = Some p -> state p = RUNNING ->
  core (snd (LockManager.release_all i s)) ->
  pid <$> processes (snd (LockManager.release_all i s)) = pid <$> processes s ->
  base (snd (LockManager.release_all i s)).
Proof. intros [_ Hne] _ _ Hcore Hpids. split; [done|]. by rewrite Hpids. Qed.

(** When every process is settled and the wait-for graph has no cycle,
    none is blocked: the processes it waits for would make an infinite
    walk. *)
Lemma settled_acyclic_finished s g :
  base s ->
  (forall a b, Detector.edge g a b <-> DetectorFacts.waits_for s a b) ->
  (forall x, DetectorFacts.finishes g x) ->
  (forall j, (j < length (processes s))%nat -> settled s j) ->
  all_finished s = true.
Proof.
  intros ((Hinv & Hclosed & Htidy) & Hpids) Hedge Hfin Hset.
  assert (Hno : forall x, DetectorFacts.finishes g x ->
            forall j p, processes s !! j = Some p -> pid p = x ->
                        state p = BLOCKED -> False).
  { intros x Hx. induction Hx as [x _ IH]. intros j p Hp Hpid Hb.
    destruct (Hset j ltac:(by eapply lookup_lt_Some)) as (p' & Hp' & Hor).
    rewrite Hp in Hp'. inversion Hp'; subst p'.
    destruct Hor as [?|(_ & r & res & h & Hr & Hres & Hh)]; [congruence|].
    destruct (Htidy j p Hp) as (Hne & _ & _ & Hblk).
    destruct (Hblk Hb) as (r' & Hr' & Hplan & Hheld).
    assert (r' = r) by congruence. subst r'.
    pose proof Hinv as (Hnd & _ & _ & Hholder).
    destruct (Hholder r res h Hres Hh) as (j' & q & Hq & Hqid & Hin).
    assert (Hhx : h <> x).
    { intros ->. assert (j' = j)
        by (eapply LockManagerFacts.pid_index_inj; eauto; congruence).
      subst j'. rewrite Hp in Hq. by inversion Hq; subst q. }
    assert (Hh0 : h <> "").
    { intros ->. apply Hpids. apply list_elem_of_fmap. exists q.
      split; [done|]. by eapply list_elem_of_lookup_2. }
    assert (Hxh : Detector.edge g x h).
    { apply Hedge. exists j, p, r, res. split_and!; try done.
      intros ->. done. }
    destruct (Hset j' ltac:(by eapply lookup_lt_Some)) as (q' & Hq' & Hor).
    rewrite Hq in Hq'. inversion Hq'; subst q'.
    destruct (Htidy j' q Hq) as (_ & _ & Hfinq & _).
    destruct Hor as [Hf|(Hbq & _)].
    { rewrite (Hfinq Hf) in Hin. set_solver. }
    by apply (IH h Hxh j' q). }
  unfold all_finished. apply forallb_forall. intros p Hp.
  apply list_elem_of_In, list_elem_of_lookup in Hp as (j & Hj).
  apply bool_decide_eq_true.
  destruct (Hset j ltac:(by eapply lookup_lt_Some)) as (q & Hq & Hor).
  rewrite Hj in Hq. inversion Hq; subst q.
  destruct Hor as [?|(Hb & _)]; [done|].
  by destruct (Hno (pid p) (Hfin (pid p)) j p).
Qed.

(** A step in any mode, with more depth than process objects, reports
    a deadlock, or does some of the work that is left, or finds every
    process finished. *)
Lemma step_outcome_any depth mode t s :
  base s -> (length (processes s) < depth)%nat ->
  exists d s1,
    step depth mode t s = (Ret d, s1)
    /\ length (processes s1) = length (processes s)
    /\ (d = true
        \/ (d = false /\ base s1
            /\ ((total_work s1 < total_work s)%nat
                \/ all_finished s1 = true))).
Proof.
  intros Hbase Hdepth. unfold step. unfold bind at 1.
  destruct (sweeps_outcome (String.eqb mode "ordered") base s base_core
              (base_request _) base_release Hbase)
    as (s1 & -> & Hbase1 & Hlen1 & Hcase).
  unfold bind at 1.
  pose proof (DetectorFacts.detect_deadlock_spec depth s1) as Hd.
  pose proof Hbase1 as ((_ & Hclosed1 & _) & _).
  destruct (Detector.detect_deadlock depth s1) as [[[[d es] c]|e|] s2];
    [| |done].
  - destruct Hd as (-> & g & Hg & _ & Hcyc).
    pose proof (DetectorFacts.build_wait_for_graph_spec s1) as Hb.
    rewrite Hg in Hb. destruct Hb as [_ Hedge].
    destruct Hcyc as [(-> & _)|(-> & Hnone & _)].
    + destruct (SimulatorFacts.mark_cycle_marked c s1)
        as (s3 & Hrun & _ & Hlen3 & _).
      exists true, s3. unfold bind. rewrite Hrun.
      split_and!; [done|lia|by left].
    + exists false, s1. unfold ret. split_and!; [done..|right].
      split_and!; [done..|].
      destruct Hcase as [?|Hset]; [by left|right].
      apply (settled_acyclic_finished s1 g); [done..| |done].
      by apply (DetectorFacts.find_cycle_none_finishes g depth).
  - destruct Hd as (-> & [(_ & i & Hbad)|(_ & Hle & _)]); [|lia].
    by destruct (closed_no_bad_request s1 i).
Qed.

Lemma base_record record_step s :
  counts_only record_step -> base s ->
  base {| processes := record_step (processes s); resources := resources s |}.
Proof.
  intros Hrec [Hcore Hpids]. split; [by apply core_record|]. simpl.
  by rewrite (proj1 (counts_only_fields record_step (processes s) Hrec)).
Qed.

Lemma base_run_loop record_step depth mode n :
  counts_only record_step ->
  forall t k s,
    base s -> (length (processes s) < depth)%nat ->
    (total_work s <= n)%nat ->
    exists d k' s',
      run_loop record_step depth mode n t k false s = (Ret (d, k'), s')
      /\ (d = true \/ all_finished s' = true)
      /\ (k' <= k + 1 `max` total_work s)%nat.
Proof.
  intros Hrec. induction n as [|n IH]; intros t k s Hbase Hdepth Hw.
  - exists false, k, s. split_and!; [done| |lia]. right.
    apply total_work_zero. lia.
  - cbn [run_loop].
    destruct (step_outcome_any depth mode t s Hbase Hdepth)
      as (d & s1 & -> & Hlen1 & Hcase).
    unfold do_record_step, modify. cbn [snd].
    set (s2 := {| processes := record_step (processes s1);
                  resources := resources s1 |}).
    destruct Hcase as [->|(-> & Hbase1 & Hprog)].
    { exists true, (S k), s2. split_and!; [done|by left|lia]. }
    destruct (counts_only_work record_step (processes s1) Hrec)
      as [Hw2 Hf2].
    assert (Hbase2 : base s2) by (by apply base_record).
    assert (Hlen2 : (length (processes s2) < depth)%nat).
    { simpl. rewrite (counts_only_length record_step _ Hrec). lia. }
    destruct (all_finished s2) eqn:Hfin.
    + exists false, (S k), s2. split_and!; [done|by right|lia].
    + assert (Hlt : (total_work s2 < total_work s)%nat).
      { destruct Hprog as [Hlt|Hall].
        - unfold total_work in *. simpl. lia.
        - unfold all_finished in *. simpl in Hfin. congruence. }
      assert (Hpos : (0 < total_work s2)%nat).
      { destruct (total_work s2) eqn:H0; [|lia].
        rewrite (total_work_zero s2 H0) in Hfin. done. }
      destruct (IH (t + 1)%Z (S k) s2 Hbase2 Hlen2 ltac:(lia))
        as (d & k' & s' & Hrun & Hall & Hk).
      exists d, k', s'. split_and!; [done..|lia].
Qed.

End LivenessFacts.



(** ** Runs in any mode *)



(** ** Generated scenarios, run *)

Lemma short_plans_steps (ps : list Process) :
  Forall (fun p => (length (plan p) <= 2)%nat) ps ->
  (sum_list_with (fun p => S (length (plan p))) ps <= 3 * length ps)%nat.
Proof.
  induction 1 as [|p l Hp _ IH]; simpl; lia.
Qed.

(** X18.  The scenarios that [build_processes_and_resources] makes do
    not outlast three steps for each process.  When [max_steps] allows
    that many (the default of 50 does up to 16 processes) and the
    processes are fewer than the depth that the interpreter allows to
    the search of the detector, [run] on the simulator built from them
    ends because a deadlock is reported or because every process is
    [FINISHED]; in mode ["ordered"] it is the latter. *)
Theorem generated_scenario_ends (G : Scenarios.Sampler)
    (num_processes num_resources : option Z) (scenario : option string)
    (demo : bool) (seed : Z) (r : Scenarios.sam_state G)
    (record_step : list Process -> list Process) (depth : nat)
    (mode : string) (max_steps : Z) :
  let count := ScenariosFacts.process_count num_processes scenario demo in
  Scenarios.Sampler_ok G -> counts_only record_step ->
  (count < depth)%nat ->
  (3 * count <= Z.to_nat max_steps)%nat ->
  exists ps rs r',
    Scenarios.build_processes_and_resources G num_processes num_resources
      scenario demo seed r = (Ret (ps, rs), r')
    /\ length ps = count
    /\ exists deadlock_found steps st',
         Simulator.run record_step depth mode max_steps (Simulator.init ps rs)
         = (Ret (deadlock_found, steps), st')
         /\ (steps <= 1 `max` (3 * count))%nat
         /\ (deadlock_found = true \/ Simulator.all_finished st' = true)
         /\ (mode = "ordered" -> deadlock_found = false).
Proof.
  intros count HG Hrec Hdepth Hmax.
  destruct (ScenariosFacts.build_shape G HG num_processes num_resources
              scenario demo seed r)
    as (ps & rs & r' & Hrun & Hwb & [n ->] & Hpids & Hshort).
  pose proof (ScenariosFacts.build_length _ _ _ _ Hpids) as Hlen.
  fold count in Hlen.
  destruct (ScenariosFacts.well_built_store ps _ Hwb)
    as (Hinit & Hclosed & Hrunning).
  exists ps, (Scenarios.make_resources n), r'. split_and!; [done..|].
  pose proof (short_plans_steps ps Hshort) as Hsteps.
  set (st := Simulator.init ps (Scenarios.make_resources n)) in *.
  assert (Hplans : forall i p, processes st !! i = Some p ->
                               state p = RUNNING /\ ("" ∉ plan p)).
  { intros i p Hp. split; [by eapply Hrunning|]. intros Hin.
    destruct Hwb as (_ & _ & Hall). rewrite Forall_forall in Hall.
    destruct (Hall p ltac:(by eapply list_elem_of_lookup_2))
      as (_ & _ & _ & Hplan).
    specialize (Hplan "" Hin).
    rewrite ScenariosFacts.make_resources_rids in Hplan.
    apply list_elem_of_fmap in Hplan as (j & Hj & _).
    exact (ScenariosFacts.numbered_nonempty _ _ j (eq_sym Hj)). }
  destruct (LivenessFacts.fresh_core st Hinit Hclosed Hplans) as [Hcore Hw].
  change (processes st) with ps in Hw.
  assert (Hst : (length (processes st) < depth)%nat) by (simpl; lia).
  destruct (decide (mode = "ordered")) as [->|Hmode].
  - assert (Hlive : LivenessFacts.live st).
    { split; [|done]. by apply OrderedFacts.fresh_ordered. }
    destruct (LivenessFacts.live_run_loop record_step depth
                (Z.to_nat max_steps) Hrec 0 0%nat st Hlive Hst ltac:(lia))
      as (k' & s' & Hloop & Hall & Hk).
    exists false, k', s'. unfold Simulator.run.
    split_and!; [done|lia|by right|done].
  - assert (Hbase : LivenessFacts.base st).
    { split; [done|]. change (processes st) with ps. rewrite Hpids.
      intros Hin. apply list_elem_of_fmap in Hin as (j & Hj & _).
      exact (ScenariosFacts.numbered_nonempty _ _ j (eq_sym Hj)). }
    destruct (LivenessFacts.base_run_loop record_step depth mode
                (Z.to_nat max_steps) Hrec 0 0%nat st Hbase Hst ltac:(lia))
      as (d & k' & s' & Hloop & Hend & Hk).
    exists d, k', s'. unfold Simulator.run.
    split_and!; [done|lia|done|done].
Qed.

Lemma generated_scenario_ends_witness :
  exists ps rs deadlock_found steps st',
    Scenarios.build_processes_and_resources ScenariosFacts.first_elements
      (Some 3%Z) (Some 2%Z) (Some "high") false 42 tt = (Ret (ps, rs), tt)
    /\ Simulator.run (fun ps => ps) default_limit "naive" 50
         (Simulator.init ps rs)
       = (Ret (deadlock_found, steps), st')
    /\ (steps <= 9)%nat.
Proof.
  destruct (generated_scenario_ends ScenariosFacts.first_elements
              (Some 3%Z) (Some 2%Z) (Some "high") false 42 tt (fun ps => ps)
              default_limit "naive" 50)
    as (ps & rs & [] & Hrun & _ & d & k & st' & Hr & Hk & _).
  - exact ScenariosFacts.first_elements_ok.
  - intros l. induction l; constructor; done.
  - vm_compute. lia.
  - vm_compute. lia.
  - exists ps, rs, d, k, st'. split_and!; [done..|].
    vm_compute in Hk. lia.
Defined.
